(** * retrace_main.cpp: the trace replayer and its relay race

    A shallow embedding of [src/retrace/retrace_main.cpp].  The file has
    three layers, as the source has:

    - the per-call pipeline ([frameComplete], [takeSnapshot], [retraceCall]),
      sequential code run by whichever runner holds the baton;
    - the relay race ([RelayRunner], [RelayRace]): one thread per leg,
      a mutex, a condition variable, a [finished] flag and a one-slot
      [baton] per runner.  It is modelled as an interleaving machine:
      [step t s] executes the next statement of thread [t];
    - [main]: the option loop and the loop over the trace files.

    Everything the source takes from other translation units (the parser,
    the handler registry, the image library, [dumpState], [CallSet], libc)
    is a field of the record [External]. *)

From stdpp Require Import base list strings.
From Stdlib Require Import Ascii ZArith Lia.

Local Open Scope Z_scope.

(** ** Machine integers *)

(** [unsigned] is 32 bits wide on every platform the program builds for. *)
Definition UINT_MAX : Z := 4294967295.

Definition wrap (z : Z) : Z := z mod 2 ^ 32.

Definition is_unsigned (z : Z) : Prop := 0 <= z <= UINT_MAX.

(** ** trace::Call *)

(** The fields of [trace::Call] this file reads: the call index [no], the
    recorded thread [thread_id], the flag word [flags]; [name] stands for the
    payload the handlers use.  [thread_id] indexes the runner vector, so it
    is a [nat]; [no] and [flags] are unsigned machine words. *)
Record Call := mkCall {
  no : Z;
  thread_id : nat;
  flags : Z;
  name : string
}.

Definition call_ok (c : Call) : Prop := is_unsigned (no c) ∧ is_unsigned (flags c).

(** ** What the file prints and does to the outside, in order *)

Inductive Event :=
  | EvTakeSnapshot (call_no : Z)        (* takeSnapshot(call_no) entered *)
  | EvRetrace (call : Call)             (* retracer.retrace(call) returned *)
  | EvStdout (text : string)            (* a line on std::cout *)
  | EvStderr (text : string)            (* a line on std::cerr *)
  | EvWritePNG (filename : string) (ok : bool)   (* src->writePNG(filename) *)
  | EvWritePNM (comment : string)       (* src->writePNM(std::cout, comment) *)
  | EvCompare (call_no : Z) (bits : string)   (* the "Snapshot ... bits" line *)
  | EvDumpState (ok : bool)             (* dumpState(std::cout) *)
  | EvFlushRendering                    (* flushRendering() *)
  | EvRendered (frames : Z)             (* the "Rendered N frames" line *)
  | EvWaitForInput.                     (* waitForInput() *)

(** How a run of sequential code ends early: [exit(status)], or a failed
    [assert]. *)
Inductive Stop :=
  | Exit (status : Z)
  | AssertFail.

(** The calls retraced, and the snapshots asked for, in a record. *)
Definition retraced (evs : list Event) : list Call :=
  omap (λ e, match e with EvRetrace call => Some call | _ => None end) evs.

Definition snapshots (evs : list Event) : list Z :=
  omap (λ e, match e with EvTakeSnapshot n => Some n | _ => None end) evs.

(** The record cut down to those two kinds of entry. *)
Definition is_mark (e : Event) : bool :=
  match e with EvTakeSnapshot _ | EvRetrace _ => true | _ => false end.

Definition marks (evs : list Event) : list Event := filter is_mark evs.

(** The entries that reach the outside: output and files. *)
Definition is_output (e : Event) : bool :=
  match e with
  | EvStdout _ | EvWritePNG _ _ | EvWritePNM _ | EvCompare _ _ => true
  | _ => false
  end.

(** ** The other translation units *)

Record External := {
  (* trace_callset.hpp *)
  CallSet : Type;
  CallSet_default : CallSet;                 (* a static trace::CallSet *)
  CallSet_FREQUENCY_FRAME : CallSet;         (* CallSet(trace::FREQUENCY_FRAME) *)
  CallSet_parse : string → CallSet;          (* CallSet(const char * ) *)
  CallSet_empty : CallSet → bool;
  CallSet_contains : CallSet → Call → bool;
  (* trace_model.hpp *)
  CALL_FLAG_SWAP_RENDERTARGET : Z;
  CALL_FLAG_END_FRAME : Z;
  (* the driver, the window system and the files on disk *)
  World : Type;
  (* image.hpp *)
  Image : Type;
  readPNG : string → World → option Image;
  writePNG : Image → string → World → bool * World;
  compare : Image → Image → string;          (* the number as printed *)
  (* retrace.hpp *)
  getSnapshot : World → option Image;
  retrace_handler : Call → World → World;    (* what the call's handler does *)
  handler_frames : Call → World → nat;       (* how often it calls frameComplete *)
  dumpState : World → bool;
  flushRendering : World → World;
  (* trace::Parser::open: the calls of a trace file, in stream order *)
  parser_open : string → option (list Call);
  (* libc *)
  atoi : string → Z
}.

(** ** Printing call numbers *)

Definition newline : string := String (ascii_of_nat 10) "".

Definition digit (n : Z) : ascii := ascii_of_nat (48 + Z.to_nat (n mod 10)).

Fixpoint zero_padded (width : nat) (n : Z) (acc : string) : string :=
  match width with
  | O => acc
  | S w => zero_padded w (n / 10) (String (digit n) acc)
  end.

(** ["%010u"]: an unsigned has at most ten decimal digits. *)
Definition format_010u (n : Z) : string := zero_padded 10 n "".

Fixpoint strip_zeros (s : string) : string :=
  match s with
  | String a rest =>
      match rest with
      | EmptyString => s
      | String _ _ => if Ascii.eqb a "0" then strip_zeros rest else s
      end
  | EmptyString => s
  end.

(** ["%u"] *)
Definition format_u (n : Z) : string := strip_zeros (format_010u n).

(** [os::String::format("%s%010u.png", prefix, call_no)] *)
Definition png_name (prefix : string) (call_no : Z) : string :=
  prefix +:+ format_010u call_no +:+ ".png".

Section Retrace.

Context {X : External}.

(** ** The file's static variables *)

(** Set by the option loop of [main], read during the replay. [None] is a
    null [const char *]. *)
Record Config := {
  waitOnFinish : bool;
  comparePrefix : option string;
  snapshotPrefix : option string;
  snapshotFrequency : CallSet X;
  compareFrequency : CallSet X;
  dumpStateCallNo : Z;
  verbosity : Z;
  debug : bool;
  dumpingState : bool;
  doubleBuffer : bool;
  coreProfile : bool;
  profiling : bool;
  profilingGpuTimes : bool;
  profilingCpuTimes : bool;
  profilingPixelsDrawn : bool
}.

(** Their initialisers (lines 39-68). *)
Definition default_config : Config := {|
  waitOnFinish := false;
  comparePrefix := None;
  snapshotPrefix := None;
  snapshotFrequency := CallSet_default X;
  compareFrequency := CallSet_default X;
  dumpStateCallNo := wrap (Z.lnot 0);
  verbosity := 0;
  debug := true;
  dumpingState := false;
  doubleBuffer := true;
  coreProfile := false;
  profiling := false;
  profilingGpuTimes := false;
  profilingCpuTimes := false;
  profilingPixelsDrawn := false
|}.

(** Assignments to the static variables. *)
Definition set_waitOnFinish (v : bool) (c : Config) : Config :=
  {| waitOnFinish := v;
     comparePrefix := comparePrefix c;
     snapshotPrefix := snapshotPrefix c;
     snapshotFrequency := snapshotFrequency c;
     compareFrequency := compareFrequency c;
     dumpStateCallNo := dumpStateCallNo c;
     verbosity := verbosity c;
     debug := debug c;
     dumpingState := dumpingState c;
     doubleBuffer := doubleBuffer c;
     coreProfile := coreProfile c;
     profiling := profiling c;
     profilingGpuTimes := profilingGpuTimes c;
     profilingCpuTimes := profilingCpuTimes c;
     profilingPixelsDrawn := profilingPixelsDrawn c |}.

Definition set_comparePrefix (v : option string) (c : Config) : Config :=
  {| waitOnFinish := waitOnFinish c;
     comparePrefix := v;
     snapshotPrefix := snapshotPrefix c;
     snapshotFrequency := snapshotFrequency c;
     compareFrequency := compareFrequency c;
     dumpStateCallNo := dumpStateCallNo c;
     verbosity := verbosity c;
     debug := debug c;
     dumpingState := dumpingState c;
     doubleBuffer := doubleBuffer c;
     coreProfile := coreProfile c;
     profiling := profiling c;
     profilingGpuTimes := profilingGpuTimes c;
     profilingCpuTimes := profilingCpuTimes c;
     profilingPixelsDrawn := profilingPixelsDrawn c |}.

Definition set_snapshotPrefix (v : option string) (c : Config) : Config :=
  {| waitOnFinish := waitOnFinish c;
     comparePrefix := comparePrefix c;
     snapshotPrefix := v;
     snapshotFrequency := snapshotFrequency c;
     compareFrequency := compareFrequency c;
     dumpStateCallNo := dumpStateCallNo c;
     verbosity := verbosity c;
     debug := debug c;
     dumpingState := dumpingState c;
     doubleBuffer := doubleBuffer c;
     coreProfile := coreProfile c;
     profiling := profiling c;
     profilingGpuTimes := profilingGpuTimes c;
     profilingCpuTimes := profilingCpuTimes c;
     profilingPixelsDrawn := profilingPixelsDrawn c |}.

Definition set_snapshotFrequency (v : CallSet X) (c : Config) : Config :=
  {| waitOnFinish := waitOnFinish c;
     comparePrefix := comparePrefix c;
     snapshotPrefix := snapshotPrefix c;
     snapshotFrequency := v;
     compareFrequency := compareFrequency c;
     dumpStateCallNo := dumpStateCallNo c;
     verbosity := verbosity c;
     debug := debug c;
     dumpingState := dumpingState c;
     doubleBuffer := doubleBuffer c;
     coreProfile := coreProfile c;
     profiling := profiling c;
     profilingGpuTimes := profilingGpuTimes c;
     profilingCpuTimes := profilingCpuTimes c;
     profilingPixelsDrawn := profilingPixelsDrawn c |}.

Definition set_compareFrequency (v : CallSet X) (c : Config) : Config :=
  {| waitOnFinish := waitOnFinish c;
     comparePrefix := comparePrefix c;
     snapshotPrefix := snapshotPrefix c;
     snapshotFrequency := snapshotFrequency c;
     compareFrequency := v;
     dumpStateCallNo := dumpStateCallNo c;
     verbosity := verbosity c;
     debug := debug c;
     dumpingState := dumpingState c;
     doubleBuffer := doubleBuffer c;
     coreProfile := coreProfile c;
     profiling := profiling c;
     profilingGpuTimes := profilingGpuTimes c;
     profilingCpuTimes := profilingCpuTimes c;
     profilingPixelsDrawn := profilingPixelsDrawn c |}.

Definition set_dumpStateCallNo (v : Z) (c : Config) : Config :=
  {| waitOnFinish := waitOnFinish c;
     comparePrefix := comparePrefix c;
     snapshotPrefix := snapshotPrefix c;
     snapshotFrequency := snapshotFrequency c;
     compareFrequency := compareFrequency c;
     dumpStateCallNo := v;
     verbosity := verbosity c;
     debug := debug c;
     dumpingState := dumpingState c;
     doubleBuffer := doubleBuffer c;
     coreProfile := coreProfile c;
     profiling := profiling c;
     profilingGpuTimes := profilingGpuTimes c;
     profilingCpuTimes := profilingCpuTimes c;
     profilingPixelsDrawn := profilingPixelsDrawn c |}.

Definition set_verbosity (v : Z) (c : Config) : Config :=
  {| waitOnFinish := waitOnFinish c;
     comparePrefix := comparePrefix c;
     snapshotPrefix := snapshotPrefix c;
     snapshotFrequency := snapshotFrequency c;
     compareFrequency := compareFrequency c;
     dumpStateCallNo := dumpStateCallNo c;
     verbosity := v;
     debug := debug c;
     dumpingState := dumpingState c;
     doubleBuffer := doubleBuffer c;
     coreProfile := coreProfile c;
     profiling := profiling c;
     profilingGpuTimes := profilingGpuTimes c;
     profilingCpuTimes := profilingCpuTimes c;
     profilingPixelsDrawn := profilingPixelsDrawn c |}.

Definition set_debug (v : bool) (c : Config) : Config :=
  {| waitOnFinish := waitOnFinish c;
     comparePrefix := comparePrefix c;
     snapshotPrefix := snapshotPrefix c;
     snapshotFrequency := snapshotFrequency c;
     compareFrequency := compareFrequency c;
     dumpStateCallNo := dumpStateCallNo c;
     verbosity := verbosity c;
     debug := v;
     dumpingState := dumpingState c;
     doubleBuffer := doubleBuffer c;
     coreProfile := coreProfile c;
     profiling := profiling c;
     profilingGpuTimes := profilingGpuTimes c;
     profilingCpuTimes := profilingCpuTimes c;
     profilingPixelsDrawn := profilingPixelsDrawn c |}.

Definition set_dumpingState (v : bool) (c : Config) : Config :=
  {| waitOnFinish := waitOnFinish c;
     comparePrefix := comparePrefix c;
     snapshotPrefix := snapshotPrefix c;
     snapshotFrequency := snapshotFrequency c;
     compareFrequency := compareFrequency c;
     dumpStateCallNo := dumpStateCallNo c;
     verbosity := verbosity c;
     debug := debug c;
     dumpingState := v;
     doubleBuffer := doubleBuffer c;
     coreProfile := coreProfile c;
     profiling := profiling c;
     profilingGpuTimes := profilingGpuTimes c;
     profilingCpuTimes := profilingCpuTimes c;
     profilingPixelsDrawn := profilingPixelsDrawn c |}.

Definition set_doubleBuffer (v : bool) (c : Config) : Config :=
  {| waitOnFinish := waitOnFinish c;
     comparePrefix := comparePrefix c;
     snapshotPrefix := snapshotPrefix c;
     snapshotFrequency := snapshotFrequency c;
     compareFrequency := compareFrequency c;
     dumpStateCallNo := dumpStateCallNo c;
     verbosity := verbosity c;
     debug := debug c;
     dumpingState := dumpingState c;
     doubleBuffer := v;
     coreProfile := coreProfile c;
     profiling := profiling c;
     profilingGpuTimes := profilingGpuTimes c;
     profilingCpuTimes := profilingCpuTimes c;
     profilingPixelsDrawn := profilingPixelsDrawn c |}.

Definition set_coreProfile (v : bool) (c : Config) : Config :=
  {| waitOnFinish := waitOnFinish c;
     comparePrefix := comparePrefix c;
     snapshotPrefix := snapshotPrefix c;
     snapshotFrequency := snapshotFrequency c;
     compareFrequency := compareFrequency c;
     dumpStateCallNo := dumpStateCallNo c;
     verbosity := verbosity c;
     debug := debug c;
     dumpingState := dumpingState c;
     doubleBuffer := doubleBuffer c;
     coreProfile := v;
     profiling := profiling c;
     profilingGpuTimes := profilingGpuTimes c;
     profilingCpuTimes := profilingCpuTimes c;
     profilingPixelsDrawn := profilingPixelsDrawn c |}.

Definition set_profiling (v : bool) (c : Config) : Config :=
  {| waitOnFinish := waitOnFinish c;
     comparePrefix := comparePrefix c;
     snapshotPrefix := snapshotPrefix c;
     snapshotFrequency := snapshotFrequency c;
     compareFrequency := compareFrequency c;
     dumpStateCallNo := dumpStateCallNo c;
     verbosity := verbosity c;
     debug := debug c;
     dumpingState := dumpingState c;
     doubleBuffer := doubleBuffer c;
     coreProfile := coreProfile c;
     profiling := v;
     profilingGpuTimes := profilingGpuTimes c;
     profilingCpuTimes := profilingCpuTimes c;
     profilingPixelsDrawn := profilingPixelsDrawn c |}.

Definition set_profilingGpuTimes (v : bool) (c : Config) : Config :=
  {| waitOnFinish := waitOnFinish c;
     comparePrefix := comparePrefix c;
     snapshotPrefix := snapshotPrefix c;
     snapshotFrequency := snapshotFrequency c;
     compareFrequency := compareFrequency c;
     dumpStateCallNo := dumpStateCallNo c;
     verbosity := verbosity c;
     debug := debug c;
     dumpingState := dumpingState c;
     doubleBuffer := doubleBuffer c;
     coreProfile := coreProfile c;
     profiling := profiling c;
     profilingGpuTimes := v;
     profilingCpuTimes := profilingCpuTimes c;
     profilingPixelsDrawn := profilingPixelsDrawn c |}.

Definition set_profilingCpuTimes (v : bool) (c : Config) : Config :=
  {| waitOnFinish := waitOnFinish c;
     comparePrefix := comparePrefix c;
     snapshotPrefix := snapshotPrefix c;
     snapshotFrequency := snapshotFrequency c;
     compareFrequency := compareFrequency c;
     dumpStateCallNo := dumpStateCallNo c;
     verbosity := verbosity c;
     debug := debug c;
     dumpingState := dumpingState c;
     doubleBuffer := doubleBuffer c;
     coreProfile := coreProfile c;
     profiling := profiling c;
     profilingGpuTimes := profilingGpuTimes c;
     profilingCpuTimes := v;
     profilingPixelsDrawn := profilingPixelsDrawn c |}.

Definition set_profilingPixelsDrawn (v : bool) (c : Config) : Config :=
  {| waitOnFinish := waitOnFinish c;
     comparePrefix := comparePrefix c;
     snapshotPrefix := snapshotPrefix c;
     snapshotFrequency := snapshotFrequency c;
     compareFrequency := compareFrequency c;
     dumpStateCallNo := dumpStateCallNo c;
     verbosity := verbosity c;
     debug := debug c;
     dumpingState := dumpingState c;
     doubleBuffer := doubleBuffer c;
     coreProfile := coreProfile c;
     profiling := profiling c;
     profilingGpuTimes := profilingGpuTimes c;
     profilingCpuTimes := profilingCpuTimes c;
     profilingPixelsDrawn := v |}.

(** What a replay changes: the two counters, the world outside, and the
    record of what was done. *)
Record Globals := {
  frameNo : Z;
  callNo : Z;
  world : World X;
  out : list Event
}.

Definition set_frameNo (n : Z) (g : Globals) : Globals :=
  {| frameNo := n; callNo := callNo g; world := world g; out := out g |}.

Definition set_callNo (n : Z) (g : Globals) : Globals :=
  {| frameNo := frameNo g; callNo := n; world := world g; out := out g |}.

Definition set_world (w : World X) (g : Globals) : Globals :=
  {| frameNo := frameNo g; callNo := callNo g; world := w; out := out g |}.

Definition emit (e : Event) (g : Globals) : Globals :=
  {| frameNo := frameNo g; callNo := callNo g; world := world g;
     out := out g ++ [e] |}.

(** [g'] came from [g] without a call retraced and with the counters left
    alone. *)
Definition keeps (g g' : Globals) : Prop :=
  frameNo g' = frameNo g ∧ callNo g' = callNo g
  ∧ ∃ evs, out g' = out g ++ evs ∧ retraced evs = [].

(** [g'] came from [g] with the calls [d] retraced, in this order, and
    [frameComplete] called as often as their handlers did. *)
Definition advance (d : list Call) (g g' : Globals) : Prop :=
  ∃ evs ks,
    out g' = out g ++ evs ∧ retraced evs = d
    ∧ Forall2 (λ call k, ∃ w, k = handler_frames X call w) d ks
    ∧ frameNo g' = Nat.iter (sum_list ks) (λ n, wrap (n + 1)) (frameNo g).

(** Sequential code either runs on with new globals or stops the process. *)
Inductive Outcome :=
  | Running (g : Globals)
  | Stopped (why : Stop) (g : Globals).

Definition and_then (o : Outcome) (k : Globals → Outcome) : Outcome :=
  match o with
  | Running g => k g
  | Stopped why g => Stopped why g
  end.

Local Notation "o >>> k" := (and_then o k) (at level 50, left associativity).

Definition final (o : Outcome) : Globals :=
  match o with Running g | Stopped _ g => g end.

Section Pipeline.

Variable cfg : Config.

(** ** frameComplete (lines 74-77) *)

Definition frameComplete (call : Call) (g : Globals) : Globals :=
  set_frameNo (wrap (frameNo g + 1)) g.

(** ** takeSnapshot (lines 83-126) *)

(** Lines 100-125: from [getSnapshot()] on; [ref] is the reference image
    read before, if any. *)
Definition takeSnapshot_capture (call_no : Z) (ref : option (Image X))
    (g : Globals) : Globals :=
  match getSnapshot X (world g) with
  | None => g
  | Some src =>
      let g1 :=
        match snapshotPrefix cfg with
        | Some prefix =>
            if String.eqb prefix "-" then
              emit (EvWritePNM (format_u call_no)) g
            else
              let filename := png_name prefix call_no in
              let (ok, w) := writePNG X src filename (world g) in
              let g' := emit (EvWritePNG filename ok) (set_world w g) in
              if ok && (0 <=? verbosity cfg) then
                emit (EvStdout ("Wrote " +:+ filename +:+ newline)) g'
              else g'
        | None => g
        end in
      match ref with
      | Some r => emit (EvCompare call_no (compare X src r)) g1
      | None => g1
      end
  end.

Definition takeSnapshot (call_no : Z) (g : Globals) : Outcome :=
  let g := emit (EvTakeSnapshot call_no) g in
  match snapshotPrefix cfg, comparePrefix cfg with
  | None, None => Stopped AssertFail g
  | _, Some prefix =>
      let filename := png_name prefix call_no in
      match readPNG X filename (world g) with
      | None => Running g
      | Some ref =>
          let g' :=
            if 0 <=? verbosity cfg then
              emit (EvStdout ("Read " +:+ filename +:+ newline)) g
            else g in
          Running (takeSnapshot_capture call_no (Some ref) g')
      end
  | _, None => Running (takeSnapshot_capture call_no None g)
  end.

(** The condition of the [assert] of line 85. *)
Definition has_prefix : bool :=
  match snapshotPrefix cfg, comparePrefix cfg with
  | None, None => false
  | _, _ => true
  end.

(** ** retraceCall (lines 135-166) *)

Definition has_flag (call : Call) (flag : Z) : bool :=
  negb (Z.land (flags call) flag =? 0).

Definition swapRenderTarget (call : Call) : bool :=
  has_flag call (CALL_FLAG_SWAP_RENDERTARGET X).

Definition endFrame (call : Call) : bool :=
  has_flag call (CALL_FLAG_END_FRAME X).

(** Modelled from the spec: the handlers behind [retracer.retrace] are not
    in this file, and they alone call [frameComplete].  The spec has
    [END_FRAME] mean that the call concludes a frame and [frameNo] count
    the calls with [END_FRAME] dispatched: the handler of such a call
    calls [frameComplete] once, and no other handler calls it. *)
Definition dispatcher_counts_frames : Prop :=
  ∀ call w, handler_frames X call w = if endFrame call then 1%nat else 0%nat.

Definition doSnapshot (call : Call) : bool :=
  CallSet_contains X (snapshotFrequency cfg) call
  || CallSet_contains X (compareFrequency cfg) call.

(** The number [retraceCall] passes to [takeSnapshot] for [call]
    (lines 148, 152 and 160). *)
Definition snapshot_index (call : Call) : Z :=
  if swapRenderTarget call then
    if endFrame call then no call else wrap (no call - 1)
  else no call.

(** Lines 144-154. *)
Definition snapshot_before (call : Call) (g : Globals) : Outcome :=
  if doSnapshot call && swapRenderTarget call then
    if endFrame call then takeSnapshot (no call) g
    else takeSnapshot (wrap (no call - 1)) g
  else Running g.

(** Line 156. *)
Definition assign_callNo (call : Call) (g : Globals) : Globals :=
  set_callNo (no call) g.

(** Line 157: the handler runs, calling [frameComplete] as often as it
    does. *)
Definition retrace (call : Call) (g : Globals) : Globals :=
  let frames := handler_frames X call (world g) in
  let g1 := set_world (retrace_handler X call (world g)) g in
  emit (EvRetrace call) (Nat.iter frames (frameComplete call) g1).

(** Lines 159-160. *)
Definition snapshot_after (call : Call) (g : Globals) : Outcome :=
  if doSnapshot call && negb (swapRenderTarget call) then
    takeSnapshot (no call) g
  else Running g.

(** Lines 162-165. [dumpState] is only called when the comparison holds. *)
Definition dump_gate (call : Call) (g : Globals) : Outcome :=
  if dumpStateCallNo cfg <=? no call then
    let ok := dumpState X (world g) in
    let g' := emit (EvDumpState ok) g in
    if ok then Stopped (Exit 0) g' else Running g'
  else Running g.

Definition retraceCall (call : Call) (g : Globals) : Outcome :=
  snapshot_before call g
  >>> (λ g, Running (retrace call (assign_callNo call g)))
  >>> snapshot_after call
  >>> dump_gate call.

(** The pipeline cut at its statements: [stage k] is statement [k] of
    [retraceCall], [stages n] the first [n] of them. *)
Definition stage (k : nat) (call : Call) (g : Globals) : Outcome :=
  match k with
  | 0%nat => snapshot_before call g
  | 1%nat => Running (assign_callNo call g)
  | 2%nat => Running (retrace call g)
  | 3%nat => snapshot_after call g
  | _ => dump_gate call g
  end.

Fixpoint stages (n : nat) (call : Call) (g : Globals) : Outcome :=
  match n with
  | O => Running g
  | S m => stages m call g >>> stage m call
  end.

(** ** The replay as one sequence *)

(** [flushRendering()] before a hand-over (lines 299-300). *)
Definition flush (g : Globals) : Globals :=
  emit EvFlushRendering (set_world (flushRendering X (world g)) g).

(** What happens between the end of [retraceCall(prev)] and the start of
    [retraceCall(call)]: nothing when both are of one thread (the [do]
    loop of [runLeg] goes round), a flush when the baton is passed. *)
Definition relay (prev : option Call) (call : Call) (g : Globals) : Globals :=
  match prev with
  | Some p => if decide (thread_id call = thread_id p) then g else flush g
  | None => g
  end.

(** The calls of a trace retraced one after the other in stream order. *)
Fixpoint replay_from (prev : option Call) (calls : list Call) (g : Globals)
    : Outcome :=
  match calls with
  | [] => Running g
  | call :: rest =>
      retraceCall call (relay prev call g) >>> replay_from (Some call) rest
  end.

Definition replay (calls : list Call) (g : Globals) : Outcome :=
  replay_from None calls g.

(** ** RelayRunner and RelayRace (lines 175-451) *)

(** Where [passBaton] was called from: [RelayRace::run] or [runLeg]. *)
Inductive Caller := FromRun | FromLeg.

(** Where [finishRace] was called from: [finishLine], or [stopRunners] with
    its iterator at index [it]. *)
Inductive FinCaller := FromFinishLine | FromStopRunners (it : nat).

(** The statement a thread is at, with the locals that are live there. *)
Inductive PC :=
  (* RelayRace::run, on the thread of leg 0 *)
  | Run_parse                              (* line 396, inside parse_call *)
  | Run_route (call : option Call)         (* lines 397-408 *)
  (* RelayRunner::runRace *)
  | Race_lock                              (* line 258 *)
  | Race_check                             (* lines 261-271 *)
  | Race_wait                              (* line 262, inside wait *)
  | Race_exit                              (* line 278 *)
  | Stop_loop (it : nat)                   (* lines 445-450 *)
  | Race_unlock                            (* line 281, the lock's destructor *)
  (* RelayRunner::runLeg, with retraceCall inlined *)
  | Leg_before (call : Call)               (* lines 290-292 and 135-154, inside takeSnapshot *)
  | Leg_callNo (call : Call)               (* line 156 *)
  | Leg_retrace (call : Call)              (* line 157, inside retrace *)
  | Leg_after (call : Call)                (* lines 159-160, inside takeSnapshot *)
  | Leg_gate (call : Call)                 (* lines 162-165 *)
  | Leg_parse                              (* lines 293-294, inside parse_call *)
  | Leg_route (call : option Call)         (* lines 295-312 *)
  (* RelayRace::passBaton and RelayRunner::receiveBaton *)
  | Pass_getRunner (k : Caller) (call : Call)    (* line 421 *)
  | Recv_lock (k : Caller) (call : Call)         (* line 322 *)
  | Recv_store (k : Caller) (call : Call)        (* line 323 *)
  | Recv_unlock (k : Caller) (leg : nat)         (* line 324 *)
  | Recv_signal (k : Caller) (leg : nat)         (* line 326 *)
  (* RelayRunner::finishRace *)
  | Fin_lock (k : FinCaller) (leg : nat)         (* line 336 *)
  | Fin_store (k : FinCaller) (leg : nat)        (* line 337 *)
  | Fin_unlock (k : FinCaller) (leg : nat)       (* line 338 *)
  | Fin_signal (k : FinCaller) (leg : nat)       (* line 340 *)
  (* the thread has returned, or the process is gone *)
  | Returned
  | Halted.

(** A [RelayRunner] and its thread.  The runner's [leg] is its index in the
    vector; [mutex] names the thread that holds it. *)
Record Runner := {
  finished : bool;
  baton : option Call;
  mutex : option nat;
  pc : PC
}.

Definition set_finished (b : bool) (r : Runner) : Runner :=
  {| finished := b; baton := baton r; mutex := mutex r; pc := pc r |}.

Definition set_baton (c : option Call) (r : Runner) : Runner :=
  {| finished := finished r; baton := c; mutex := mutex r; pc := pc r |}.

Definition set_mutex (m : option nat) (r : Runner) : Runner :=
  {| finished := finished r; baton := baton r; mutex := m; pc := pc r |}.

Definition set_pc (p : PC) (r : Runner) : Runner :=
  {| finished := finished r; baton := baton r; mutex := mutex r; pc := p |}.

(** The constructor (lines 241-251).  A leg other than 0 starts its thread
    in [runRace]; leg 0 gets none: the caller's thread runs it. *)
Definition new_runner (leg : nat) : Runner :=
  {| finished := false; baton := None; mutex := None;
     pc := match leg with O => Returned | S _ => Race_lock end |}.

(** The process while one trace is replayed. *)
Record State := {
  runners : list (option Runner);
  parser : list Call;
  glob : Globals;
  exited : option Stop
}.

Definition with_runners (rs : list (option Runner)) (s : State) : State :=
  {| runners := rs; parser := parser s; glob := glob s; exited := exited s |}.

Definition with_parser (p : list Call) (s : State) : State :=
  {| runners := runners s; parser := p; glob := glob s; exited := exited s |}.

Definition with_glob (g : Globals) (s : State) : State :=
  {| runners := runners s; parser := parser s; glob := g; exited := exited s |}.

Definition with_exited (e : option Stop) (s : State) : State :=
  {| runners := runners s; parser := parser s; glob := glob s; exited := e |}.

(** [runners[leg]], when in range and not null. *)
Definition runner_at (rs : list (option Runner)) (leg : nat) : option Runner :=
  match rs !! leg with
  | Some (Some r) => Some r
  | _ => None
  end.

(** A write through the pointer [runners[leg]]. *)
Definition update_runner (leg : nat) (f : Runner → Runner)
    (rs : list (option Runner)) : list (option Runner) :=
  match runner_at rs leg with
  | Some r => <[leg := Some (f r)]> rs
  | None => rs
  end.

(** The call in the baton of [runners[leg]], if there is one. *)
Definition baton_at (rs : list (option Runner)) (leg : nat) : option Call :=
  r ← runner_at rs leg; baton r.

(** The statement the thread of [leg] is at. *)
Definition pc_at (rs : list (option Runner)) (leg : nat) : option PC :=
  pc <$> runner_at rs leg.

(** RelayRace::getRunner (lines 372-387): the vector after the call; the
    runner returned is the one at [leg].  [leg] is an [unsigned] and so is
    [leg + 1] (line 377): at the largest [unsigned] it is 0, [resize]
    empties the vector, and [runners[leg]] (line 384) lies outside it.
    That write is undefined: there is no vector after the call. *)
Definition getRunner (leg : nat) (rs : list (option Runner))
    : option (list (option Runner)) :=
  let rs' :=
    if decide (length rs ≤ leg)%nat
    then resize (Z.to_nat (wrap (Z.of_nat leg + 1))) None rs
    else rs in
  match runner_at rs' leg with
  | Some _ => Some rs'
  | None =>
      if decide (leg < length rs')%nat
      then Some (<[leg := Some (new_runner leg)]> rs')
      else None
  end.

Definition getForeRunner : list (option Runner) → option (list (option Runner)) :=
  getRunner 0.

(** Thread [t] goes to statement [p]. *)
Definition jump (t : nat) (p : PC) (s : State) : State :=
  with_runners (update_runner t (set_pc p) (runners s)) s.

(** Thread [t] has run a piece of the pipeline: go on at [next], or the
    process ends. *)
Definition resume (t : nat) (o : Outcome) (next : PC) (s : State) : State :=
  match o with
  | Running g => jump t next (with_glob g s)
  | Stopped why g => with_exited (Some why) (jump t Halted (with_glob g s))
  end.

Definition after_passBaton (k : Caller) : PC :=
  match k with
  | FromRun => Race_lock          (* line 411: foreRunner->runRace() *)
  | FromLeg => Race_check         (* runLeg returns into the loop of runRace *)
  end.

Definition after_finishRace (k : FinCaller) : PC :=
  match k with
  | FromFinishLine => Race_check
  | FromStopRunners it => Stop_loop (S it)
  end.

(** One statement of thread [t].  [None]: the thread does not exist, has
    returned, is blocked on a mutex, the process has ended, or the
    statement is undefined ([getRunner] out of range).  A thread
    inside [wait] may wake whenever it can take the mutex again, so
    [signal] changes nothing a thread can observe.  [receiveBaton] and
    [finishRace] run on the pointer [getRunner] returned; the vector never
    loses a runner, so the pointer is the runner at that index. *)
Definition step (t : nat) (s : State) : option State :=
  match exited s with
  | Some _ => None
  | None =>
  r ← runner_at (runners s) t;
  match pc r with
  | Run_parse =>
      match parser s with
      | [] => Some (jump t (Run_route None) s)
      | call :: rest => Some (jump t (Run_route (Some call)) (with_parser rest s))
      end
  | Run_route None => Some (jump t Returned s)
  | Run_route (Some call) =>
      rs1 ← getForeRunner (runners s);
      let s1 := with_runners rs1 s in
      if decide (thread_id call = 0%nat) then
        Some (jump t Race_lock
                (with_runners (update_runner 0 (set_baton (Some call)) (runners s1)) s1))
      else Some (jump t (Pass_getRunner FromRun call) s1)
  | Race_lock =>
      match mutex r with
      | None => Some (with_runners (update_runner t (set_pc Race_check ∘ set_mutex (Some t)) (runners s)) s)
      | Some _ => None
      end
  | Race_check =>
      if negb (finished r) && bool_decide (baton r = None) then
        Some (with_runners (update_runner t (set_pc Race_wait ∘ set_mutex None) (runners s)) s)
      else if finished r then Some (jump t Race_exit s)
      else
        match baton r with
        | Some call =>
            Some (with_runners (update_runner t (set_pc (Leg_before call) ∘ set_baton None) (runners s)) s)
        | None => Some (with_exited (Some AssertFail) (jump t Halted s))
        end
  | Race_wait =>
      match mutex r with
      | None => Some (with_runners (update_runner t (set_pc Race_check ∘ set_mutex (Some t)) (runners s)) s)
      | Some _ => None
      end
  | Race_exit =>
      Some (jump t (match t with O => Stop_loop 1 | S _ => Race_unlock end) s)
  | Stop_loop it =>
      if decide (length (runners s) ≤ it)%nat then Some (jump t Race_unlock s)
      else
        match runner_at (runners s) it with
        | Some _ => Some (jump t (Fin_lock (FromStopRunners it) it) s)
        | None => Some (jump t (Stop_loop (S it)) s)
        end
  | Race_unlock =>
      Some (with_runners (update_runner t (set_pc Returned ∘ set_mutex None) (runners s)) s)
  | Leg_before call =>
      if decide (thread_id call = t) then
        Some (resume t (snapshot_before call (glob s)) (Leg_callNo call) s)
      else Some (with_exited (Some AssertFail) (jump t Halted s))
  | Leg_callNo call =>
      Some (jump t (Leg_retrace call) (with_glob (assign_callNo call (glob s)) s))
  | Leg_retrace call =>
      Some (jump t (Leg_after call) (with_glob (retrace call (glob s)) s))
  | Leg_after call =>
      Some (resume t (snapshot_after call (glob s)) (Leg_gate call) s)
  | Leg_gate call =>
      Some (resume t (dump_gate call (glob s)) Leg_parse s)
  | Leg_parse =>
      match parser s with
      | [] => Some (jump t (Leg_route None) s)
      | call :: rest => Some (jump t (Leg_route (Some call)) (with_parser rest s))
      end
  | Leg_route (Some call) =>
      if decide (thread_id call = t) then Some (jump t (Leg_before call) s)
      else Some (jump t (Pass_getRunner FromLeg call) (with_glob (flush (glob s)) s))
  | Leg_route None =>
      match t with
      | S _ =>
          rs1 ← getForeRunner (runners s);
          Some (jump t (Fin_lock FromFinishLine 0) (with_runners rs1 s))
      | O =>
          Some (with_runners (update_runner t (set_pc Race_check ∘ set_finished true) (runners s)) s)
      end
  | Pass_getRunner k call =>
      rs1 ← getRunner (thread_id call) (runners s);
      Some (jump t (Recv_lock k call) (with_runners rs1 s))
  | Recv_lock k call =>
      target ← runner_at (runners s) (thread_id call);
      match mutex target with
      | None =>
          Some (jump t (Recv_store k call)
                  (with_runners (update_runner (thread_id call) (set_mutex (Some t)) (runners s)) s))
      | Some _ => None
      end
  | Recv_store k call =>
      _ ← runner_at (runners s) (thread_id call);
      Some (jump t (Recv_unlock k (thread_id call))
              (with_runners (update_runner (thread_id call) (set_baton (Some call)) (runners s)) s))
  | Recv_unlock k leg =>
      Some (jump t (Recv_signal k leg)
              (with_runners (update_runner leg (set_mutex None) (runners s)) s))
  | Recv_signal k leg => Some (jump t (after_passBaton k) s)
  | Fin_lock k leg =>
      target ← runner_at (runners s) leg;
      match mutex target with
      | None =>
          Some (jump t (Fin_store k leg)
                  (with_runners (update_runner leg (set_mutex (Some t)) (runners s)) s))
      | Some _ => None
      end
  | Fin_store k leg =>
      Some (jump t (Fin_unlock k leg)
              (with_runners (update_runner leg (set_finished true) (runners s)) s))
  | Fin_unlock k leg =>
      Some (jump t (Fin_signal k leg)
              (with_runners (update_runner leg (set_mutex None) (runners s)) s))
  | Fin_signal k leg => Some (jump t (after_finishRace k) s)
  | Returned | Halted => None
  end
  end.

(** The constructor of [RelayRace] (lines 352-354) has made the runner of
    leg 0; the thread that made it is about to call [run]. *)
Definition race_start (trace : list Call) (g : Globals) : State :=
  {| runners := [Some (set_pc Run_parse (new_runner 0))];
     parser := trace; glob := g; exited := None |}.

(** A schedule names the thread that moves next. *)
Fixpoint run_schedule (schedule : list nat) (s : State) : option State :=
  match schedule with
  | [] => Some s
  | t :: rest => s' ← step t s; run_schedule rest s'
  end.

(** The state a schedule leads to from the start of the race (the start
    itself when the schedule names a thread that cannot move). *)
Definition after_schedule (trace : list Call) (g : Globals)
    (schedule : list nat) : State :=
  default (race_start trace g) (run_schedule schedule (race_start trace g)).

Inductive reachable (trace : list Call) (g : Globals) : State → Prop :=
  | reachable_start : reachable trace g (race_start trace g)
  | reachable_step s t s' :
      reachable trace g s → step t s = Some s' → reachable trace g s'.

(** ** The baton as a token *)

(** The statements at which a thread has the control of the replay: from
    taking a call (out of the parser or out of its baton) to storing it in
    another runner's baton, to the end of the stream, or to the end of the
    process. *)
Definition holds_pc (p : PC) : bool :=
  match p with
  | Run_parse | Run_route _
  | Leg_before _ | Leg_callNo _ | Leg_retrace _ | Leg_after _ | Leg_gate _
  | Leg_parse | Leg_route _
  | Pass_getRunner _ _ | Recv_lock _ _ | Recv_store _ _ => true
  | _ => false
  end.

(** The statements inside [dispatch], [parse_call] and [takeSnapshot]. *)
Definition inside_pc (p : PC) : bool :=
  match p with
  | Run_parse | Leg_parse | Leg_before _ | Leg_retrace _ | Leg_after _ => true
  | _ => false
  end.

Definition tokens_of (r : Runner) : nat :=
  (match baton r with Some _ => 1 | None => 0 end
   + if holds_pc (pc r) then 1 else 0)%nat.

Definition tokens (rs : list (option Runner)) : nat :=
  sum_list_with (λ o, match o with Some r => tokens_of r | None => 0%nat end) rs.

(** The statements after the end of the stream. *)
Definition endgame (p : PC) : bool :=
  match p with
  | Race_exit | Stop_loop _ | Race_unlock
  | Fin_lock _ _ | Fin_store _ _ | Fin_unlock _ _ | Fin_signal _ _
  | Returned | Halted => true
  | _ => false
  end.

Definition ended (r : Runner) : Prop :=
  finished r = true ∨ endgame (pc r) = true.

(** ** The machine against the sequence *)

(** Where the replay of [trace] from the globals [g0] stands, read off the
    statement a thread is at: how much of [replay trace g0] is done. *)
Section Refinement.

Variables (trace : list Call) (g0 : Globals).

(** The calls [d] are retraced, the parser holds the rest. *)
Definition idle (d p : list Call) (g : Globals) : Prop :=
  trace = d ++ p ∧ replay d g0 = Running g.

(** As [idle], and [call] has been parsed since. *)
Definition parsed (d : list Call) (call : Call) (p : list Call) (g : Globals) : Prop :=
  trace = d ++ call :: p ∧ replay d g0 = Running g.

(** [call] is in hand, relayed, and past the first [n] statements of
    [retraceCall]. *)
Definition in_call (n : nat) (call : Call) (p : list Call) (g : Globals) : Prop :=
  ∃ d g1, trace = d ++ call :: p ∧ replay d g0 = Running g1
          ∧ stages n call (relay (last d) call g1) = Running g.

Definition at_pc (i : nat) (l : PC) (p : list Call) (g : Globals) : Prop :=
  match l with
  | Run_parse => i = 0%nat ∧ idle [] p g
  | Run_route (Some call) => i = 0%nat ∧ parsed [] call p g
  | Run_route None => i = 0%nat ∧ idle [] p g ∧ p = []
  | Leg_before call => thread_id call = i ∧ in_call 0 call p g
  | Leg_callNo call => thread_id call = i ∧ in_call 1 call p g
  | Leg_retrace call => thread_id call = i ∧ in_call 2 call p g
  | Leg_after call => thread_id call = i ∧ in_call 3 call p g
  | Leg_gate call => thread_id call = i ∧ in_call 4 call p g
  | Leg_parse => ∃ d, thread_id <$> last d = Some i ∧ idle d p g
  | Leg_route (Some call) =>
      ∃ d, thread_id <$> last d = Some i ∧ parsed d call p g
  | Leg_route None => ∃ d, thread_id <$> last d = Some i ∧ idle d p g ∧ p = []
  | Pass_getRunner _ call | Recv_lock _ call | Recv_store _ call =>
      thread_id call ≠ i ∧ in_call 0 call p g
  | _ => True
  end.

Definition position (i : nat) (r : Runner) (p : list Call) (g : Globals) : Prop :=
  (∀ call, baton r = Some call → thread_id call = i ∧ in_call 0 call p g)
  ∧ at_pc i (pc r) p g.

(** No thread has the control any more: the stream is at its end, or the
    process was stopped inside [retraceCall]. *)
Definition over (p : list Call) (g : Globals) (e : option Stop) : Prop :=
  match e with
  | None => p = [] ∧ replay trace g0 = Running g
  | Some why =>
      ∃ d call g1, trace = d ++ call :: p ∧ replay d g0 = Running g1
                   ∧ retraceCall call (relay (last d) call g1) = Stopped why g
  end.

(** The same, told without the runners: where the globals stand. *)
Inductive phase (g : Globals) (e : option Stop) : Prop :=
  | phase_between d rest :
      trace = d ++ rest → replay d g0 = Running g → e = None → phase g e
  | phase_in_call n d call rest g1 :
      (n ≤ 4)%nat → trace = d ++ call :: rest → replay d g0 = Running g1 →
      stages n call (relay (last d) call g1) = Running g → e = None →
      phase g e
  | phase_stopped d call rest g1 why :
      trace = d ++ call :: rest → replay d g0 = Running g1 →
      retraceCall call (relay (last d) call g1) = Stopped why g →
      e = Some why → phase g e.

Record Inv (s : State) : Prop := {
  inv_fore : is_Some (runner_at (runners s) 0);
  inv_tokens : (tokens (runners s) ≤ 1)%nat;
  inv_position : ∀ i r,
    runner_at (runners s) i = Some r → position i r (parser s) (glob s);
  inv_over : tokens (runners s) = 0%nat → over (parser s) (glob s) (exited s);
  inv_live : tokens (runners s) = 0%nat ∨ exited s = None;
  inv_ended : ∀ i r,
    runner_at (runners s) i = Some r → ended r → tokens (runners s) = 0%nat
}.

End Refinement.

(** ** What the claims say of a state of the race *)

(** At most one runner is inside [dispatch], [parse_call] or
    [takeSnapshot]. *)
Definition one_inside (s : State) : Prop :=
  ∀ i j ri rj,
    runner_at (runners s) i = Some ri → runner_at (runners s) j = Some rj →
    inside_pc (pc ri) = true → inside_pc (pc rj) = true → i = j.

(** At most one runner has a call in its baton. *)
Definition one_baton (s : State) : Prop :=
  ∀ i j,
    is_Some (baton_at (runners s) i) → is_Some (baton_at (runners s) j) → i = j.

(** Whenever a statement of a thread [t] changes the baton of a leg [j]:
    either the baton was empty and the scheduler fills it with a call of
    that leg, through [receiveBaton] run by another thread (line 323) or
    in [RelayRace::run] for the first call (line 405); or it held a call
    and the runner of the leg itself takes it, in [runRace]
    (lines 270-271), and goes on to retrace it. *)
Definition baton_discipline (s : State) : Prop :=
  ∀ t s' j,
    step t s = Some s' →
    baton_at (runners s') j ≠ baton_at (runners s) j →
    ∃ call,
      (baton_at (runners s) j = None ∧ baton_at (runners s') j = Some call
       ∧ thread_id call = j
       ∧ ((∃ k, pc_at (runners s) t = Some (Recv_store k call) ∧ t ≠ j)
          ∨ (pc_at (runners s) t = Some (Run_route (Some call))
             ∧ t = 0%nat ∧ j = 0%nat)))
      ∨ (baton_at (runners s) j = Some call ∧ baton_at (runners s') j = None
         ∧ t = j ∧ pc_at (runners s) t = Some Race_check
         ∧ pc_at (runners s') t = Some (Leg_before call)).

(** The calls retraced so far are the first calls of the stream, in the
    order of the stream, and a call being dispatched is the next call of
    the stream, on the thread of its leg: the dispatch of a call begins
    only when every call before it in the stream has been retraced. *)
Definition in_stream_order (trace : list Call) (g0 : Globals) (s : State) : Prop :=
  ∃ d rest,
    trace = d ++ rest
    ∧ retraced (out (glob s)) = retraced (out g0) ++ d
    ∧ ∀ i r call,
        runner_at (runners s) i = Some r → pc r = Leg_retrace call →
        thread_id call = i ∧ ∃ rest', rest = call :: rest'.

(** A runner that has parsed a call of another thread passes it on with
    its next statement, retracing nothing. *)
Definition eager_handoff (s : State) : Prop :=
  ∀ t r call,
    runner_at (runners s) t = Some r → pc r = Leg_route (Some call) →
    thread_id call ≠ t →
    ∃ s', step t s = Some s'
          ∧ pc_at (runners s') t = Some (Pass_getRunner FromLeg call)
          ∧ retraced (out (glob s')) = retraced (out (glob s)).

(** The record only grows, so its order is the order in time. *)
Definition record_grows (s : State) : Prop :=
  ∀ t s', step t s = Some s' → ∃ evs, out (glob s') = out (glob s) ++ evs.

(** ** mainLoop (lines 454-481) *)

(** Line 459, before the race. *)
Definition mainLoop_begin (g : Globals) : Globals := set_frameNo 0 g.

(** Lines 469-480, after the race; the times are left out of the line
    printed. *)
Definition mainLoop_end (g : Globals) : Globals :=
  let g1 :=
    if (-1 <=? verbosity cfg) || profiling cfg then emit (EvRendered (frameNo g)) g
    else g in
  if waitOnFinish cfg then emit EvWaitForInput g1 else g1.

(** [race.run()] has returned to [mainLoop]. *)
Definition run_returned (s : State) : Prop :=
  exited s = None ∧ ∃ r, runner_at (runners s) 0 = Some r ∧ pc r = Returned.

(** [mainLoop()] on the calls of one trace file takes [g] to [g']. *)
Definition mainLoop (trace : list Call) (g g' : Globals) : Prop :=
  ∃ s, reachable trace (mainLoop_begin g) s ∧ run_returned s
       ∧ g' = mainLoop_end (glob s).

(** ** What a run leaves in the record *)

(** The entries that the statements of [retraceCall] and [takeSnapshot]
    make for [call] under the options: the call itself; with a snapshot
    due, the snapshot at its index, the line [Read] with a comparison
    prefix, the PNG file and the line [Wrote] with a snapshot prefix
    other than [-], the PNM image with the prefix [-], the comparison
    with a comparison prefix; the state dump from the call of [-D] on. *)
Inductive call_event (call : Call) : Event → Prop :=
  | ce_retrace : call_event call (EvRetrace call)
  | ce_snapshot :
      doSnapshot call = true →
      call_event call (EvTakeSnapshot (snapshot_index call))
  | ce_read prefix :
      doSnapshot call = true → comparePrefix cfg = Some prefix →
      0 <= verbosity cfg →
      call_event call
        (EvStdout ("Read " +:+ png_name prefix (snapshot_index call) +:+ newline))
  | ce_png prefix ok :
      doSnapshot call = true → snapshotPrefix cfg = Some prefix →
      prefix ≠ "-" →
      call_event call (EvWritePNG (png_name prefix (snapshot_index call)) ok)
  | ce_wrote prefix :
      doSnapshot call = true → snapshotPrefix cfg = Some prefix →
      prefix ≠ "-" → 0 <= verbosity cfg →
      call_event call
        (EvStdout ("Wrote " +:+ png_name prefix (snapshot_index call) +:+ newline))
  | ce_pnm :
      doSnapshot call = true → snapshotPrefix cfg = Some "-" →
      call_event call (EvWritePNM (format_u (snapshot_index call)))
  | ce_compare prefix bits :
      doSnapshot call = true → comparePrefix cfg = Some prefix →
      call_event call (EvCompare (snapshot_index call) bits)
  | ce_dump ok :
      dumpStateCallNo cfg <= no call → call_event call (EvDumpState ok).

(** The entries of a race over [trace]: those of its calls, and
    [flushRendering] where two calls that follow each other are of
    different threads. *)
Inductive replay_event (trace : list Call) : Event → Prop :=
  | re_call call e : call ∈ trace → call_event call e → replay_event trace e
  | re_flush l1 a b l2 :
      trace = l1 ++ a :: b :: l2 → thread_id a ≠ thread_id b →
      replay_event trace EvFlushRendering.

(** What a piece of code adds to the record. *)
Definition adds (P : Event → Prop) (g g' : Globals) : Prop :=
  ∃ evs, out g' = out g ++ evs ∧ Forall P evs.

(** The entries that are bytes on [std::cout]. *)
Definition on_stdout (e : Event) : bool :=
  match e with
  | EvStdout _ | EvWritePNM _ | EvCompare _ _ | EvDumpState _ | EvRendered _ => true
  | _ => false
  end.

(** The entries that are steps of the replay: a snapshot taken, a call
    retraced, the rendering flushed. *)
Definition is_step (e : Event) : bool :=
  match e with
  | EvTakeSnapshot _ | EvRetrace _ | EvFlushRendering => true
  | _ => false
  end.

Definition steps (evs : list Event) : list Event := filter is_step evs.

(** The steps of one call (lines 135-159): the snapshot before the call
    when it swaps the render target, after it otherwise. *)
Definition call_steps (call : Call) : list Event :=
  if doSnapshot call then
    if swapRenderTarget call then
      [EvTakeSnapshot (snapshot_index call); EvRetrace call]
    else [EvRetrace call; EvTakeSnapshot (snapshot_index call)]
  else [EvRetrace call].

(** The steps of a trace: those of its calls in the order of the stream,
    with a flush where the thread changes (lines 305-308, 405-408). *)
Fixpoint trace_steps (prev : option Call) (trace : list Call) : list Event :=
  match trace with
  | [] => []
  | call :: rest =>
      match prev with
      | Some p =>
          if decide (thread_id call = thread_id p) then [] else [EvFlushRendering]
      | None => []
      end ++ call_steps call ++ trace_steps (Some call) rest
  end.

(** A snapshot is asked for only with a place to put it or a reference to
    compare it with. *)
Definition guarded : Prop :=
  ∀ call, doSnapshot call = true → has_prefix = true.

(** What [trace_callset.hpp] is taken to promise: an empty call set
    contains no call. *)
Definition empty_contains_nothing : Prop :=
  ∀ (s : CallSet X) call, CallSet_empty X s = true → CallSet_contains X s call = false.

(** Each frequency is empty or has its prefix. *)
Definition prefixed (c : Config) : Prop :=
  (CallSet_empty X (snapshotFrequency c) = true ∨ is_Some (snapshotPrefix c))
  ∧ (CallSet_empty X (compareFrequency c) = true ∨ is_Some (comparePrefix c)).

(** ** The runner vector during a race *)

(** The leg that the next statement of a thread at [l] asks [getRunner]
    for, when it is not the fore runner. *)
Definition asks_for (l : PC) : option nat :=
  match l with
  | Pass_getRunner _ call => Some (thread_id call)
  | _ => None
  end.

(** Two vectors with the same length and the same runners present. *)
Definition same_shape (rs rs' : list (option Runner)) : Prop :=
  length rs' = length rs
  ∧ ∀ i, is_Some (runner_at rs' i) ↔ is_Some (runner_at rs i).

(** Thread 0 is in the loop of [stopRunners] (lines 442-451). *)
Definition in_stopRunners (l : PC) : bool :=
  match l with
  | Stop_loop _
  | Fin_lock (FromStopRunners _) _ | Fin_store (FromStopRunners _) _
  | Fin_unlock (FromStopRunners _) _ | Fin_signal (FromStopRunners _) _ => true
  | _ => false
  end.

(** Runners are made for the fore runner and for the threads of the
    trace, and the vector ends with a runner. *)
Record Peopled (trace : list Call) (s : State) : Prop := {
  peopled_legs : ∀ i, is_Some (runner_at (runners s) i) →
    i = 0%nat ∨ ∃ call, call ∈ trace ∧ thread_id call = i;
  peopled_last : is_Some (runner_at (runners s) (pred (length (runners s))))
}.

(** ** Shapes of the runner vector along a schedule *)

(** A runner whose thread waits for a baton, inside [wait] or not yet in
    [runRace], its mutex free. *)
Definition parked (r : Runner) : Prop :=
  mutex r = None ∧ baton r = None ∧ finished r = false
  ∧ (pc r = Race_wait ∨ pc r = Race_lock).

Definition unlocked (r : Runner) : Prop := mutex r = None.

(** The runner of [t] is [rt], the fore runner is there, and every other
    runner satisfies [P]. *)
Definition solo (P : Runner → Prop) (rs : list (option Runner)) (t : nat)
    (rt : Runner) : Prop :=
  runner_at rs t = Some rt ∧ is_Some (runner_at rs 0)
  ∧ ∀ i r, i ≠ t → runner_at rs i = Some r → P r.

(** The same with two runners set apart. *)
Definition duo (P : Runner → Prop) (rs : list (option Runner)) (t : nat)
    (rt : Runner) (j : nat) (rj : Runner) : Prop :=
  t ≠ j ∧ runner_at rs t = Some rt ∧ runner_at rs j = Some rj
  ∧ is_Some (runner_at rs 0)
  ∧ ∀ i r, i ≠ t → i ≠ j → runner_at rs i = Some r → P r.

(** Every thread of the trace is one [getRunner] has a place for: its
    number is below the largest [unsigned]. *)
Definition legs_in_range (trace : list Call) : Prop :=
  ∀ call, call ∈ trace → Z.of_nat (thread_id call) < UINT_MAX.

(** Some schedule takes [s] to the return of [run] or to the end of the
    process. *)
Definition finishes (s : State) : Prop :=
  ∃ schedule s', run_schedule schedule s = Some s'
                 ∧ (run_returned s' ∨ is_Some (exited s')).

(** The loop over the trace files (lines 596-610): how the process ends
    and with which globals. *)
Inductive main_files : list string → Globals → Stop → Globals → Prop :=
  | files_none g :
      main_files [] g (Exit 0) g
  | files_open_failed file rest g :
      parser_open X file = None →
      main_files (file :: rest) g (Exit 1)
        (emit (EvStderr ("error: failed to open " +:+ file +:+ newline)) g)
  | files_replayed file rest trace g g1 why g' :
      parser_open X file = Some trace →
      mainLoop trace g g1 →
      main_files rest g1 why g' →
      main_files (file :: rest) g why g'
  | files_stopped file rest trace g s why :
      parser_open X file = Some trace →
      reachable trace (mainLoop_begin g) s →
      exited s = Some why →
      main_files (file :: rest) g why (glob s).

End Pipeline.

(** ** main (lines 487-611) *)

Definition usage (argv0 : string) : string :=
  "Usage: " +:+ argv0 +:+ " [OPTION] TRACE [...]" +:+ newline
  +:+ "Replay TRACE." +:+ newline
  +:+ newline
  +:+ "  -b           benchmark mode (no error checking or warning messages)" +:+ newline
  +:+ "  -pcpu        cpu profiling (cpu times per call)" +:+ newline
  +:+ "  -pgpu        gpu profiling (gpu times per draw call)" +:+ newline
  +:+ "  -ppd         pixels drawn profiling (pixels drawn per draw call)" +:+ newline
  +:+ "  -c PREFIX    compare against snapshots" +:+ newline
  +:+ "  -C CALLSET   calls to compare (default is every frame)" +:+ newline
  +:+ "  -core        use core profile" +:+ newline
  +:+ "  -db          use a double buffer visual (default)" +:+ newline
  +:+ "  -sb          use a single buffer visual" +:+ newline
  +:+ "  -s PREFIX    take snapshots; `-` for PNM stdout output" +:+ newline
  +:+ "  -S CALLSET   calls to snapshot (default is every frame)" +:+ newline
  +:+ "  -v           increase output verbosity" +:+ newline
  +:+ "  -D CALLNO    dump state at specific call no" +:+ newline
  +:+ "  -w           waitOnFinish on final frame" +:+ newline.

(** How the option loop (lines 519-589) ends: it falls through to the
    trace files at [argv[i]], it returns from [main], or it uses a null
    [argv[argc]]. *)
Inductive Options :=
  | Proceed (cfg : Config) (files : list string)
  | Return (status : Z) (printed : list Event)
  | Undefined.

Definition opt_b (c : Config) : Config := set_verbosity (-1) (set_debug false c).

Definition opt_c (value : option string) (c : Config) : Config :=
  let c := set_comparePrefix value c in
  if CallSet_empty X (compareFrequency c) then
    set_compareFrequency (CallSet_FREQUENCY_FRAME X) c
  else c.

Definition opt_C (value : string) (c : Config) : Config :=
  let c := set_compareFrequency (CallSet_parse X value) c in
  match comparePrefix c with
  | None => set_comparePrefix (Some "") c
  | Some _ => c
  end.

Definition opt_D (value : string) (c : Config) : Config :=
  set_verbosity (-2) (set_dumpingState true
    (set_dumpStateCallNo (wrap (atoi X value)) c)).

Definition opt_s (value : string) (c : Config) : Config :=
  let c := set_snapshotPrefix (Some value) c in
  let c :=
    if CallSet_empty X (snapshotFrequency c) then
      set_snapshotFrequency (CallSet_FREQUENCY_FRAME X) c
    else c in
  if String.eqb value "-" then set_verbosity (-2) c else c.

Definition opt_S (value : string) (c : Config) : Config :=
  let c := set_snapshotFrequency (CallSet_parse X value) c in
  match snapshotPrefix c with
  | None => set_snapshotPrefix (Some "") c
  | Some _ => c
  end.

(** Lines 572-583: every argument whose second character is [p]. *)
Definition opt_p (arg : string) (c : Config) : Config :=
  let c := set_verbosity (-1) (set_profiling true (set_debug false c)) in
  if String.eqb arg "-pcpu" then set_profilingCpuTimes true c
  else if String.eqb arg "-pgpu" then set_profilingGpuTimes true c
  else if String.eqb arg "-ppd" then set_profilingPixelsDrawn true c
  else c.

Definition unknown_option (argv0 arg : string) : Options :=
  Return 1 [EvStderr ("error: unknown option " +:+ arg +:+ newline);
            EvStdout (usage argv0)].

(** The option loop from [argv[i]] on, [args] being [argv[i..argc-1]]. *)
Fixpoint parse_options (argv0 : string) (args : list string) (c : Config)
    : Options :=
  match args with
  | [] => Proceed c []
  | arg :: rest =>
      if negb (bool_decide (String.get 0 arg = Some "-"%char)) then Proceed c args
      else if String.eqb arg "--" then Proceed c args
      else if String.eqb arg "-b" then parse_options argv0 rest (opt_b c)
      else if String.eqb arg "-c" then
        match rest with
        | value :: rest' => parse_options argv0 rest' (opt_c (Some value) c)
        | [] => Proceed (opt_c None c) []
        end
      else if String.eqb arg "-C" then
        match rest with
        | value :: rest' => parse_options argv0 rest' (opt_C value c)
        | [] => Undefined
        end
      else if String.eqb arg "-D" then
        match rest with
        | value :: rest' => parse_options argv0 rest' (opt_D value c)
        | [] => Undefined
        end
      else if String.eqb arg "-core" then
        parse_options argv0 rest (set_coreProfile true c)
      else if String.eqb arg "-db" then
        parse_options argv0 rest (set_doubleBuffer true c)
      else if String.eqb arg "-sb" then
        parse_options argv0 rest (set_doubleBuffer false c)
      else if String.eqb arg "--help" then Return 0 [EvStdout (usage argv0)]
      else if String.eqb arg "-s" then
        match rest with
        | value :: rest' => parse_options argv0 rest' (opt_s value c)
        | [] => Undefined
        end
      else if String.eqb arg "-S" then
        match rest with
        | value :: rest' => parse_options argv0 rest' (opt_S value c)
        | [] => Undefined
        end
      else if String.eqb arg "-v" then
        parse_options argv0 rest (set_verbosity (verbosity c + 1) c)
      else if String.eqb arg "-w" then
        parse_options argv0 rest (set_waitOnFinish true c)
      else if bool_decide (String.get 1 arg = Some "p"%char) then
        parse_options argv0 rest (opt_p arg c)
      else unknown_option argv0 arg
  end.

(** The options that [usage] lists, with [--] and [--help]. *)
Definition documented : list string :=
  ["-b"; "-pcpu"; "-pgpu"; "-ppd"; "-c"; "-C"; "-core"; "-db"; "-sb"; "-s";
   "-S"; "-v"; "-D"; "-w"; "--"; "--help"].

(** An argument is taken for an option when it begins with a dash
    (line 522). *)
Definition is_option (arg : string) : Prop := String.get 0 arg = Some "-"%char.

(** [main(argc, argv)], the globals being [g] once [retrace::setUp()] has
    run: how the process ends, and what it has printed and done. *)
Definition main (argv0 : string) (args : list string) (g : Globals)
    (why : Stop) (evs : list Event) : Prop :=
  if negb (CallSet_empty X (compareFrequency default_config)
           && CallSet_empty X (snapshotFrequency default_config))
  then why = AssertFail ∧ evs = []        (* lines 515-516 *)
  else
    match parse_options argv0 args default_config with
    | Proceed c files => ∃ g', main_files c files g why g' ∧ evs = out g'
    | Return status printed => why = Exit status ∧ evs = printed
    | Undefined => False
    end.

End Retrace.

Arguments Config X : clear implicits.
Arguments Globals X : clear implicits.
Arguments Outcome X : clear implicits.
Arguments State X : clear implicits.
Arguments default_config X : clear implicits.
Arguments Options X : clear implicits.
Arguments swapRenderTarget X call : clear implicits.
Arguments endFrame X call : clear implicits.
Arguments dispatcher_counts_frames X : clear implicits.
Arguments snapshot_index X call : clear implicits.
Arguments empty_contains_nothing X : clear implicits.

(** ** A small instance, to run the definitions on *)

Module Demo.

(** Call sets: nothing, every frame, or the calls listed. *)
Inductive Set_ := Nothing | Frames | Listed (l : list Z).

Definition SWAP_RENDERTARGET : Z := 16.
Definition END_FRAME : Z := 32.

Definition digit_value (a : ascii) : Z := Z.of_nat (nat_of_ascii a) - 48.

Fixpoint decimal (s : string) (acc : Z) : Z :=
  match s with
  | EmptyString => acc
  | String a rest =>
      if (0 <=? digit_value a) && (digit_value a <=? 9)
      then decimal rest (10 * acc + digit_value a)
      else acc
  end.

(** The world is the list of the files on disk; an image is its name. *)
Definition X : External := {|
  CallSet := Set_;
  CallSet_default := Nothing;
  CallSet_FREQUENCY_FRAME := Frames;
  CallSet_parse := λ s, Listed [decimal s 0];
  CallSet_empty := λ s, match s with Nothing => true | _ => false end;
  CallSet_contains := λ s c,
    match s with
    | Nothing => false
    | Frames => negb (Z.land (flags c) END_FRAME =? 0)
    | Listed l => bool_decide (no c ∈ l)
    end;
  CALL_FLAG_SWAP_RENDERTARGET := SWAP_RENDERTARGET;
  CALL_FLAG_END_FRAME := END_FRAME;
  World := list string;
  Image := string;
  readPNG := λ file w, if bool_decide (file ∈ w) then Some file else None;
  writePNG := λ img file w, (true, file :: w);
  compare := λ a b, "8";
  getSnapshot := λ w, Some "framebuffer";
  retrace_handler := λ c w, w;
  handler_frames := λ c w, if Z.land (flags c) END_FRAME =? 0 then 0%nat else 1%nat;
  dumpState := λ w, true;
  flushRendering := λ w, w;
  parser_open := λ file,
    if String.eqb file "two.trace" then
      Some [mkCall 0 0 0 "glClear"; mkCall 1 0 END_FRAME "glXSwapBuffers"]
    else if String.eqb file "one.trace" then
      Some [mkCall 7 0 0 "glClear"]
    else None;
  atoi := λ s, decimal s 0
|}.

Definition globals (files : list string) : Globals X :=
  @Build_Globals X 0 0 files [].

(** No option given. *)
Definition plain : Config X := default_config X.

(** [-s out/ -c ref/]. *)
Definition snap_compare : Config X :=
  set_compareFrequency (X := X) Frames
    (set_comparePrefix (Some "ref/")
       (set_snapshotFrequency (X := X) Frames
          (set_snapshotPrefix (Some "out/") plain))).

(** Two threads: the calls 1 and 3 of thread 0, the call 2 of thread 1. *)
Definition two_threads : list Call :=
  [mkCall 1 0 0 "a"; mkCall 2 1 0 "b"; mkCall 3 0 END_FRAME "c"].

(** One thread, the call numbers 3 and 7: none is 5. *)
Definition sparse : list Call := [mkCall 3 0 0 "a"; mkCall 7 0 0 "b"].

(** [-D 5]. *)
Definition dump_at_5 : Config X :=
  set_verbosity (-2) (set_dumpingState true (set_dumpStateCallNo 5 plain)).

(** A runner of leg 0 inside its leg, at statement [l]. *)
Definition running (l : PC) : Runner :=
  {| finished := false; baton := None; mutex := Some 0%nat; pc := l |}.

(** [-s -] without a prefix: a snapshot is due at every frame and has
    nowhere to go. *)
Definition no_prefix : Config X := set_snapshotFrequency (X := X) Frames plain.

(** A schedule that gives the threads their turns in the order of [turn],
    over and over, passing over a thread that cannot move: the threads
    that moved. *)
Fixpoint in_turn (cfg : Config X) (turn : list nat) (fuel i : nat) (s : State X)
    : list nat :=
  match fuel with
  | O => []
  | S fuel =>
      let t := default 0%nat (turn !! (i mod length turn)%nat) in
      match step cfg t s with
      | Some s' => t :: in_turn cfg turn fuel (S i) s'
      | None => in_turn cfg turn fuel (S i) s
      end
  end.

(** The two-thread trace replayed from [mainLoop] with the turns [turn]. *)
Definition turns (turn : list nat) : list nat :=
  in_turn plain turn 100 0 (race_start two_threads (mainLoop_begin (globals []))).

(** Two frames, the first drawn by thread 0 and the second by thread 1. *)
Definition two_frames : list Call :=
  [mkCall 1 0 0 "glClear"; mkCall 2 0 END_FRAME "glXSwapBuffers";
   mkCall 3 1 0 "glClear"; mkCall 4 1 END_FRAME "glXSwapBuffers"].

(** Its replay from [mainLoop], the two threads taking turns. *)
Definition two_frames_turns : list nat :=
  in_turn plain [0; 1]%nat 200 0
    (race_start two_frames (mainLoop_begin (globals []))).

(** The schedule of a replay from [mainLoop] in which the threads 0 and 1
    take turns. *)
Definition by_turns (cfg : Config X) (trace : list Call) (g : Globals X)
    : list nat :=
  in_turn cfg [0; 1]%nat 200 0 (race_start trace (mainLoop_begin g)).

(** [-s -]: the snapshots go to standard output. *)
Definition pnm_stdout : Config X := opt_s "-" plain.

(** The reference image of the first frame of [two_frames] is on disk. *)
Definition one_reference : Globals X := globals ["ref/0000000002.png"].

End Demo.
Arguments inv_fore {X cfg trace g0 s} _.
Arguments inv_tokens {X cfg trace g0 s} _.
Arguments inv_position {X cfg trace g0 s} _ i r _.
Arguments inv_over {X cfg trace g0 s} _ _.
Arguments inv_live {X cfg trace g0 s} _.
Arguments inv_ended {X cfg trace g0 s} _ i r _ _.

(** * Proofs *)

Section RunnerVector.

Implicit Types (rs : list (option Runner)) (r : Runner).

Lemma runner_at_Some rs i r :
  runner_at rs i = Some r ↔ rs !! i = Some (Some r).
Proof.
  unfold runner_at. destruct (rs !! i) as [[?|]|]; naive_solver.
Qed.

Lemma runner_at_insert rs i j o :
  (i < length rs)%nat →
  runner_at (<[i := o]> rs) j = if decide (i = j) then o else runner_at rs j.
Proof.
  intros Hi. unfold runner_at. case_decide as Hij.
  - subst j. rewrite list_lookup_insert_eq by done. by destruct o.
  - by rewrite list_lookup_insert_ne.
Qed.

Lemma runner_at_update rs i j f :
  runner_at (update_runner i f rs) j =
  if decide (i = j) then f <$> runner_at rs i else runner_at rs j.
Proof.
  unfold update_runner. destruct (runner_at rs i) as [r|] eqn:Hi.
  - apply runner_at_Some in Hi as Hl. apply lookup_lt_Some in Hl.
    rewrite runner_at_insert by done. by case_decide.
  - case_decide; [by subst; rewrite Hi | done].
Qed.

Lemma runner_at_update_eq rs i f r :
  runner_at rs i = Some r → runner_at (update_runner i f rs) i = Some (f r).
Proof. intros H. rewrite runner_at_update, decide_True, H; done. Qed.

Lemma runner_at_update_ne rs i j f :
  i ≠ j → runner_at (update_runner i f rs) j = runner_at rs j.
Proof. intros H. by rewrite runner_at_update, decide_False. Qed.

(** After a write to one runner, a runner is what it was or was written. *)
Lemma runner_at_update_inv rs i j f r' :
  runner_at (update_runner i f rs) j = Some r' →
  ∃ r, runner_at rs j = Some r ∧ (r' = r ∨ (i = j ∧ r' = f r)).
Proof.
  rewrite runner_at_update. case_decide as Hij.
  - subst j. destruct (runner_at rs i) as [r|]; [|done].
    intros [= <-]. eauto.
  - eauto.
Qed.

Lemma length_update rs i f : length (update_runner i f rs) = length rs.
Proof.
  unfold update_runner. destruct (runner_at rs i); [apply length_insert | done].
Qed.

Lemma tokens_insert rs i o o' :
  rs !! i = Some o →
  (tokens (<[i := o']> rs) + match o with Some r => tokens_of r | None => 0 end
   = tokens rs + match o' with Some r => tokens_of r | None => 0 end)%nat.
Proof.
  revert i. induction rs as [|a rs IH]; intros [|i] H; simplify_eq/=.
  - unfold tokens; simpl. lia.
  - specialize (IH _ H). unfold tokens in *; simpl. lia.
Qed.

Lemma tokens_update rs i f r :
  runner_at rs i = Some r →
  (tokens (update_runner i f rs) + tokens_of r = tokens rs + tokens_of (f r))%nat.
Proof.
  intros H. unfold update_runner. rewrite H.
  apply runner_at_Some in H. apply (tokens_insert _ _ _ (Some (f r))) in H. done.
Qed.

Lemma tokens_ge rs i r : runner_at rs i = Some r → (tokens_of r ≤ tokens rs)%nat.
Proof.
  intros H%runner_at_Some. unfold tokens.
  apply list_elem_of_lookup_2 in H.
  by apply (sum_list_with_in _ (λ o, match o with Some r => tokens_of r | None => 0%nat end)) in H.
Qed.

Lemma tokens_two rs i j r r' :
  i ≠ j → runner_at rs i = Some r → runner_at rs j = Some r' →
  (tokens_of r + tokens_of r' ≤ tokens rs)%nat.
Proof.
  intros Hij Hi Hj.
  pose proof (tokens_update rs i (set_pc Halted ∘ set_baton None) r Hi) as Hu.
  assert (runner_at (update_runner i (set_pc Halted ∘ set_baton None) rs) j = Some r') as Hj'
    by (by rewrite runner_at_update_ne).
  apply tokens_ge in Hj'.
  change (tokens_of ((set_pc Halted ∘ set_baton None) r)) with 0%nat in Hu. lia.
Qed.

Lemma tokens_zero rs i r :
  tokens rs = 0%nat → runner_at rs i = Some r → tokens_of r = 0%nat.
Proof. intros H0 H%tokens_ge. lia. Qed.

Lemma tokens_resize rs n :
  (length rs ≤ n)%nat → tokens (resize n None rs) = tokens rs.
Proof.
  intros H. rewrite resize_ge by done. unfold tokens.
  rewrite sum_list_with_app.
  induction (n - length rs)%nat; simpl; lia.
Qed.

Lemma runner_at_resize rs n j :
  (length rs ≤ n)%nat → runner_at (resize n None rs) j = runner_at rs j.
Proof.
  intros H. unfold runner_at. rewrite resize_ge by done.
  destruct (decide (j < length rs)%nat).
  - by rewrite lookup_app_l.
  - rewrite lookup_app_r by lia. rewrite (lookup_ge_None_2 rs) by lia.
    destruct (replicate _ _ !! _) as [o|] eqn:E; [|done].
    apply lookup_replicate in E as [-> _]. done.
Qed.

Lemma getRunner_present rs leg r :
  runner_at rs leg = Some r → getRunner leg rs = Some rs.
Proof.
  intros H. unfold getRunner.
  apply runner_at_Some in H as Hl. apply lookup_lt_Some in Hl.
  rewrite decide_False by lia. by rewrite H.
Qed.

(** When [getRunner] is defined, [leg + 1] has not wrapped. *)
Lemma getRunner_Some rs leg rs' :
  getRunner leg rs = Some rs' →
  let rs0 := if decide (length rs ≤ leg)%nat then resize (S leg) None rs else rs in
  (leg < length rs0)%nat
  ∧ rs' = match runner_at rs0 leg with
          | Some _ => rs0
          | None => <[leg := Some (new_runner leg)]> rs0
          end.
Proof.
  intros H. cbv zeta.
  set (rs0 := if decide (length rs ≤ leg)%nat then resize (S leg) None rs else rs).
  unfold getRunner in H.
  assert (leg < length rs0)%nat as Hlen0.
  { unfold rs0. case_decide; [rewrite length_resize|]; lia. }
  split; [done|]. revert H. unfold rs0 in *.
  destruct (decide (length rs ≤ leg)%nat) as [Hle|Hgt].
  2:{ destruct (runner_at rs leg); [by intros [= <-]|].
      rewrite decide_True by lia. by intros [= <-]. }
  set (n := Z.to_nat (wrap (Z.of_nat leg + 1))).
  assert (n ≤ S leg)%nat as Hn.
  { unfold n, wrap. pose proof (Z.mod_le (Z.of_nat leg + 1) (2 ^ 32)).
    pose proof (Z.mod_pos_bound (Z.of_nat leg + 1) (2 ^ 32)). lia. }
  destruct (decide (n = S leg)) as [->|Hne].
  - destruct (runner_at (resize (S leg) None rs) leg); [by intros [= <-]|].
    rewrite decide_True by done. by intros [= <-].
  - assert (runner_at (resize n None rs) leg = None) as ->.
    { unfold runner_at. rewrite lookup_ge_None_2; [done|]. rewrite length_resize. lia. }
    rewrite decide_False; [done|]. rewrite length_resize. lia.
Qed.

(** [getRunner] is defined for every leg below the largest [unsigned],
    and for every leg the vector has. *)
Lemma getRunner_defined rs leg :
  Z.of_nat leg < UINT_MAX ∨ (leg < length rs)%nat → is_Some (getRunner leg rs).
Proof.
  intros H. unfold getRunner.
  set (rs' := if decide (length rs ≤ leg)%nat then _ else rs).
  assert (leg < length rs')%nat as Hlen.
  { unfold rs'. case_decide as Hle; [|lia]. rewrite length_resize.
    destruct H as [H|H]; [|lia]. unfold UINT_MAX, wrap in *.
    rewrite Z.mod_small by lia. lia. }
  destruct (runner_at rs' leg); [by eexists|].
  rewrite decide_True by done. by eexists.
Qed.

Lemma runner_at_getRunner rs leg rs' j :
  getRunner leg rs = Some rs' →
  runner_at rs' j =
  if decide (leg = j) then Some (default (new_runner leg) (runner_at rs leg))
  else runner_at rs j.
Proof.
  intros [Hlen ->]%getRunner_Some. cbv zeta in Hlen.
  set (rs0 := if decide (length rs ≤ leg)%nat then resize (S leg) None rs else rs) in *.
  assert (∀ k, runner_at rs0 k = runner_at rs k) as Hsame.
  { intros k. unfold rs0. case_decide; [|done]. apply runner_at_resize. lia. }
  destruct (runner_at rs0 leg) as [r|] eqn:E.
  - case_decide; [subst; by rewrite <- Hsame, E | apply Hsame].
  - rewrite runner_at_insert by done. rewrite Hsame in E.
    case_decide; [by rewrite E | apply Hsame].
Qed.

Lemma length_getRunner rs leg rs' :
  getRunner leg rs = Some rs' → length rs' = (length rs `max` S leg)%nat.
Proof.
  intros [Hlen ->]%getRunner_Some. cbv zeta in Hlen.
  set (rs0 := if decide (length rs ≤ leg)%nat then resize (S leg) None rs else rs) in *.
  assert (length rs0 = (length rs `max` S leg)%nat) as Hl.
  { unfold rs0. case_decide; [rewrite length_resize|]; lia. }
  destruct (runner_at rs0 leg); [done|]. by rewrite length_insert.
Qed.

Lemma tokens_getRunner rs leg rs' :
  getRunner leg rs = Some rs' → tokens rs' = tokens rs.
Proof.
  intros [Hlen ->]%getRunner_Some. cbv zeta in Hlen.
  set (rs0 := if decide (length rs ≤ leg)%nat then resize (S leg) None rs else rs) in *.
  assert (tokens rs0 = tokens rs) as Hsame.
  { unfold rs0. case_decide; [|done]. apply tokens_resize. lia. }
  destruct (runner_at rs0 leg) as [r|] eqn:E; [done|].
  destruct (lookup_lt_is_Some_2 _ _ Hlen) as [o Ho].
  pose proof (tokens_insert rs0 leg o (Some (new_runner leg)) Ho) as Hi.
  assert (o = None) as -> by (unfold runner_at in E; rewrite Ho in E; by destruct o).
  unfold tokens_of at 1 in Hi. destruct leg; simpl in Hi; lia.
Qed.

End RunnerVector.

Section Sequence.

Context {X : External} (cfg : Config X).

Implicit Types (g : Globals X) (o : Outcome X) (c : Call).

Lemma and_then_assoc o (k1 k2 : Globals X → Outcome X) :
  and_then (and_then o k1) k2 = and_then o (λ g, and_then (k1 g) k2).
Proof. by destruct o. Qed.

Lemma and_then_running o (k : Globals X → Outcome X) g :
  and_then o k = Running g → ∃ g1, o = Running g1 ∧ k g1 = Running g.
Proof. destruct o; naive_solver. Qed.

Lemma retraceCall_stages c g : retraceCall cfg c g = stages cfg 5 c g.
Proof. unfold retraceCall. simpl. by destruct (snapshot_before cfg c g). Qed.

Lemma stages_S n c g :
  stages cfg (S n) c g = and_then (stages cfg n c g) (stage cfg n c).
Proof. done. Qed.

(** A stop at any statement is a stop of [retraceCall]. *)
Lemma stages_stopped n c g why g' :
  (n ≤ 5)%nat → stages cfg n c g = Stopped why g' →
  retraceCall cfg c g = Stopped why g'.
Proof.
  intros Hn H. rewrite retraceCall_stages.
  induction Hn as [|m Hm IH]; [done|].
  by rewrite stages_S, IH.
Qed.

Lemma replay_from_snoc prev d c g :
  replay_from cfg prev (d ++ [c]) g =
  and_then (replay_from cfg prev d g)
    (λ g1, retraceCall cfg c (relay (from_option Some prev (last d)) c g1)).
Proof.
  revert prev g. induction d as [|a d IH]; intros prev g; simpl.
  - by destruct (retraceCall cfg c (relay prev c g)).
  - destruct (retraceCall cfg a (relay prev a g)) as [g'|]; simpl; [|done].
    rewrite IH. destruct d as [|b d]; [done|]. rewrite last_cons_cons.
    destruct (last (b :: d)) eqn:E; [done|]. by apply last_None in E.
Qed.

Lemma replay_snoc d c g :
  replay cfg (d ++ [c]) g =
  and_then (replay cfg d g)
    (λ g1, retraceCall cfg c (relay (last d) c g1)).
Proof.
  unfold replay. rewrite replay_from_snoc. by destruct (last d).
Qed.

Lemma replay_from_app prev a b g :
  replay_from cfg prev (a ++ b) g =
  and_then (replay_from cfg prev a g)
    (replay_from cfg (from_option Some prev (last a)) b).
Proof.
  revert prev g. induction a as [|c a IH]; intros prev g; simpl; [done|].
  destruct (retraceCall cfg c (relay prev c g)) as [g'|]; simpl; [|done].
  rewrite IH. destruct a as [|b' a]; [done|]. rewrite last_cons_cons.
  destruct (last (b' :: a)) eqn:E; [done|]. by apply last_None in E.
Qed.

End Sequence.

(** ** What the pipeline does to the counters and to the record *)

Section Observations.

Context {X : External} (cfg : Config X).

Implicit Types (g : Globals X) (o : Outcome X) (c : Call).

Lemma retraced_app evs1 evs2 :
  retraced (evs1 ++ evs2) = retraced evs1 ++ retraced evs2.
Proof. unfold retraced. apply omap_app. Qed.

Lemma keeps_refl g : keeps g g.
Proof. split_and!; [done..|]. exists []. by rewrite app_nil_r. Qed.

Lemma keeps_trans g1 g2 g3 : keeps g1 g2 → keeps g2 g3 → keeps g1 g3.
Proof.
  intros (Hf1 & Hc1 & evs1 & Ho1 & Hr1) (Hf2 & Hc2 & evs2 & Ho2 & Hr2).
  split_and!; [congruence..|]. exists (evs1 ++ evs2).
  split; [by rewrite Ho2, Ho1, app_assoc|].
  by rewrite retraced_app, Hr1, Hr2.
Qed.

Lemma keeps_emit e g :
  (∀ c, e ≠ EvRetrace c) → keeps g (emit e g).
Proof.
  intros He. split_and!; [done..|]. exists [e]. split; [done|].
  destruct e; try done. by destruct (He call).
Qed.

Lemma keeps_set_world w g : keeps g (set_world w g).
Proof. split_and!; [done..|]. exists []. by rewrite app_nil_r. Qed.

Lemma takeSnapshot_capture_keeps n ref g :
  keeps g (takeSnapshot_capture cfg n ref g).
Proof.
  unfold takeSnapshot_capture.
  destruct (getSnapshot X (world g)) as [src|]; [|apply keeps_refl].
  set (g1 := match snapshotPrefix cfg with Some _ => _ | None => g end).
  assert (keeps g g1) as H1.
  { unfold g1. destruct (snapshotPrefix cfg) as [prefix|]; [|apply keeps_refl].
    destruct (String.eqb prefix "-"); [by apply keeps_emit|].
    destruct (writePNG X src (png_name prefix n) (world g)) as [ok w].
    assert (keeps g (emit (EvWritePNG (png_name prefix n) ok) (set_world w g))) as H2.
    { eapply keeps_trans; [apply keeps_set_world | by apply keeps_emit]. }
    destruct (ok && (0 <=? verbosity cfg)); [|done].
    eapply keeps_trans; [exact H2 | by apply keeps_emit]. }
  destruct ref; [|done]. eapply keeps_trans; [exact H1 | by apply keeps_emit].
Qed.

Lemma takeSnapshot_keeps n g : keeps g (final (takeSnapshot cfg n g)).
Proof.
  unfold takeSnapshot.
  assert (keeps g (emit (EvTakeSnapshot n) g)) as H0 by (by apply keeps_emit).
  destruct (snapshotPrefix cfg), (comparePrefix cfg) as [prefix|]; simpl; try done.
  all: try (eapply keeps_trans; [exact H0 | apply takeSnapshot_capture_keeps]).
  all: destruct (readPNG X _ _); simpl; [|done].
  all: eapply keeps_trans; [|apply takeSnapshot_capture_keeps].
  all: destruct (0 <=? verbosity cfg); [|done].
  all: eapply keeps_trans; [exact H0 | by apply keeps_emit].
Qed.

Lemma snapshot_before_keeps c g : keeps g (final (snapshot_before cfg c g)).
Proof.
  unfold snapshot_before.
  destruct (doSnapshot cfg c && swapRenderTarget X c); [|apply keeps_refl].
  destruct (endFrame X c); apply takeSnapshot_keeps.
Qed.

Lemma snapshot_after_keeps c g : keeps g (final (snapshot_after cfg c g)).
Proof.
  unfold snapshot_after.
  destruct (doSnapshot cfg c && negb (swapRenderTarget X c)); [|apply keeps_refl].
  apply takeSnapshot_keeps.
Qed.

Lemma dump_gate_keeps c g : keeps g (final (dump_gate cfg c g)).
Proof.
  unfold dump_gate. destruct (dumpStateCallNo cfg <=? no c); [|apply keeps_refl].
  destruct (dumpState X (world g)); by apply keeps_emit.
Qed.

Lemma flush_keeps g : keeps g (flush g).
Proof.
  unfold flush. eapply keeps_trans; [apply keeps_set_world | by apply keeps_emit].
Qed.

Lemma relay_keeps prev c g : keeps g (relay prev c g).
Proof.
  unfold relay. destruct prev; [|apply keeps_refl].
  case_decide; [apply keeps_refl | apply flush_keeps].
Qed.

(** The counter after [k] calls of [frameComplete]. *)
Lemma frameNo_iter_frameComplete k c g :
  frameNo (Nat.iter k (frameComplete c) g) = Nat.iter k (λ n, wrap (n + 1)) (frameNo g)
  ∧ callNo (Nat.iter k (frameComplete c) g) = callNo g
  ∧ out (Nat.iter k (frameComplete c) g) = out g
  ∧ world (Nat.iter k (frameComplete c) g) = world g.
Proof.
  induction k as [|k IH]; simpl; [done|].
  destruct IH as (-> & -> & -> & ->). done.
Qed.

Lemma retrace_observed c g :
  frameNo (retrace c g)
    = Nat.iter (handler_frames X c (world g)) (λ n, wrap (n + 1)) (frameNo g)
  ∧ callNo (retrace c g) = callNo g
  ∧ out (retrace c g) = out g ++ [EvRetrace c].
Proof.
  unfold retrace. simpl.
  destruct (frameNo_iter_frameComplete (handler_frames X c (world g)) c
              (set_world (retrace_handler X c (world g)) g)) as (-> & -> & -> & _).
  done.
Qed.

Lemma advance_keeps g g' : keeps g g' → advance [] g g'.
Proof.
  intros (Hf & _ & evs & Ho & Hr). exists evs, []. by split_and!.
Qed.

Lemma advance_trans d1 d2 g1 g2 g3 :
  advance d1 g1 g2 → advance d2 g2 g3 → advance (d1 ++ d2) g1 g3.
Proof.
  intros (evs1 & ks1 & Ho1 & Hr1 & Hk1 & Hf1) (evs2 & ks2 & Ho2 & Hr2 & Hk2 & Hf2).
  exists (evs1 ++ evs2), (ks1 ++ ks2). split_and!.
  - by rewrite Ho2, Ho1, app_assoc.
  - by rewrite retraced_app, Hr1, Hr2.
  - by apply Forall2_app.
  - rewrite Hf2, Hf1.
    replace (sum_list (ks1 ++ ks2)) with (sum_list ks2 + sum_list ks1)%nat
      by (rewrite Nat.add_comm; symmetry; apply sum_list_with_app).
    symmetry. apply Nat.iter_add.
Qed.

Lemma advance_retrace c g : advance [c] g (retrace c g).
Proof.
  destruct (retrace_observed c g) as (Hf & _ & Ho).
  exists [EvRetrace c], [handler_frames X c (world g)]. split_and!; [done..| |].
  - constructor; [by eexists | constructor].
  - rewrite Hf. simpl. by rewrite Nat.add_0_r.
Qed.

Lemma advance_assign c g : advance [] g (assign_callNo c g).
Proof. exists [], []. split_and!; [by rewrite app_nil_r | done..]. Qed.

(** One statement of [retraceCall], however it ends. *)
Lemma stage_advance k c g :
  advance (if decide (k = 2%nat) then [c] else []) g (final (stage cfg k c g)).
Proof.
  destruct k as [|[|[|[|k]]]]; simpl.
  - apply advance_keeps, snapshot_before_keeps.
  - apply advance_assign.
  - apply advance_retrace.
  - apply advance_keeps, snapshot_after_keeps.
  - apply advance_keeps, dump_gate_keeps.
Qed.

Lemma stage_callNo k c g :
  callNo (final (stage cfg k c g)) = if decide (k = 1%nat) then no c else callNo g.
Proof.
  destruct k as [|[|[|[|k]]]]; simpl.
  - apply snapshot_before_keeps.
  - done.
  - apply retrace_observed.
  - apply snapshot_after_keeps.
  - apply dump_gate_keeps.
Qed.

(** The first [n] statements, when none of them stops. *)
Lemma stages_advance n c g g' :
  stages cfg n c g = Running g' →
  advance (if decide (3 ≤ n)%nat then [c] else []) g g'
  ∧ callNo g' = if decide (2 ≤ n)%nat then no c else callNo g.
Proof.
  revert g'. induction n as [|n IH]; intros g' H.
  - injection H as <-. split; [|done]. apply advance_keeps, keeps_refl.
  - rewrite stages_S in H. apply and_then_running in H as (g1 & H1 & H2).
    destruct (IH g1 H1) as [Ha Hc].
    pose proof (stage_advance n c g1) as Ha'. pose proof (stage_callNo n c g1) as Hc'.
    rewrite H2 in Ha', Hc'. simpl in Ha', Hc'.
    pose proof (advance_trans _ _ _ _ _ Ha Ha') as Hall.
    split.
    + repeat case_decide; simpl in Hall; rewrite ?app_nil_r in Hall;
        try done; lia.
    + rewrite Hc', Hc. repeat case_decide; try done; lia.
Qed.

(** The first [n] statements, however they end: the call is retraced or
    it is not. *)
Lemma stages_final_advance n c g :
  ∃ d, (d = [] ∨ d = [c] ∧ (3 ≤ n)%nat) ∧ advance d g (final (stages cfg n c g)).
Proof.
  induction n as [|n IH]; simpl.
  - exists []. split; [by left|]. apply advance_keeps, keeps_refl.
  - destruct (stages cfg n c g) as [g1|why g1] eqn:H1; simpl in *.
    + destruct (stages_advance n c g g1 H1) as [Ha _].
      pose proof (advance_trans _ _ _ _ _ Ha (stage_advance n c g1)) as Hall.
      eexists. split; [|exact Hall].
      repeat case_decide; simpl; try (by left); try (right; split; [done|lia]); lia.
    + destruct IH as (d & [-> | [-> Hn]] & Ha).
      * exists []. split; [by left | done].
      * exists [c]. split; [right; split; [done|lia] | done].
Qed.

Lemma retraceCall_advance c g g' :
  retraceCall cfg c g = Running g' → advance [c] g g' ∧ callNo g' = no c.
Proof.
  rewrite retraceCall_stages. intros H. by apply stages_advance in H.
Qed.

(** A whole prefix of the stream. *)
Lemma replay_from_advance prev d g g' :
  replay_from cfg prev d g = Running g' →
  advance d g g' ∧ callNo g' = from_option no (callNo g) (last d).
Proof.
  revert prev g. induction d as [|c d IH]; intros prev g H; simpl in H.
  - injection H as <-. split; [|done]. apply advance_keeps, keeps_refl.
  - apply and_then_running in H as (g1 & H1 & H2).
    apply retraceCall_advance in H1 as [Ha1 Hc1].
    apply IH in H2 as [Ha2 Hc2].
    pose proof (advance_keeps _ _ (relay_keeps prev c g)) as Ha0.
    split.
    + apply (advance_trans [] (c :: d) _ _ _ Ha0).
      apply (advance_trans [c] d _ _ _ Ha1 Ha2).
    + rewrite Hc2, Hc1. destruct d as [|b d]; [done|].
      rewrite last_cons_cons.
      destruct (last (b :: d)) eqn:E; [done | by apply last_None in E].
Qed.

Lemma replay_advance d g g' :
  replay cfg d g = Running g' →
  advance d g g' ∧ callNo g' = from_option no (callNo g) (last d).
Proof. apply replay_from_advance. Qed.

End Observations.

(** ** The relay race implements the sequence *)

Section Preservation.

Context {X : External} (cfg : Config X) (trace : list Call) (g0 : Globals X).

Implicit Types (s : State X) (r : Runner) (g : Globals X) (p : list Call).

Local Abbreviation invariant := (Inv cfg trace g0).
Local Abbreviation placed := (position cfg trace g0).
Local Abbreviation located := (at_pc cfg trace g0).
Local Abbreviation race_over := (over cfg trace g0).

Lemma holds_not_endgame l : holds_pc l = true → endgame l = false.
Proof. by destruct l. Qed.

Lemma at_pc_quiet i l p g : holds_pc l = false → located i l p g.
Proof. by destruct l. Qed.

Lemma position_zero i r p g : tokens_of r = 0%nat → placed i r p g.
Proof.
  unfold tokens_of. intros H. split.
  - intros c Hc. rewrite Hc in H. lia.
  - apply at_pc_quiet. destruct (holds_pc (pc r)); [lia | done].
Qed.

Lemma holder_alone s t r i r' :
  invariant s → runner_at (runners s) t = Some r → holds_pc (pc r) = true →
  runner_at (runners s) i = Some r' → i ≠ t → tokens_of r' = 0%nat.
Proof.
  intros HI Ht Hh Hi Hne.
  pose proof (tokens_two _ _ _ _ _ Hne Hi Ht) as H2.
  pose proof (inv_tokens HI). unfold tokens_of in H2 at 2.
  rewrite Hh in H2. lia.
Qed.

Lemma holder_tokens s t r :
  invariant s → runner_at (runners s) t = Some r → holds_pc (pc r) = true →
  baton r = None ∧ tokens (runners s) = 1%nat ∧ finished r = false.
Proof.
  intros HI Ht Hh.
  pose proof (tokens_ge _ _ _ Ht) as H1.
  pose proof (inv_tokens HI) as H2.
  unfold tokens_of in H1. rewrite Hh in H1.
  split_and!; [destruct (baton r); [lia | done] | destruct (baton r); lia |].
  destruct (finished r) eqn:Hf; [|done].
  assert (tokens (runners s) = 0%nat) by (eapply inv_ended; [done.. | by left]).
  destruct (baton r); lia.
Qed.

Lemma invariant_ext s s' :
  invariant s → runners s' = runners s → parser s' = parser s →
  glob s' = glob s → exited s' = exited s → invariant s'.
Proof.
  intros HI Hr Hp Hg He. destruct HI. split; rewrite ?Hr, ?Hp, ?Hg, ?He; done.
Qed.

(** A write that moves no token. *)
Lemma inv_update s i f :
  invariant s →
  (∀ r, runner_at (runners s) i = Some r →
     tokens_of (f r) = tokens_of r
     ∧ (placed i r (parser s) (glob s) → placed i (f r) (parser s) (glob s))
     ∧ (ended (f r) → ended r ∨ tokens (runners s) = 0%nat)) →
  invariant (with_runners (update_runner i f (runners s)) s).
Proof.
  intros HI Hf.
  assert (tokens (update_runner i f (runners s)) = tokens (runners s)) as Htok.
  { destruct (runner_at (runners s) i) as [r|] eqn:Hi.
    - pose proof (tokens_update _ i f r Hi). destruct (Hf r eq_refl) as [? _]. lia.
    - unfold update_runner. by rewrite Hi. }
  split; simpl; rewrite ?Htok.
  - destruct (inv_fore HI) as [r0 H0].
    rewrite runner_at_update. case_decide; [subst; rewrite H0|]; eauto.
  - apply HI.
  - intros j r' (r & Hr & [-> | [-> ->]])%runner_at_update_inv.
    + by apply HI.
    + apply (Hf r Hr). by apply HI.
  - apply HI.
  - apply HI.
  - intros j r' (r & Hr & [-> | [-> ->]])%runner_at_update_inv He.
    + by eapply inv_ended.
    + destruct (Hf r Hr) as (_ & _ & [He' | ?]); [done | | done].
      by eapply inv_ended.
Qed.

Lemma inv_getRunner s leg rs' :
  invariant s → getRunner leg (runners s) = Some rs' →
  invariant (with_runners rs' s).
Proof.
  intros HI Hg.
  assert (∀ j r, runner_at rs' j = Some r →
            runner_at (runners s) j = Some r ∨ r = new_runner leg ∧ (leg ≠ 0)%nat) as Hold.
  { intros j r. rewrite (runner_at_getRunner _ _ _ _ Hg). case_decide; [subst j|by left].
    destruct (runner_at (runners s) leg) eqn:E; simpl; [by left|].
    intros [= <-]. right. split; [done|]. intros ->.
    destruct (inv_fore HI) as [? ?]. congruence. }
  split; simpl; rewrite ?(tokens_getRunner _ _ _ Hg).
  - destruct (inv_fore HI) as [r0 H0].
    rewrite (runner_at_getRunner _ _ _ _ Hg). case_decide; eauto.
  - apply HI.
  - intros j r [Hr | [-> _]]%Hold; [by apply HI|].
    apply position_zero. by destruct leg.
  - apply HI.
  - apply HI.
  - intros j r [Hr | [-> Hne]]%Hold He; [by eapply inv_ended|].
    destruct leg; [done|]. by destruct He.
Qed.

Lemma runner_at_getRunner_old (rs : list (option Runner)) leg rs' t r :
  getRunner leg rs = Some rs' → runner_at rs t = Some r →
  runner_at rs' t = Some r.
Proof.
  intros Hg H. rewrite (runner_at_getRunner _ _ _ _ Hg).
  case_decide; [subst; by rewrite H | done].
Qed.

(** The holder of the token goes on. *)
Lemma inv_move s s' t r l :
  invariant s → runner_at (runners s) t = Some r → holds_pc (pc r) = true →
  runners s' = update_runner t (set_pc l) (runners s) →
  exited s' = None → holds_pc l = true →
  located t l (parser s') (glob s') → invariant s'.
Proof.
  intros HI Ht Hh Hrs He Hl Hat.
  destruct (holder_tokens _ _ _ HI Ht Hh) as (Hb & Htok & Hfin).
  assert (tokens (runners s') = 1%nat) as Htok'.
  { rewrite Hrs. pose proof (tokens_update _ t (set_pc l) r Ht) as Hu.
    unfold tokens_of in Hu. simpl in Hu. rewrite Hb, Hh, Hl in Hu. lia. }
  split; rewrite ?Htok'.
  - destruct (inv_fore HI) as [r0 H0]. rewrite Hrs.
    rewrite runner_at_update. case_decide; [subst; rewrite H0|]; eauto.
  - lia.
  - intros j r'. rewrite Hrs. rewrite runner_at_update. case_decide as Hj.
    + subst j. rewrite Ht. intros [= <-]. split; simpl; [by rewrite Hb | done].
    + intros Hr'. apply position_zero. eapply (holder_alone s t r j r'); eauto.
  - done.
  - by right.
  - intros j r'. rewrite Hrs. rewrite runner_at_update. case_decide as Hj.
    + subst j. rewrite Ht. intros [= <-] [Hf | Hend]; simpl in *; [congruence|].
      by rewrite holds_not_endgame in Hend.
    + intros Hr' Hend. assert (tokens (runners s) = 0%nat) by (by eapply inv_ended). lia.
Qed.

(** The holder of the token lets go of it. *)
Lemma inv_drop s s' t r f :
  invariant s → runner_at (runners s) t = Some r → holds_pc (pc r) = true →
  runners s' = update_runner t f (runners s) →
  tokens_of (f r) = 0%nat →
  race_over (parser s') (glob s') (exited s') → invariant s'.
Proof.
  intros HI Ht Hh Hrs Hf Hover.
  destruct (holder_tokens _ _ _ HI Ht Hh) as (Hb & Htok & Hfin).
  assert (tokens (runners s') = 0%nat) as Htok'.
  { rewrite Hrs. pose proof (tokens_update _ t f r Ht) as Hu.
    assert (tokens_of r = 1%nat) by (unfold tokens_of; by rewrite Hb, Hh). lia. }
  split; rewrite ?Htok'.
  - destruct (inv_fore HI) as [r0 H0]. rewrite Hrs.
    rewrite runner_at_update. case_decide; [subst; rewrite H0|]; eauto.
  - lia.
  - intros j r' Hr'. apply position_zero. by eapply tokens_zero.
  - done.
  - by left.
  - done.
Qed.

Lemma runner_at_update_is_Some (rs : list (option Runner)) i j f :
  is_Some (runner_at rs i) → is_Some (runner_at (update_runner j f rs) i).
Proof.
  intros [r Hr]. rewrite runner_at_update. case_decide; [subst; rewrite Hr|]; eauto.
Qed.

(** The token goes from the thread that passes the baton into the baton
    of the runner that receives it (line 323). *)
Lemma inv_transfer s t r k c rj :
  invariant s → exited s = None →
  runner_at (runners s) t = Some r → pc r = Recv_store k c →
  runner_at (runners s) (thread_id c) = Some rj →
  invariant (jump t (Recv_unlock k (thread_id c))
    (with_runners (update_runner (thread_id c) (set_baton (Some c)) (runners s)) s)).
Proof.
  intros HI He Ht Hpc Hj.
  assert (holds_pc (pc r) = true) as Hh by (by rewrite Hpc).
  destruct (holder_tokens _ _ _ HI Ht Hh) as (Hb & Htok & Hfin).
  destruct (inv_position HI t r Ht) as [_ Hat]. rewrite Hpc in Hat.
  destruct Hat as [Hne Hin].
  assert (tokens_of rj = 0%nat) as Hj0 by (eapply (holder_alone s t r); eauto).
  assert (baton rj = None ∧ holds_pc (pc rj) = false) as [Hjb Hjh].
  { unfold tokens_of in Hj0. destruct (baton rj), (holds_pc (pc rj)); try lia; done. }
  set (rs1 := update_runner (thread_id c) (set_baton (Some c)) (runners s)).
  assert (runner_at rs1 t = Some r) as Ht1.
  { unfold rs1. by rewrite runner_at_update_ne. }
  assert (tokens (update_runner t (set_pc (Recv_unlock k (thread_id c))) rs1) = 1%nat) as Htok'.
  { pose proof (tokens_update _ _ (set_pc (Recv_unlock k (thread_id c))) _ Ht1) as H1.
    pose proof (tokens_update _ _ (set_baton (Some c)) _ Hj) as H2. fold rs1 in H2.
    assert (tokens_of r = 1%nat) by (unfold tokens_of; by rewrite Hb, Hh).
    assert (tokens_of (set_pc (Recv_unlock k (thread_id c)) r) = 0%nat)
      by (unfold tokens_of; simpl; by rewrite Hb).
    assert (tokens_of (set_baton (Some c) rj) = 1%nat)
      by (unfold tokens_of; simpl; by rewrite Hjh).
    lia. }
  split; simpl; fold rs1; rewrite ?Htok'.
  - do 2 apply runner_at_update_is_Some. apply HI.
  - lia.
  - intros i r'. rewrite runner_at_update. case_decide as Hi.
    + subst i. rewrite Ht1. intros [= <-]. split; simpl; [by rewrite Hb | done].
    + unfold rs1. rewrite runner_at_update. case_decide as Hi'.
      * subst i. rewrite Hj. intros [= <-]. split; simpl.
        -- by intros ? [= <-].
        -- by apply at_pc_quiet.
      * intros Hr'. apply position_zero. eapply (holder_alone s t r); eauto.
  - done.
  - by right.
  - intros i r'. rewrite runner_at_update. case_decide as Hi.
    + subst i. rewrite Ht1. intros [= <-] [Hf | Hend]; simpl in *; congruence.
    + unfold rs1. rewrite runner_at_update. case_decide as Hi'.
      * subst i. rewrite Hj. intros [= <-] Hend.
        assert (tokens (runners s) = 0%nat); [|lia].
        eapply (inv_ended HI _ rj); [done|]. by destruct Hend; [left | right].
      * intros Hr' Hend.
        assert (tokens (runners s) = 0%nat); [|lia]. by eapply inv_ended.
Qed.


Lemma update_update (rs : list (option Runner)) i f h :
  update_runner i h (update_runner i f rs) = update_runner i (h ∘ f) rs.
Proof.
  unfold update_runner at 1 3. rewrite runner_at_update, decide_True by done.
  destruct (runner_at rs i) as [r|] eqn:E; simpl.
  - unfold update_runner. rewrite E. apply list_insert_insert_eq.
  - unfold update_runner. by rewrite E.
Qed.

(** A thread without the token moves, or takes or leaves a mutex. *)
Lemma inv_quiet s t r f :
  invariant s → runner_at (runners s) t = Some r →
  holds_pc (pc r) = false → holds_pc (pc (f r)) = false →
  baton (f r) = baton r → finished (f r) = finished r →
  (endgame (pc (f r)) = true → ended r ∨ tokens (runners s) = 0%nat) →
  invariant (with_runners (update_runner t f (runners s)) s).
Proof.
  intros HI Ht Hh Hh' Hb Hf He. apply inv_update; [done|].
  intros r' Hr'. rewrite Ht in Hr'. injection Hr' as <-. split_and!.
  - unfold tokens_of. by rewrite Hb, Hh, Hh'.
  - intros [Hbat _]. split; [by rewrite Hb | by apply at_pc_quiet].
  - intros [H | H]; [left; left; congruence | by apply He].
Qed.

(** A write to a field the invariant does not read. *)
Lemma inv_mutex s j m :
  invariant s →
  invariant (with_runners (update_runner j (set_mutex m) (runners s)) s).
Proof. intros HI. apply inv_update; [done|]. intros r' Hr'. split_and!; auto. Qed.

Lemma in_call_next n c p g g' :
  in_call cfg trace g0 n c p g → stage cfg n c g = Running g' →
  in_call cfg trace g0 (S n) c p g'.
Proof.
  intros (d & g1 & Htr & Hrep & Hst) Hg. exists d, g1. split_and!; [done..|].
  by rewrite stages_S, Hst.
Qed.

Lemma in_call_stop n c p g why g' e :
  (n < 5)%nat → in_call cfg trace g0 n c p g →
  stage cfg n c g = Stopped why g' → e = Some why →
  race_over p g' e.
Proof.
  intros Hn (d & g1 & Htr & Hrep & Hst) Hg ->. exists d, c, g1.
  split_and!; [done..|].
  apply (stages_stopped cfg (S n)); [lia|]. by rewrite stages_S, Hst.
Qed.

Lemma in_call_done c p g g' :
  in_call cfg trace g0 4 c p g → dump_gate cfg c g = Running g' →
  ∃ d, last d = Some c ∧ idle cfg trace g0 d p g'.
Proof.
  intros (d & g1 & Htr & Hrep & Hst) Hg. exists (d ++ [c]).
  split; [apply last_snoc|]. split.
  - by rewrite <- app_assoc.
  - rewrite replay_snoc, Hrep. simpl.
    rewrite retraceCall_stages, stages_S, Hst. done.
Qed.

Local Ltac quiet_step Hpc tac :=
  eapply (inv_quiet _);
  [eassumption | eassumption | by rewrite Hpc | done | done | done | tac].

Lemma inv_finish s j :
  invariant s → tokens (runners s) = 0%nat →
  invariant (with_runners (update_runner j (set_finished true) (runners s)) s).
Proof. intros HI H0. apply inv_update; [done|]. intros r' Hr'. split_and!; auto. Qed.

Lemma runner_at_update_frame (rs : list (option Runner)) t j f r :
  runner_at rs t = Some r →
  (∀ x, pc (f x) = pc x ∧ baton (f x) = baton x) →
  ∃ r1, runner_at (update_runner j f rs) t = Some r1
        ∧ pc r1 = pc r ∧ baton r1 = baton r.
Proof.
  intros Ht Hf. rewrite runner_at_update. case_decide.
  - subst j. rewrite Ht. exists (f r). by destruct (Hf r).
  - by exists r.
Qed.

Local Ltac holder Hpc :=
  match goal with
  | HI : invariant ?s, Ht : runner_at (runners ?s) ?t = Some ?r |- _ =>
      let Hh := fresh "Hh" in
      assert (holds_pc (pc r) = true) as Hh by (by rewrite Hpc);
      destruct (holder_tokens _ _ _ HI Ht Hh) as (Hb & Htok & Hfin)
  end.

Local Ltac move_step Hpc :=
  match goal with
  | HI : invariant ?s, Ht : runner_at (runners ?s) ?t = Some ?r, H : pc ?r = _ |- _ =>
      unify H Hpc;
      eapply inv_move;
      [exact HI | exact Ht | by rewrite Hpc | done | done | done | simpl]
  end.

Local Ltac drop_step Hpc l :=
  match goal with
  | HI : invariant ?s, Ht : runner_at (runners ?s) ?t = Some ?r, H : pc ?r = _ |- _ =>
      unify H Hpc;
      eapply (inv_drop _ _ _ _ (set_pc l));
      [exact HI | exact Ht | by rewrite Hpc | done
  | unfold tokens_of; simpl;
        match goal with H : baton _ = None |- _ => by rewrite H end
      | ]
  end.

Theorem step_invariant s t s' :
  invariant s → step cfg t s = Some s' → invariant s'.
Proof.
  intros HI Hstep. unfold step in Hstep.
  destruct (exited s) eqn:He; [done|].
  destruct (runner_at (runners s) t) as [r|] eqn:Ht; simpl in Hstep; [|done].
  destruct (inv_position HI t r Ht) as [Hbat Hat].
  destruct (pc r) eqn:Hpc; simpl in Hat.
  - (* Run_parse *)
    destruct Hat as [-> [Htr Hrep]].
    destruct (parser s) eqn:Hp; injection Hstep as <-.
    + eapply inv_move; [exact HI | exact Ht | by rewrite Hpc | done..| ].
      simpl. by rewrite Hp.
    + eapply inv_move; [exact HI | exact Ht | by rewrite Hpc | done..| ].
      done.
  - (* Run_route *)
    assert (holds_pc (pc r) = true) as Hh by (by rewrite Hpc).
    destruct (holder_tokens _ _ _ HI Ht Hh) as (Hb & Htok & Hfin).
    destruct call as [c|].
    + destruct Hat as [-> [Htr Hrep]].
      unfold getForeRunner in Hstep. rewrite (getRunner_present _ _ _ Ht) in Hstep.
      case_decide as Htid; injection Hstep as <-.
      * eapply invariant_ext;
          [apply (inv_update s 0 (set_pc Race_lock ∘ set_baton (Some c))); [done|]
          | simpl; by rewrite update_update | done..].
        intros r' Hr'. rewrite Ht in Hr'.
        injection Hr' as <-. split_and!.
        -- unfold tokens_of. simpl. by rewrite Hb, Hpc.
        -- intros _. split; simpl; [|done]. intros ? [= <-]. split; [done|].
           by exists [], (glob s).
        -- intros [H | H]; simpl in *; [left; by left | done].
      * eapply inv_move; [exact HI | exact Ht | by rewrite Hpc | done..| ].
        simpl. split; [done|]. by exists [], (glob s).
    + destruct Hat as (-> & [Htr Hrep] & Hp). injection Hstep as <-.
      eapply (inv_drop _ _ _ _ (set_pc Returned)); [exact HI | exact Ht | by rewrite Hpc | done | | ].
      * unfold tokens_of. simpl. by rewrite Hb.
      * simpl. rewrite He. split; [done|]. rewrite Htr, Hp. done.
  - (* Race_lock *)
    destruct (mutex r); [done|]. injection Hstep as <-.
    quiet_step Hpc done.
  - (* Race_check *)
    destruct (negb (finished r) && bool_decide (baton r = None)) eqn:Hc.
    { injection Hstep as <-. quiet_step Hpc done. }
    destruct (finished r) eqn:Hf.
    { injection Hstep as <-. quiet_step Hpc ltac:(intros _; left; by left). }
    destruct (baton r) as [c|] eqn:Hb; [|done].
    injection Hstep as <-. destruct (Hbat c eq_refl) as [Htid Hin].
    apply (inv_update s); [done|]. intros r' Hr'. rewrite Ht in Hr'.
    injection Hr' as <-. split_and!.
    + unfold tokens_of. simpl. by rewrite Hb, Hpc.
    + intros _. split; simpl; [done|]. done.
    + intros [H | H]; simpl in *; [left; left; congruence | done].
  - (* Race_wait *)
    destruct (mutex r); [done|]. injection Hstep as <-.
    quiet_step Hpc done.
  - (* Race_exit *)
    injection Hstep as <-.
    destruct t; quiet_step Hpc ltac:(intros _; left; right; by rewrite Hpc).
  - (* Stop_loop *)
    assert (ended r) as Hend by (right; by rewrite Hpc).
    case_decide; [|destruct (runner_at (runners s) it)]; injection Hstep as <-;
      quiet_step Hpc ltac:(by left).
  - (* Race_unlock *)
    injection Hstep as <-.
    quiet_step Hpc ltac:(intros _; left; right; by rewrite Hpc).
  - (* Leg_before *)
    destruct Hat as [Htid Hin]. rewrite decide_True in Hstep by done.
    injection Hstep as <-. holder Hpc.
    destruct (snapshot_before cfg call (glob s)) as [g'|why g'] eqn:Hs; simpl.
    + move_step Hpc. split; [done|]. by apply (in_call_next 0 _ _ (glob s)).
    + drop_step Hpc Halted. by apply (in_call_stop 0 call _ (glob s) why g'); [lia|..].
  - (* Leg_callNo *)
    destruct Hat as [Htid Hin]. injection Hstep as <-.
    move_step Hpc. split; [done|]. by apply (in_call_next 1 _ _ (glob s)).
  - (* Leg_retrace *)
    destruct Hat as [Htid Hin]. injection Hstep as <-.
    move_step Hpc. split; [done|]. by apply (in_call_next 2 _ _ (glob s)).
  - (* Leg_after *)
    destruct Hat as [Htid Hin]. injection Hstep as <-. holder Hpc.
    destruct (snapshot_after cfg call (glob s)) as [g'|why g'] eqn:Hs; simpl.
    + move_step Hpc. split; [done|]. by apply (in_call_next 3 _ _ (glob s)).
    + drop_step Hpc Halted. by apply (in_call_stop 3 call _ (glob s) why g'); [lia|..].
  - (* Leg_gate *)
    destruct Hat as [Htid Hin]. injection Hstep as <-. holder Hpc.
    destruct (dump_gate cfg call (glob s)) as [g'|why g'] eqn:Hs; simpl.
    + move_step Hpc.
      destruct (in_call_done _ _ _ _ Hin Hs) as (d & Hlast & Hidle).
      exists d. split; [|done]. rewrite Hlast. simpl. by rewrite Htid.
    + drop_step Hpc Halted. by apply (in_call_stop 4 call _ (glob s) why g'); [lia|..].
  - (* Leg_parse *)
    destruct Hat as (d & Hlast & Htr & Hrep).
    destruct (parser s) eqn:Hp; injection Hstep as <-.
    + move_step Hpc. exists d. by rewrite Hp.
    + move_step Hpc. by exists d.
  - (* Leg_route *)
    holder Hpc. destruct call as [c|].
    + destruct Hat as (d & Hlast & Htr & Hrep).
      destruct (last d) as [l|] eqn:Hl; [|done]. injection Hlast as Hlast.
      case_decide as Htid; injection Hstep as <-.
      * move_step Hpc. split; [done|]. exists d, (glob s). split_and!; [done..|].
        simpl. rewrite Hl. simpl. rewrite decide_True by congruence. done.
      * move_step Hpc. split; [done|]. exists d, (glob s). split_and!; [done..|].
        simpl. rewrite Hl. simpl. rewrite decide_False by congruence. done.
    + destruct Hat as (d & Hlast & [Htr Hrep] & Hp).
      assert (race_over (parser s) (glob s) (exited s)) as Hover.
      { rewrite He. split; [done|]. rewrite Htr, Hp, app_nil_r. done. }
      destruct t as [|t].
      * injection Hstep as <-.
        eapply (inv_drop _ _ _ _ (set_pc Race_check ∘ set_finished true));
          [exact HI | exact Ht | by rewrite Hpc | done | | done].
        unfold tokens_of. simpl. by rewrite Hb.
      * unfold getForeRunner in Hstep.
        destruct (inv_fore HI) as [r0 H0].
        rewrite (getRunner_present _ _ _ H0) in Hstep. injection Hstep as <-.
        drop_step Hpc (Fin_lock FromFinishLine 0). done.
  - (* Pass_getRunner *)
    destruct (getRunner (thread_id call) (runners s)) as [rs1|] eqn:Hg;
      simpl in Hstep; [|done].
    injection Hstep as <-.
    pose proof (inv_getRunner s (thread_id call) rs1 HI Hg) as HI1.
    eapply inv_move;
      [exact HI1 | simpl; by eapply runner_at_getRunner_old | by rewrite Hpc
      | done | done | done | done].
  - (* Recv_lock *)
    destruct (runner_at (runners s) (thread_id call)) as [rj|] eqn:Hj;
      simpl in Hstep; [|done].
    destruct (mutex rj); [done|]. injection Hstep as <-.
    pose proof (inv_mutex s (thread_id call) (Some t) HI) as HI1.
    eapply inv_move;
      [exact HI1 | simpl; rewrite runner_at_update_ne; [exact Ht | by destruct Hat]
      | by rewrite Hpc | done | done | done | done].
  - (* Recv_store *)
    destruct (runner_at (runners s) (thread_id call)) as [rj|] eqn:Hj;
      simpl in Hstep; [|done].
    injection Hstep as <-. by eapply inv_transfer.
  - (* Recv_unlock *)
    injection Hstep as <-.
    pose proof (inv_mutex s leg None HI) as HI1.
    destruct (runner_at_update_frame (runners s) t leg (set_mutex None) r Ht)
      as (r1 & Hr1 & Hpc1 & Hb1); [done|]. rewrite Hpc in Hpc1.
    eapply (inv_quiet _ t r1); [exact HI1 | exact Hr1 | by rewrite Hpc1 | done..].
  - (* Recv_signal *)
    injection Hstep as <-. destruct k; quiet_step Hpc done.
  - (* Fin_lock *)
    destruct (runner_at (runners s) leg) as [rj|] eqn:Hj; simpl in Hstep; [|done].
    destruct (mutex rj); [done|]. injection Hstep as <-.
    pose proof (inv_mutex s leg (Some t) HI) as HI1.
    destruct (runner_at_update_frame (runners s) t leg (set_mutex (Some t)) r Ht)
      as (r1 & Hr1 & Hpc1 & Hb1); [done|]. rewrite Hpc in Hpc1.
    eapply (inv_quiet _ t r1); [exact HI1 | exact Hr1 | by rewrite Hpc1 | done.. |].
    intros _. left. right. by rewrite Hpc1.
  - (* Fin_store *)
    injection Hstep as <-.
    assert (tokens (runners s) = 0%nat) as H0.
    { eapply (inv_ended HI t r); [done|]. right. by rewrite Hpc. }
    pose proof (inv_finish s leg HI H0) as HI1.
    destruct (runner_at_update_frame (runners s) t leg (set_finished true) r Ht)
      as (r1 & Hr1 & Hpc1 & Hb1); [done|]. rewrite Hpc in Hpc1.
    eapply (inv_quiet _ t r1); [exact HI1 | exact Hr1 | by rewrite Hpc1 | done.. |].
    intros _. left. right. by rewrite Hpc1.
  - (* Fin_unlock *)
    injection Hstep as <-.
    pose proof (inv_mutex s leg None HI) as HI1.
    destruct (runner_at_update_frame (runners s) t leg (set_mutex None) r Ht)
      as (r1 & Hr1 & Hpc1 & Hb1); [done|]. rewrite Hpc in Hpc1.
    eapply (inv_quiet _ t r1); [exact HI1 | exact Hr1 | by rewrite Hpc1 | done.. |].
    intros _. left. right. by rewrite Hpc1.
  - (* Fin_signal *)
    injection Hstep as <-.
    destruct k; quiet_step Hpc ltac:(intros _; left; right; by rewrite Hpc).
  - done.
  - done.
Qed.

Lemma start_invariant : invariant (race_start trace g0).
Proof.
  split; simpl.
  - by eexists.
  - unfold tokens. simpl. lia.
  - intros i r Hr. destruct i as [|[|i]]; [|done..].
    injection Hr as <-. split; simpl; [done|]. by split.
  - unfold tokens. simpl. lia.
  - by right.
  - intros i r Hr He. destruct i as [|[|i]]; [|done..].
    injection Hr as <-. by destruct He.
Qed.

(** Every state the race can reach is a state of the sequence
    [replay trace g0], with at most one token. *)
Theorem reachable_invariant s : reachable cfg trace g0 s → invariant s.
Proof.
  induction 1 as [|s t s' _ IH Hstep]; [apply start_invariant|].
  by eapply step_invariant.
Qed.

Lemma run_schedule_reachable schedule s s' :
  reachable cfg trace g0 s → run_schedule cfg schedule s = Some s' →
  reachable cfg trace g0 s'.
Proof.
  revert s. induction schedule as [|t rest IH]; intros s Hs Hrun; simpl in Hrun.
  - by injection Hrun as <-.
  - destruct (step cfg t s) as [s1|] eqn:Hstep; simpl in Hrun; [|done].
    eapply IH; [|done]. by eapply reachable_step.
Qed.

Lemma tokens_pos (rs : list (option Runner)) :
  (0 < tokens rs)%nat → ∃ i r, runner_at rs i = Some r ∧ (0 < tokens_of r)%nat.
Proof.
  induction rs as [|o rs IH]; unfold tokens; simpl; [lia|].
  intros H. destruct o as [r|].
  - destruct (decide (0 < tokens_of r)%nat) as [Hr|Hr].
    + by exists 0%nat, r.
    + destruct IH as (i & r' & Hi & Hpos); [unfold tokens; lia|].
      by exists (S i), r'.
  - destruct IH as (i & r' & Hi & Hpos); [unfold tokens; lia|].
    by exists (S i), r'.
Qed.

Lemma invariant_phase s :
  invariant s → phase cfg trace g0 (glob s) (exited s).
Proof.
  intros HI. destruct (decide (tokens (runners s) = 0%nat)) as [H0|H0].
  - pose proof (inv_over HI H0) as Hover. unfold over in Hover.
    destruct (exited s) as [why|].
    + destruct Hover as (d & c & g1 & Htr & Hrep & Hstop).
      by eapply phase_stopped.
    + destruct Hover as [Hp Hrep].
      eapply (phase_between _ _ _ _ _ trace []); [by rewrite app_nil_r | done..].
  - destruct (tokens_pos (runners s)) as (i & r & Hr & Hpos); [lia|].
    destruct (inv_live HI) as [? | He]; [done|].
    destruct (inv_position HI i r Hr) as [Hbat Hat].
    assert (∀ n c, (n ≤ 4)%nat → in_call cfg trace g0 n c (parser s) (glob s) →
              phase cfg trace g0 (glob s) (exited s)) as Hcall.
    { intros n c Hn (d & g1 & Htr & Hrep & Hst). by eapply phase_in_call. }
    destruct (baton r) as [c|] eqn:Hb.
    { destruct (Hbat c eq_refl) as [_ Hin]. apply (Hcall 0%nat c); [lia | done]. }
    unfold tokens_of in Hpos. rewrite Hb in Hpos.
    destruct (pc r) eqn:Hpc; simpl in Hpos; try lia; simpl in Hat.
    + destruct Hat as [_ [Htr Hrep]]. by eapply phase_between.
    + destruct call as [c|].
      * destruct Hat as [_ [Htr Hrep]]. by eapply phase_between.
      * destruct Hat as (_ & [Htr Hrep] & _). by eapply phase_between.
    + apply (Hcall 0%nat call); [lia | apply Hat].
    + apply (Hcall 1%nat call); [lia | apply Hat].
    + apply (Hcall 2%nat call); [lia | apply Hat].
    + apply (Hcall 3%nat call); [lia | apply Hat].
    + apply (Hcall 4%nat call); [lia | apply Hat].
    + destruct Hat as (d & _ & Htr & Hrep). by eapply phase_between.
    + destruct call as [c|].
      * destruct Hat as (d & _ & Htr & Hrep). by eapply phase_between.
      * destruct Hat as (d & _ & [Htr Hrep] & _). by eapply phase_between.
    + apply (Hcall 0%nat call); [lia | apply Hat].
    + apply (Hcall 0%nat call); [lia | apply Hat].
    + apply (Hcall 0%nat call); [lia | apply Hat].
Qed.

End Preservation.

(** * The claims *)

(** ** The snapshot stage *)

Section Snapshots.

Context {X : External} (cfg : Config X).

Implicit Types (g : Globals X) (c : Call).

Lemma marks_app evs1 evs2 : marks (evs1 ++ evs2) = marks evs1 ++ marks evs2.
Proof. unfold marks. apply filter_app. Qed.

(** What [takeSnapshot] appends after its entry: no mark. *)
Lemma takeSnapshot_capture_out n ref g :
  ∃ evs, out (takeSnapshot_capture cfg n ref g) = out g ++ evs ∧ marks evs = [].
Proof.
  unfold takeSnapshot_capture.
  destruct (getSnapshot X (world g)) as [src|]; [|exists []; by rewrite app_nil_r].
  set (g1 := match snapshotPrefix cfg with Some _ => _ | None => g end).
  assert (∃ evs, out g1 = out g ++ evs ∧ marks evs = []) as (evs1 & Ho1 & Hm1).
  { unfold g1. destruct (snapshotPrefix cfg) as [prefix|]; [|exists []; by rewrite app_nil_r].
    destruct (String.eqb prefix "-"); [by eexists [_]|].
    destruct (writePNG X src (png_name prefix n) (world g)) as [ok w].
    destruct (ok && (0 <=? verbosity cfg)); simpl.
    - eexists. split; [simpl; rewrite <- app_assoc; reflexivity | done].
    - by eexists [_]. }
  destruct ref as [r|]; simpl.
  - exists (evs1 ++ [EvCompare n (compare X src r)]).
    rewrite Ho1, <- app_assoc. split; [done|]. by rewrite marks_app, Hm1.
  - by exists evs1.
Qed.

Lemma takeSnapshot_out n g :
  ∃ evs,
    out (final (takeSnapshot cfg n g)) = out g ++ EvTakeSnapshot n :: evs
    ∧ marks evs = []
    ∧ (if has_prefix cfg then ∃ g', takeSnapshot cfg n g = Running g'
       else takeSnapshot cfg n g = Stopped AssertFail (emit (EvTakeSnapshot n) g)).
Proof.
  unfold takeSnapshot, has_prefix.
  assert (∀ ref g1, out g1 = out g ++ [EvTakeSnapshot n] →
    ∃ evs, out (takeSnapshot_capture cfg n ref g1) = out g ++ EvTakeSnapshot n :: evs
           ∧ marks evs = []) as Hcap.
  { intros ref g1 H1.
    destruct (takeSnapshot_capture_out n ref g1) as (evs & Ho & Hm).
    exists evs. rewrite Ho, H1, <- app_assoc. done. }
  assert (∀ prefix,
    ∃ evs,
      out (final (match readPNG X (png_name prefix n) (world (emit (EvTakeSnapshot n) g)) with
                  | Some ref =>
                      Running (takeSnapshot_capture cfg n (Some ref)
                        (if 0 <=? verbosity cfg
                         then emit (EvStdout ("Read " +:+ png_name prefix n +:+ newline))
                                (emit (EvTakeSnapshot n) g)
                         else emit (EvTakeSnapshot n) g))
                  | None => Running (emit (EvTakeSnapshot n) g)
                  end)) = out g ++ EvTakeSnapshot n :: evs
      ∧ marks evs = []) as Hcmp.
  { intros prefix. destruct (readPNG X _ _) as [ref|]; simpl; [|by exists []].
    destruct (0 <=? verbosity cfg).
    - destruct (takeSnapshot_capture_out n (Some ref)
        (emit (EvStdout ("Read " +:+ png_name prefix n +:+ newline))
           (emit (EvTakeSnapshot n) g))) as (evs & Ho & Hm).
      exists (EvStdout ("Read " +:+ png_name prefix n +:+ newline) :: evs).
      rewrite Ho. simpl. rewrite <- !app_assoc. done.
    - by apply Hcap. }
  destruct (snapshotPrefix cfg) as [sp|], (comparePrefix cfg) as [cp|]; simpl.
  - destruct (Hcmp cp) as (evs & Ho & Hm). exists evs. split_and!; [done..|].
    destruct (readPNG X _ _); eauto.
  - destruct (Hcap None (emit (EvTakeSnapshot n) g) eq_refl) as (evs & Ho & Hm).
    exists evs. eauto.
  - destruct (Hcmp cp) as (evs & Ho & Hm). exists evs. split_and!; [done..|].
    destruct (readPNG X _ _); eauto.
  - by exists [].
Qed.

(** The snapshots and the dispatch of one [retraceCall], in order. *)
Lemma retraceCall_marks c g :
  ∃ evs,
    out (final (retraceCall cfg c g)) = out g ++ evs
    ∧ marks evs =
        (if doSnapshot cfg c && swapRenderTarget X c then
           EvTakeSnapshot (if endFrame X c then no c else wrap (no c - 1))
           :: (if has_prefix cfg then [EvRetrace c] else [])
         else
           EvRetrace c
           :: (if doSnapshot cfg c then [EvTakeSnapshot (no c)] else []))
    ∧ (1 <= no c <= UINT_MAX → wrap (no c - 1) = no c - 1).
Proof.
  assert (∀ g1, ∃ evs, out (final (dump_gate cfg c g1)) = out g1 ++ evs
                       ∧ marks evs = []) as Hgate.
  { intros g1. unfold dump_gate.
    destruct (dumpStateCallNo cfg <=? no c); [|exists []; by rewrite app_nil_r].
    destruct (dumpState X (world g1)); by eexists [_]. }
  assert (∀ g1, out (retrace c (assign_callNo c g1)) = out g1 ++ [EvRetrace c]) as Hret.
  { intros g1. by destruct (retrace_observed c (assign_callNo c g1)) as (_ & _ & ->). }
  unfold retraceCall, snapshot_before, snapshot_after.
  destruct (doSnapshot cfg c) eqn:Hdo, (swapRenderTarget X c) eqn:Hswap;
    cbn [andb negb and_then final].
  - (* a snapshot before the dispatch *)
    set (n := if endFrame X c then no c else wrap (no c - 1)).
    destruct (takeSnapshot_out n g) as (evs1 & Ho1 & Hm1 & Hrun).
    assert ((if endFrame X c then takeSnapshot cfg (no c) g
             else takeSnapshot cfg (wrap (no c - 1)) g) = takeSnapshot cfg n g) as ->
      by (unfold n; by destruct (endFrame X c)).
    destruct (has_prefix cfg).
    + destruct Hrun as [g1 Hg1]. rewrite Hg1 in *. cbn [and_then final] in *.
      destruct (Hgate (retrace c (assign_callNo c g1))) as (evs2 & Ho2 & Hm2).
      exists ([EvTakeSnapshot n] ++ evs1 ++ [EvRetrace c] ++ evs2).
      split_and!.
      * rewrite Ho2, Hret, Ho1. by rewrite <- !app_assoc.
      * by rewrite !marks_app, Hm1, Hm2.
      * unfold wrap, UINT_MAX. intros ?. apply Z.mod_small. lia.
    + rewrite Hrun. cbn [and_then final]. exists [EvTakeSnapshot n]. split_and!; [done..|].
      unfold wrap, UINT_MAX. intros ?. apply Z.mod_small. lia.
  - (* a snapshot after the dispatch *)
    destruct (takeSnapshot_out (no c) (retrace c (assign_callNo c g)))
      as (evs1 & Ho1 & Hm1 & Hrun).
    destruct (takeSnapshot cfg (no c) (retrace c (assign_callNo c g))) as [g1|why g1];
      cbn [and_then final] in *.
    + destruct (Hgate g1) as (evs2 & Ho2 & Hm2).
      exists ([EvRetrace c; EvTakeSnapshot (no c)] ++ evs1 ++ evs2). split_and!.
      * rewrite Ho2, Ho1, Hret. by rewrite <- !app_assoc.
      * by rewrite !marks_app, Hm1, Hm2.
      * unfold wrap, UINT_MAX. intros ?. apply Z.mod_small. lia.
    + exists ([EvRetrace c; EvTakeSnapshot (no c)] ++ evs1). split_and!.
      * rewrite Ho1, Hret. by rewrite <- !app_assoc.
      * by rewrite !marks_app, Hm1.
      * unfold wrap, UINT_MAX. intros ?. apply Z.mod_small. lia.
  - (* no snapshot *)
    destruct (Hgate (retrace c (assign_callNo c g))) as (evs2 & Ho2 & Hm2).
    exists ([EvRetrace c] ++ evs2). split_and!.
    + rewrite Ho2, Hret. by rewrite <- !app_assoc.
    + by rewrite !marks_app, Hm2.
    + unfold wrap, UINT_MAX. intros ?. apply Z.mod_small. lia.
  - destruct (Hgate (retrace c (assign_callNo c g))) as (evs2 & Ho2 & Hm2).
    exists ([EvRetrace c] ++ evs2). split_and!.
    + rewrite Ho2, Hret. by rewrite <- !app_assoc.
    + by rewrite !marks_app, Hm2.
    + unfold wrap, UINT_MAX. intros ?. apply Z.mod_small. lia.
Qed.

(** With a prefix set, [retraceCall] always reaches the dispatch. *)
Lemma retraceCall_dispatches c g :
  has_prefix cfg = true → EvRetrace c ∈ out (final (retraceCall cfg c g)).
Proof.
  intros Hp. destruct (retraceCall_marks c g) as (evs & -> & Hm & _).
  rewrite Hp in Hm. apply elem_of_app. right.
  assert (EvRetrace c ∈ marks evs) as Hin.
  { rewrite Hm. destruct (doSnapshot cfg c && swapRenderTarget X c);
      [do 2 constructor | constructor]. }
  unfold marks in Hin. by apply list_elem_of_filter in Hin as [_ ?].
Qed.

(** With a prefix set, [retraceCall] stops only at the gate. *)
Lemma stage_stop_status k c g why g' :
  has_prefix cfg = true → stage cfg k c g = Stopped why g' → why = Exit 0.
Proof.
  intros Hp.
  assert (∀ n g1, takeSnapshot cfg n g1 = Stopped why g' → why = Exit 0) as Hts.
  { intros n g1 H. destruct (takeSnapshot_out n g1) as (_ & _ & _ & Hrun).
    rewrite Hp in Hrun. destruct Hrun as [g3 Hg3]. congruence. }
  destruct k as [|[|[|[|k]]]]; simpl; try done.
  - unfold snapshot_before.
    destruct (doSnapshot cfg c && swapRenderTarget X c); [|done].
    destruct (endFrame X c); apply Hts.
  - unfold snapshot_after.
    destruct (doSnapshot cfg c && negb (swapRenderTarget X c)); [|done].
    apply Hts.
  - unfold dump_gate. destruct (dumpStateCallNo cfg <=? no c); [|done].
    destruct (dumpState X (world g)); [|done]. by intros [= <- _].
Qed.

Lemma retraceCall_stop_status c g why g' :
  has_prefix cfg = true → retraceCall cfg c g = Stopped why g' → why = Exit 0.
Proof.
  intros Hp. rewrite retraceCall_stages. generalize 5%nat. intros n. revert g'.
  induction n as [|n IH]; intros g'; [done|].
  rewrite stages_S. destruct (stages cfg n c g) as [g1|why1 g1]; simpl.
  - by apply stage_stop_status.
  - intros [= -> ->]. by apply (IH g').
Qed.

(** C3: [retraceCall] asks for a snapshot exactly when one of the two
    frequencies contains the call; for a call that swaps the render target
    the snapshot comes before the dispatch, under the number of the call
    when it ends a frame and under the number before it (as an unsigned)
    otherwise; for any other call it comes after the dispatch under the
    number of the call.  When neither prefix is set the [assert] of
    [takeSnapshot] stops the process, so a snapshot taken before the
    dispatch is then the last thing done. *)
Theorem retraceCall_snapshot_schedule c g :
  ∃ evs,
    out (final (retraceCall cfg c g)) = out g ++ evs
    ∧ marks evs =
        (if doSnapshot cfg c && swapRenderTarget X c then
           EvTakeSnapshot (if endFrame X c then no c else wrap (no c - 1))
           :: (if has_prefix cfg then [EvRetrace c] else [])
         else
           EvRetrace c
           :: (if doSnapshot cfg c then [EvTakeSnapshot (no c)] else []))
    ∧ (1 <= no c <= UINT_MAX → wrap (no c - 1) = no c - 1).
Proof. exact (retraceCall_marks c g). Qed.

(** C4, as the code has it: when [comparePrefix] is set and the reference
    image is missing, [takeSnapshot] returns at once; nothing is printed,
    nothing is compared and no snapshot is written, whatever
    [snapshotPrefix] is; the call is dispatched all the same. *)
Theorem missing_reference_skips prefix n c g :
  comparePrefix cfg = Some prefix →
  readPNG X (png_name prefix n) (world g) = None →
  takeSnapshot cfg n g = Running (emit (EvTakeSnapshot n) g)
  ∧ EvRetrace c ∈ out (final (retraceCall cfg c g)).
Proof.
  intros Hc Hr. split.
  - unfold takeSnapshot. rewrite Hc. simpl. rewrite Hr.
    by destruct (snapshotPrefix cfg).
  - apply retraceCall_dispatches. unfold has_prefix. rewrite Hc.
    by destruct (snapshotPrefix cfg).
Qed.

End Snapshots.

(** C4, as the claim has it, fails: with [-s out/ -c ref/] and no
    reference image on disk, [takeSnapshot] writes no file. *)
Lemma missing_reference_writes_nothing :
  snapshotPrefix Demo.snap_compare = Some "out/"
  ∧ comparePrefix Demo.snap_compare = Some "ref/"
  ∧ readPNG Demo.X (png_name "ref/" 1) [] = None
  ∧ takeSnapshot Demo.snap_compare 1 (Demo.globals [])
    = Running (emit (EvTakeSnapshot 1) (Demo.globals []))
  ∧ world (final (retraceCall Demo.snap_compare
                    (mkCall 1 0 Demo.END_FRAME "glXSwapBuffers") (Demo.globals [])))
    = [].
Proof. split_and!; reflexivity. Qed.

Lemma missing_reference_skips_witness :
  comparePrefix Demo.snap_compare = Some "ref/"
  ∧ readPNG Demo.X (png_name "ref/" 1) (world (Demo.globals [])) = None
  ∧ takeSnapshot Demo.snap_compare 1 (Demo.globals [])
    = Running (emit (EvTakeSnapshot 1) (Demo.globals []))
  ∧ EvRetrace (mkCall 1 0 Demo.END_FRAME "glXSwapBuffers")
    ∈ out (final (retraceCall Demo.snap_compare
                    (mkCall 1 0 Demo.END_FRAME "glXSwapBuffers") (Demo.globals []))).
Proof.
  split; [reflexivity|]. split; [reflexivity|].
  apply (missing_reference_skips Demo.snap_compare "ref/" 1); reflexivity.
Defined.

(** ** The relay race *)

Section Race.

Context {X : External} (cfg : Config X) (trace : list Call) (g0 : Globals X).

Implicit Types (s : State X) (r : Runner) (g : Globals X).

Lemma advance_retraced d g g' :
  advance d g g' → retraced (out g') = retraced (out g) ++ d.
Proof. intros (evs & ks & -> & <- & _). apply retraced_app. Qed.

Lemma advance_out d g g' : advance d g g' → ∃ evs, out g' = out g ++ evs.
Proof. intros (evs & ks & -> & _). by exists evs. Qed.

(** Where the globals stand, as a prefix of the stream. *)
Lemma phase_advance g e :
  phase cfg trace g0 g e → ∃ d rest, trace = d ++ rest ∧ advance d g0 g.
Proof.
  intros [d rest Htr Hrep _ | n d c rest g1 Hn Htr Hrep Hst _
         | d c rest g1 why Htr Hrep Hstop _].
  - exists d, rest. split; [done|]. by apply replay_advance in Hrep as [? _].
  - apply replay_advance in Hrep as [Hd _].
    apply stages_advance in Hst as [Hc _].
    pose proof (advance_keeps _ _ (relay_keeps (last d) c g1)) as Hr.
    pose proof (advance_trans _ _ _ _ _ Hd (advance_trans _ _ _ _ _ Hr Hc)) as Hall.
    case_decide; simpl in Hall.
    + exists (d ++ [c]), rest. split; [by rewrite <- app_assoc | done].
    + exists d, (c :: rest). split; [done|]. by rewrite app_nil_r in Hall.
  - apply replay_advance in Hrep as [Hd _].
    pose proof (advance_keeps _ _ (relay_keeps (last d) c g1)) as Hr.
    destruct (stages_final_advance cfg 5 c (relay (last d) c g1)) as (l & Hl & Hc).
    rewrite <- retraceCall_stages, Hstop in Hc. simpl in Hc.
    pose proof (advance_trans _ _ _ _ _ Hd (advance_trans _ _ _ _ _ Hr Hc)) as Hall.
    destruct Hl as [-> | [-> _]]; simpl in Hall.
    + exists d, (c :: rest). split; [done|]. by rewrite app_nil_r in Hall.
    + exists (d ++ [c]), rest. split; [by rewrite <- app_assoc | done].
Qed.

Lemma baton_at_update (rs : list (option Runner)) i j f :
  baton_at (update_runner i f rs) j =
  if decide (i = j) then r ← runner_at rs i; baton (f r) else baton_at rs j.
Proof.
  unfold baton_at. rewrite runner_at_update. case_decide; [|done].
  by destruct (runner_at rs i).
Qed.

Lemma baton_at_update_keep (rs : list (option Runner)) i j f :
  (∀ r, baton (f r) = baton r) →
  baton_at (update_runner i f rs) j = baton_at rs j.
Proof.
  intros Hf. rewrite baton_at_update. case_decide; [subst|done].
  unfold baton_at. destruct (runner_at rs j); simpl; [apply Hf | done].
Qed.

Lemma baton_at_getRunner (rs : list (option Runner)) leg rs' j :
  getRunner leg rs = Some rs' → baton_at rs' j = baton_at rs j.
Proof.
  intros Hg. unfold baton_at. rewrite (runner_at_getRunner _ _ _ _ Hg).
  case_decide; [subst|done]. by destruct (runner_at rs j), j.
Qed.

Lemma pc_at_update_eq (rs : list (option Runner)) t f r :
  runner_at rs t = Some r → pc_at (update_runner t f rs) t = Some (pc (f r)).
Proof. intros H. unfold pc_at. by rewrite (runner_at_update_eq _ _ _ _ H). Qed.

Lemma inside_holds l : inside_pc l = true → holds_pc l = true.
Proof. by destruct l. Qed.

(** Two runners cannot both have the token. *)
Lemma one_token s i j ri rj :
  Inv cfg trace g0 s →
  runner_at (runners s) i = Some ri → runner_at (runners s) j = Some rj →
  (0 < tokens_of ri)%nat → (0 < tokens_of rj)%nat → i = j.
Proof.
  intros HI Hi Hj Hti Htj. destruct (decide (i = j)) as [|Hne]; [done|].
  pose proof (tokens_two _ _ _ _ _ Hne Hi Hj). pose proof (inv_tokens HI). lia.
Qed.


Local Ltac same_batons Hne :=
  exfalso; apply Hne; unfold jump, resume; simpl;
  repeat (rewrite ?baton_at_update_keep by done; simpl);
  reflexivity.

(** Who fills a baton and who empties it. *)
Lemma step_baton s t s' j :
  Inv cfg trace g0 s → step cfg t s = Some s' →
  baton_at (runners s') j ≠ baton_at (runners s) j →
  ∃ c,
    (baton_at (runners s) j = None ∧ baton_at (runners s') j = Some c
     ∧ thread_id c = j
     ∧ ((∃ k, pc_at (runners s) t = Some (Recv_store k c) ∧ t ≠ j)
        ∨ (pc_at (runners s) t = Some (Run_route (Some c))
           ∧ t = 0%nat ∧ j = 0%nat)))
    ∨ (baton_at (runners s) j = Some c ∧ baton_at (runners s') j = None
       ∧ t = j ∧ pc_at (runners s) t = Some Race_check
       ∧ pc_at (runners s') t = Some (Leg_before c)).
Proof.
  intros HI Hstep Hne. unfold step in Hstep.
  destruct (exited s) eqn:He; [done|].
  destruct (runner_at (runners s) t) as [r|] eqn:Ht; simpl in Hstep; [|done].
  destruct (inv_position HI t r Ht) as [Hbat Hat].
  assert (pc_at (runners s) t = Some (pc r)) as Hpcat by (unfold pc_at; by rewrite Ht).
  destruct (pc r) eqn:Hpc; simpl in Hat.
  - destruct (parser s); injection Hstep as <-; same_batons Hne.
  - (* RelayRace::run stores the first call, line 405 *)
    destruct call as [c|]; [|injection Hstep as <-; same_batons Hne].
    destruct Hat as [-> _].
    unfold getForeRunner in Hstep. rewrite (getRunner_present _ _ _ Ht) in Hstep.
    case_decide as Htid; injection Hstep as <-; [|same_batons Hne].
    assert (holds_pc (pc r) = true) as Hh by (by rewrite Hpc).
    destruct (holder_tokens cfg trace g0 _ _ _ HI Ht Hh) as (Hb & _ & _).
    unfold jump in Hne |- *. simpl in Hne |- *.
    rewrite baton_at_update_keep in Hne |- * by done.
    rewrite baton_at_update in Hne |- *. case_decide as Hj; [subst j|done].
    exists c. left. rewrite Ht. simpl. unfold baton_at. rewrite Ht. simpl.
    split_and!; [done..|]. right. by rewrite Hpcat.
  - destruct (mutex r); [done|]. injection Hstep as <-. same_batons Hne.
  - (* runRace takes the call out of its own baton, lines 270-271 *)
    destruct (negb (finished r) && bool_decide (baton r = None)).
    { injection Hstep as <-. same_batons Hne. }
    destruct (finished r). { injection Hstep as <-. same_batons Hne. }
    destruct (baton r) as [c|] eqn:Hb; injection Hstep as <-; [|same_batons Hne].
    simpl in Hne |- *. rewrite baton_at_update in Hne |- *.
    case_decide as Hj; [subst j|done].
    exists c. right. rewrite Ht. simpl. unfold baton_at. rewrite Ht. simpl.
    split_and!; [done..|]. by rewrite (pc_at_update_eq _ _ _ _ Ht).
  - destruct (mutex r); [done|]. injection Hstep as <-. same_batons Hne.
  - injection Hstep as <-. same_batons Hne.
  - case_decide; [|destruct (runner_at (runners s) it)]; injection Hstep as <-;
      same_batons Hne.
  - injection Hstep as <-. same_batons Hne.
  - case_decide; injection Hstep as <-;
      [destruct (snapshot_before cfg call (glob s))|]; same_batons Hne.
  - injection Hstep as <-. same_batons Hne.
  - injection Hstep as <-. same_batons Hne.
  - injection Hstep as <-.
    destruct (snapshot_after cfg call (glob s)); same_batons Hne.
  - injection Hstep as <-.
    destruct (dump_gate cfg call (glob s)); same_batons Hne.
  - destruct (parser s); injection Hstep as <-; same_batons Hne.
  - destruct call as [c|]; [case_decide; injection Hstep as <-; same_batons Hne|].
    destruct t; [injection Hstep as <-; same_batons Hne|].
    unfold getForeRunner in Hstep. destruct (inv_fore HI) as [r0 H0].
    rewrite (getRunner_present _ _ _ H0) in Hstep. injection Hstep as <-.
    same_batons Hne.
  - destruct (getRunner (thread_id call) (runners s)) as [rs1|] eqn:Hg;
      simpl in Hstep; [|done].
    injection Hstep as <-. exfalso. apply Hne. unfold jump. simpl.
    rewrite baton_at_update_keep by done. apply (baton_at_getRunner _ _ _ _ Hg).
  - destruct (runner_at (runners s) (thread_id call)) as [rj|]; simpl in Hstep; [|done].
    destruct (mutex rj); [done|]. injection Hstep as <-. same_batons Hne.
  - (* receiveBaton stores the call, line 323 *)
    destruct (runner_at (runners s) (thread_id call)) as [rj|] eqn:Hj;
      simpl in Hstep; [|done].
    injection Hstep as <-. destruct Hat as [Htid _].
    assert (holds_pc (pc r) = true) as Hh by (by rewrite Hpc).
    assert (tokens_of rj = 0%nat) as Hj0
      by (eapply (holder_alone cfg trace g0 s t r); eauto).
    assert (baton rj = None) as Hjb.
    { unfold tokens_of in Hj0. destruct (baton rj); [lia | done]. }
    unfold jump in Hne |- *. simpl in Hne |- *.
    rewrite baton_at_update_keep in Hne |- * by done.
    rewrite baton_at_update in Hne |- *. case_decide as Hj'; [subst j|done].
    exists call. left. rewrite Hj. simpl. unfold baton_at. rewrite Hj. simpl.
    split_and!; [done..|]. left. exists k. by rewrite Hpcat.
  - injection Hstep as <-. same_batons Hne.
  - injection Hstep as <-. same_batons Hne.
  - destruct (runner_at (runners s) leg) as [rj|]; simpl in Hstep; [|done].
    destruct (mutex rj); [done|]. injection Hstep as <-. same_batons Hne.
  - injection Hstep as <-. same_batons Hne.
  - injection Hstep as <-. same_batons Hne.
  - injection Hstep as <-. same_batons Hne.
  - done.
  - done.
Qed.
Lemma after_schedule_reachable schedule :
  reachable cfg trace g0 (after_schedule cfg trace g0 schedule).
Proof.
  unfold after_schedule.
  destruct (run_schedule cfg schedule (race_start trace g0)) as [s|] eqn:E; simpl.
  - eapply run_schedule_reachable; [constructor | done].
  - constructor.
Qed.

(** C1: at every state of a replay at most one runner is inside
    [dispatch], [parse_call] or [takeSnapshot], at most one baton is
    filled, only the scheduler (the thread that had the control, through
    [receiveBaton], or [RelayRace::run] for the first call) fills a baton
    and only the runner that owns it empties it. *)
Theorem one_runner_at_a_time s :
  reachable cfg trace g0 s →
  one_inside s ∧ one_baton s ∧ baton_discipline cfg s.
Proof.
  intros HI%reachable_invariant. split_and!.
  - intros i j ri rj Hi Hj Hii Hij.
    apply inside_holds in Hii, Hij.
    eapply (one_token s i j ri rj); [done..| |]; unfold tokens_of.
    + rewrite Hii. lia.
    + rewrite Hij. lia.
  - intros i j [ci Hi] [cj Hj]. unfold baton_at in Hi, Hj.
    destruct (runner_at (runners s) i) as [ri|] eqn:Hri; [|done].
    destruct (runner_at (runners s) j) as [rj|] eqn:Hrj; [|done].
    simpl in Hi, Hj.
    eapply (one_token s i j ri rj); [done..| |]; unfold tokens_of.
    + rewrite Hi. lia.
    + rewrite Hj. lia.
  - intros t s' j. by apply step_baton.
Qed.


Local Ltac same_out :=
  exists []; unfold jump, resume; simpl; by rewrite app_nil_r.

(** A statement of a thread only appends to the record. *)
Lemma step_out s t s' :
  step cfg t s = Some s' → ∃ evs, out (glob s') = out (glob s) ++ evs.
Proof.
  intros Hstep. unfold step in Hstep.
  destruct (exited s); [done|].
  destruct (runner_at (runners s) t) as [r|]; simpl in Hstep; [|done].
  assert (∀ k c l, ∃ evs,
    out (glob (resume t (stage cfg k c (glob s)) l s)) = out (glob s) ++ evs) as Hres.
  { intros k c l. destruct (advance_out _ _ _ (stage_advance cfg k c (glob s))) as [evs Hevs].
    exists evs. rewrite <- Hevs. by destruct (stage cfg k c (glob s)). }
  destruct (pc r).
  - destruct (parser s); injection Hstep as <-; same_out.
  - destruct call;
      [destruct (getForeRunner _); simpl in Hstep; [case_decide|done]|];
      injection Hstep as <-; same_out.
  - destruct (mutex r); [done|]. injection Hstep as <-. same_out.
  - destruct (negb (finished r) && bool_decide (baton r = None));
      [|destruct (finished r); [|destruct (baton r)]];
      injection Hstep as <-; same_out.
  - destruct (mutex r); [done|]. injection Hstep as <-. same_out.
  - injection Hstep as <-. same_out.
  - case_decide; [|destruct (runner_at (runners s) it)]; injection Hstep as <-;
      same_out.
  - injection Hstep as <-. same_out.
  - case_decide; injection Hstep as <-; [apply (Hres 0%nat) | same_out].
  - injection Hstep as <-. same_out.
  - injection Hstep as <-.
    apply (advance_out _ _ _ (stage_advance cfg 2 call (glob s))).
  - injection Hstep as <-. apply (Hres 3%nat).
  - injection Hstep as <-. apply (Hres 4%nat).
  - destruct (parser s); injection Hstep as <-; same_out.
  - destruct call as [c|];
      [case_decide
      | destruct t; [|destruct (getForeRunner _); simpl in Hstep; [|done]]];
      injection Hstep as <-; try same_out.
    simpl. by eexists [_].
  - destruct (getRunner _ _); simpl in Hstep; [|done].
    injection Hstep as <-. same_out.
  - destruct (runner_at (runners s) (thread_id call)) as [rj|]; simpl in Hstep; [|done].
    destruct (mutex rj); [done|]. injection Hstep as <-. same_out.
  - destruct (runner_at (runners s) (thread_id call)) as [rj|]; simpl in Hstep; [|done].
    injection Hstep as <-. same_out.
  - injection Hstep as <-. same_out.
  - injection Hstep as <-. same_out.
  - destruct (runner_at (runners s) leg) as [rj|]; simpl in Hstep; [|done].
    destruct (mutex rj); [done|]. injection Hstep as <-. same_out.
  - injection Hstep as <-. same_out.
  - injection Hstep as <-. same_out.
  - injection Hstep as <-. same_out.
  - done.
  - done.
Qed.

(** [retraceCall] stops before the dispatch or after it. *)
Lemma retraceCall_stopped c g why g' :
  retraceCall cfg c g = Stopped why g' →
  (advance [] g g' ∧ callNo g' = callNo g)
  ∨ (advance [c] g g' ∧ callNo g' = no c).
Proof.
  unfold retraceCall. intros H.
  pose proof (snapshot_before_keeps cfg c g) as H0.
  destruct (snapshot_before cfg c g) as [g1|why1 g1]; simpl in H, H0.
  - right.
    pose proof (advance_keeps _ _ H0) as A0.
    pose proof (advance_trans _ _ _ _ _ A0 (advance_assign c g1)) as A1.
    pose proof (advance_trans _ _ _ _ _ A1 (advance_retrace c (assign_callNo c g1))) as A2.
    simpl in A2.
    assert (callNo (retrace c (assign_callNo c g1)) = no c) as C2
      by (by destruct (retrace_observed c (assign_callNo c g1)) as (_ & -> & _)).
    set (g2 := retrace c (assign_callNo c g1)) in *.
    pose proof (snapshot_after_keeps cfg c g2) as H3.
    destruct (snapshot_after cfg c g2) as [g3|why3 g3]; simpl in H, H3.
    + pose proof (dump_gate_keeps cfg c g3) as H4. rewrite H in H4. simpl in H4.
      pose proof (keeps_trans _ _ _ H3 H4) as K.
      split.
      * pose proof (advance_trans _ _ _ _ _ A2 (advance_keeps _ _ K)) as A.
        by rewrite app_nil_r in A.
      * destruct K as (_ & -> & _). done.
    + injection H as <- <-. split.
      * pose proof (advance_trans _ _ _ _ _ A2 (advance_keeps _ _ H3)) as A.
        by rewrite app_nil_r in A.
      * destruct H3 as (_ & -> & _). done.
  - injection H as <- <-. left. split; [by apply advance_keeps | apply H0].
Qed.

(** [callNo] is the number of the call being dispatched, or else of the
    last call retraced (what it was at the start, when there is none). *)
Lemma invariant_callNo s :
  Inv cfg trace g0 s →
  (∃ i r c, runner_at (runners s) i = Some r ∧ pc r = Leg_retrace c
            ∧ callNo (glob s) = no c)
  ∨ (∃ d rest, trace = d ++ rest ∧ advance d g0 (glob s)
               ∧ callNo (glob s) = from_option no (callNo g0) (last d)).
Proof.
  intros HI.
  assert (∀ d rest, trace = d ++ rest → replay cfg d g0 = Running (glob s) →
    ∃ d rest, trace = d ++ rest ∧ advance d g0 (glob s)
              ∧ callNo (glob s) = from_option no (callNo g0) (last d)) as Hidle.
  { intros d rest Htr Hrep. exists d, rest. split; [done|].
    by apply (replay_advance cfg). }
  assert (∀ n c p, (n ≤ 4)%nat → n ≠ 2%nat →
    in_call cfg trace g0 n c p (glob s) →
    ∃ d rest, trace = d ++ rest ∧ advance d g0 (glob s)
              ∧ callNo (glob s) = from_option no (callNo g0) (last d)) as Hcall.
  { intros n c p Hn Hn2 (d & g1 & Htr & Hrep & Hst).
    apply replay_advance in Hrep as [Hd Hcd].
    apply stages_advance in Hst as [Hc Hcc].
    pose proof (relay_keeps (last d) c g1) as Hk.
    pose proof (advance_trans _ _ _ _ _ Hd
                  (advance_trans _ _ _ _ _ (advance_keeps _ _ Hk) Hc)) as Hall.
    simpl in Hall. destruct Hk as (_ & Hkc & _).
    repeat case_decide; try lia.
    - exists (d ++ [c]), p. split_and!; [by rewrite <- app_assoc | done |].
      by rewrite last_snoc.
    - exists d, (c :: p). rewrite app_nil_r in Hall. split_and!; [done..|].
      congruence. }
  destruct (decide (tokens (runners s) = 0%nat)) as [H0|H0].
  - right. pose proof (inv_over HI H0) as Hover. unfold over in Hover.
    destruct (exited s) as [why|].
    + destruct Hover as (d & c & g1 & Htr & Hrep & Hstop).
      apply replay_advance in Hrep as [Hd Hcd].
      pose proof (relay_keeps (last d) c g1) as Hk.
      apply retraceCall_stopped in Hstop as [[Ha Hc] | [Ha Hc]].
      * pose proof (advance_trans _ _ _ _ _ Hd
                      (advance_trans _ _ _ _ _ (advance_keeps _ _ Hk) Ha)) as Hall.
        simpl in Hall. rewrite app_nil_r in Hall. destruct Hk as (_ & Hkc & _).
        exists d, (c :: parser s). split_and!; [done..|]. congruence.
      * pose proof (advance_trans _ _ _ _ _ Hd
                      (advance_trans _ _ _ _ _ (advance_keeps _ _ Hk) Ha)) as Hall.
        simpl in Hall.
        exists (d ++ [c]), (parser s).
        split_and!; [by rewrite <- app_assoc | done | by rewrite last_snoc].
    + destruct Hover as [Hp Hrep]. apply (Hidle trace []); [by rewrite app_nil_r | done].
  - destruct (tokens_pos (runners s)) as (i & r & Hr & Hpos); [lia|].
    destruct (inv_position HI i r Hr) as [Hbat Hat].
    destruct (baton r) as [c|] eqn:Hb.
    { right. destruct (Hbat c eq_refl) as [_ Hin]. apply (Hcall 0%nat c (parser s)); [lia | done | done]. }
    unfold tokens_of in Hpos. rewrite Hb in Hpos.
    destruct (pc r) eqn:Hpc; simpl in Hpos; try lia; simpl in Hat.
    + right. destruct Hat as [_ [Htr Hrep]]. by eapply Hidle.
    + right. destruct call as [c|].
      * destruct Hat as [_ [Htr Hrep]]. by eapply Hidle.
      * destruct Hat as (_ & [Htr Hrep] & _). by eapply Hidle.
    + right. apply (Hcall 0%nat call (parser s)); [lia | done | apply Hat].
    + right. apply (Hcall 1%nat call (parser s)); [lia | done | apply Hat].
    + left. exists i, r, call. split_and!; [done..|].
      destruct Hat as [_ (d & g1 & _ & _ & Hst)].
      by apply stages_advance in Hst as [_ ->].
    + right. apply (Hcall 3%nat call (parser s)); [lia | done | apply Hat].
    + right. apply (Hcall 4%nat call (parser s)); [lia | done | apply Hat].
    + right. destruct Hat as (d & _ & Htr & Hrep). by eapply Hidle.
    + right. destruct call as [c|].
      * destruct Hat as (d & _ & Htr & Hrep). by eapply Hidle.
      * destruct Hat as (d & _ & [Htr Hrep] & _). by eapply Hidle.
    + right. apply (Hcall 0%nat call (parser s)); [lia | done | apply Hat].
    + right. apply (Hcall 0%nat call (parser s)); [lia | done | apply Hat].
    + right. apply (Hcall 0%nat call (parser s)); [lia | done | apply Hat].
Qed.

(** C2: calls are dispatched one after the other in the order of the
    stream, whatever their threads: what has been retraced is a prefix of
    the stream, a dispatch in progress is that of the next call (so that
    of an earlier call, of the same thread or not, is complete), and a
    call of another thread is handed over as soon as it is parsed. *)
Theorem dispatch_in_stream_order s :
  reachable cfg trace g0 s →
  in_stream_order trace g0 s ∧ eager_handoff cfg s ∧ record_grows cfg s.
Proof.
  intros HI%reachable_invariant. split_and!.
  - destruct (phase_advance _ _ (invariant_phase cfg trace g0 s HI))
      as (d & rest & Htr & Hadv).
    apply advance_retraced in Hadv as Hret.
    exists d, rest. split_and!; [done..|].
    intros i r b Hr Hpc.
    destruct (inv_position HI i r Hr) as [_ Hat]. rewrite Hpc in Hat.
    destruct Hat as [Htid (d' & g1 & Htr' & Hrep & Hst)]. split; [done|].
    apply replay_advance in Hrep as [Hd _].
    apply stages_advance in Hst as [Hc _].
    pose proof (advance_keeps _ _ (relay_keeps (last d') b g1)) as Hk.
    pose proof (advance_trans _ _ _ _ _ Hd (advance_trans _ _ _ _ _ Hk Hc)) as Hall.
    simpl in Hall. rewrite app_nil_r in Hall.
    apply advance_retraced in Hall. rewrite Hret in Hall.
    apply app_inv_head in Hall. subst d'.
    exists (parser s). rewrite Htr in Htr'. by apply app_inv_head in Htr'.
  - intros t r c Hr Hpc Hne.
    assert (holds_pc (pc r) = true) as Hh by (by rewrite Hpc).
    destruct (holder_tokens cfg trace g0 _ _ _ HI Hr Hh) as (_ & Htok & _).
    destruct (inv_live HI) as [? | He]; [lia|].
    eexists. split_and!.
    + unfold step. rewrite He, Hr. simpl. rewrite Hpc.
      by rewrite decide_False.
    + unfold jump. simpl. by rewrite (pc_at_update_eq _ _ _ _ Hr).
    + simpl. rewrite retraced_app. simpl. by rewrite app_nil_r.
  - intros t s'. apply step_out.
Qed.

(** C6: when a runner has just dispatched a call, [callNo] is the number
    of that call, and the call is the last one retraced. *)
Theorem callNo_after_dispatch s i r c :
  reachable cfg trace g0 s →
  runner_at (runners s) i = Some r → pc r = Leg_after c →
  callNo (glob s) = no c ∧ last (retraced (out (glob s))) = Some c.
Proof.
  intros HI%reachable_invariant Hr Hpc.
  destruct (inv_position HI i r Hr) as [_ Hat]. rewrite Hpc in Hat.
  destruct Hat as [_ (d & g1 & _ & _ & Hst)].
  apply stages_advance in Hst as [Ha Hc]. split; [done|].
  apply advance_retraced in Ha. simpl in Ha. rewrite Ha. apply last_snoc.
Qed.

(** Once the process has exited no thread moves. *)
Lemma exited_stuck s t : exited s ≠ None → step cfg t s = None.
Proof. unfold step. by destruct (exited s). Qed.

(** C5: after the dispatch of a call, at the gate: when the number of the
    call is at or past [dumpStateCallNo] and [dumpState] succeeds, the
    process exits with status 0 and no thread moves any more, so no later
    call is dispatched; when the number is below the threshold the gate
    does nothing.  The test is on the order, not on equality, so the dump
    is made at the first call at or past the threshold. *)
Theorem dump_gate_exits s t r c :
  reachable cfg trace g0 s →
  runner_at (runners s) t = Some r → pc r = Leg_gate c →
  last (retraced (out (glob s))) = Some c
  ∧ (dumpStateCallNo cfg <= no c → dumpState X (world (glob s)) = true →
     ∃ s', step cfg t s = Some s' ∧ exited s' = Some (Exit 0)
           ∧ (∀ t', step cfg t' s' = None)
           ∧ retraced (out (glob s')) = retraced (out (glob s)))
  ∧ (no c < dumpStateCallNo cfg →
     ∃ s', step cfg t s = Some s' ∧ exited s' = None ∧ glob s' = glob s
           ∧ pc_at (runners s') t = Some Leg_parse).
Proof.
  intros HI%reachable_invariant Hr Hpc.
  assert (holds_pc (pc r) = true) as Hh by (by rewrite Hpc).
  destruct (holder_tokens cfg trace g0 _ _ _ HI Hr Hh) as (_ & Htok & _).
  destruct (inv_live HI) as [? | He]; [lia|].
  destruct (inv_position HI t r Hr) as [_ Hat]. rewrite Hpc in Hat.
  destruct Hat as [_ (d & g1 & _ & _ & Hst)].
  apply stages_advance in Hst as [Ha _].
  apply advance_retraced in Ha. simpl in Ha.
  split_and!.
  - rewrite Ha. apply last_snoc.
  - intros Hno Hdump. eexists. split_and!.
    + unfold step. rewrite He, Hr. simpl. rewrite Hpc. reflexivity.
    + unfold dump_gate. rewrite (proj2 (Z.leb_le _ _) Hno), Hdump. done.
    + intros t'. apply exited_stuck.
      unfold dump_gate. rewrite (proj2 (Z.leb_le _ _) Hno), Hdump. done.
    + unfold dump_gate. rewrite (proj2 (Z.leb_le _ _) Hno), Hdump. simpl.
      rewrite retraced_app. simpl. by rewrite app_nil_r.
  - intros Hno. eexists. split_and!.
    + unfold step. rewrite He, Hr. simpl. rewrite Hpc. reflexivity.
    + unfold dump_gate. rewrite (proj2 (Z.leb_gt _ _) Hno). done.
    + unfold dump_gate. rewrite (proj2 (Z.leb_gt _ _) Hno). done.
    + unfold dump_gate. rewrite (proj2 (Z.leb_gt _ _) Hno).
      unfold resume, jump. simpl. by rewrite (pc_at_update_eq _ _ _ _ Hr).
Qed.

Lemma run_returned_at s :
  exited s = None → pc_at (runners s) 0 = Some Returned → run_returned s.
Proof.
  intros He Hpc. split; [done|]. unfold pc_at in Hpc.
  destruct (runner_at (runners s) 0) as [r|]; [|done].
  exists r. split; [done|]. by injection Hpc.
Qed.

(** The race against the sequence: whatever the schedule, when [run] has
    returned the globals are those of the calls retraced one after the
    other in stream order, and when the process has stopped they are
    those of that sequence at its stop. *)
Theorem race_refines_replay s :
  reachable cfg trace g0 s →
  (run_returned s → replay cfg trace g0 = Running (glob s))
  ∧ (∀ why, exited s = Some why → replay cfg trace g0 = Stopped why (glob s)).
Proof.
  intros HI%reachable_invariant. split.
  - intros (He & r & Hr & Hpc).
    assert (tokens (runners s) = 0%nat) as H0.
    { eapply (inv_ended HI 0%nat r); [done|]. right. by rewrite Hpc. }
    pose proof (inv_over HI H0) as Hover. unfold over in Hover.
    rewrite He in Hover. apply Hover.
  - intros why He. destruct (inv_live HI) as [H0 | ?]; [|congruence].
    pose proof (inv_over HI H0) as Hover. unfold over in Hover.
    rewrite He in Hover. destruct Hover as (d & c & g1 & -> & Hrep & Hstop).
    unfold replay in *. rewrite replay_from_app, Hrep. cbn [and_then].
    destruct (last d); cbn [from_option replay_from]; by rewrite Hstop.
Qed.

Lemma takeSnapshot_assert n g g' :
  takeSnapshot cfg n g = Stopped AssertFail g' →
  has_prefix cfg = false ∧ g' = emit (EvTakeSnapshot n) g.
Proof.
  intros H. destruct (takeSnapshot_out cfg n g) as (_ & _ & _ & Hp).
  destruct (has_prefix cfg); [destruct Hp as [g1 Hg1]; congruence|].
  split; [done|]. congruence.
Qed.

(** A statement that ends the process on a failed [assert] is a call of
    [takeSnapshot] with neither prefix set. *)
Lemma assert_fails_in_takeSnapshot s t s' :
  reachable cfg trace g0 s → step cfg t s = Some s' →
  exited s' = Some AssertFail →
  has_prefix cfg = false
  ∧ ∃ call,
      thread_id call = t ∧ doSnapshot cfg call = true
      ∧ (pc_at (runners s) t = Some (Leg_before call)
         ∨ pc_at (runners s) t = Some (Leg_after call))
      ∧ glob s' = emit (EvTakeSnapshot (snapshot_index X call)) (glob s).
Proof.
  intros HI%reachable_invariant Hstep He'. unfold step in Hstep.
  destruct (exited s) eqn:He; [done|].
  destruct (runner_at (runners s) t) as [r|] eqn:Ht; simpl in Hstep; [|done].
  destruct (inv_position HI t r Ht) as [_ Hat].
  assert (pc_at (runners s) t = Some (pc r)) as Hpcat
    by (unfold pc_at; by rewrite Ht).
  destruct (pc r) eqn:Hpc; simpl in Hat.
  9:{ (* takeSnapshot before the dispatch *)
    destruct Hat as [Htid _]. rewrite decide_True in Hstep by done.
    injection Hstep as <-. unfold snapshot_before in He' |- *.
    destruct (doSnapshot cfg call) eqn:Hdo; [|simpl in He'; congruence].
    destruct (swapRenderTarget X call) eqn:Hsw; [|simpl in He'; congruence].
    cbn [andb] in *.
    destruct (endFrame X call) eqn:Hef;
      (destruct (takeSnapshot cfg _ (glob s)) as [g1|why g1] eqn:Hts;
       simpl in He' |- *; [congruence|]; injection He' as ->;
       apply takeSnapshot_assert in Hts as [Hp ->];
       split; [done|]; exists call; split_and!; [done | done | by left |];
       unfold snapshot_index; by rewrite Hsw, Hef). }
  11:{ (* takeSnapshot after the dispatch *)
    destruct Hat as [Htid _]. injection Hstep as <-.
    unfold snapshot_after in He' |- *.
    destruct (doSnapshot cfg call) eqn:Hdo; [|simpl in He'; congruence].
    destruct (swapRenderTarget X call) eqn:Hsw; [simpl in He'; congruence|].
    cbn [andb negb] in *.
    destruct (takeSnapshot cfg _ (glob s)) as [g1|why g1] eqn:Hts;
      simpl in He' |- *; [congruence|]. injection He' as ->.
    apply takeSnapshot_assert in Hts as [Hp ->].
    split; [done|]. exists call. split_and!; [done | done | by right |].
    unfold snapshot_index. by rewrite Hsw. }
  all: exfalso.
  all: repeat (first [progress simplify_option_eq | case_match]); simplify_eq;
    simpl in He'; try congruence.
  all: try (unfold resume in He'; repeat case_match; simpl in He'; simplify_eq).
  unfold dump_gate in H. by repeat case_match.
Qed.

(** When [receiveBaton] is about to store the call (lines 320-321), the
    baton of the runner it was called on is empty. *)
Lemma receiveBaton_baton_empty s t r k call :
  reachable cfg trace g0 s → runner_at (runners s) t = Some r →
  pc r = Recv_store k call → baton_at (runners s) (thread_id call) = None.
Proof.
  intros HI%reachable_invariant Ht Hpc.
  destruct (inv_position HI t r Ht) as [_ Hat]. rewrite Hpc in Hat.
  destruct Hat as [Hne _]. unfold baton_at.
  destruct (runner_at (runners s) (thread_id call)) as [target|] eqn:Htarget;
    [|done].
  destruct (baton target) as [c|] eqn:Hb; [|done]. exfalso.
  pose proof (tokens_two _ _ _ _ _ Hne Htarget Ht) as Htwo.
  pose proof (inv_tokens HI) as Hone.
  unfold tokens_of in Htwo. rewrite Hb, Hpc in Htwo. simpl in Htwo. lia.
Qed.


End Race.

(** In the demo trace the runner of leg 0 retraces call 1, parses call 2
    and stores it in the baton of leg 1. *)
Lemma one_runner_at_a_time_witness :
  let s := after_schedule Demo.plain Demo.two_threads (Demo.globals [])
             (replicate 14 0%nat) in
  reachable Demo.plain Demo.two_threads (Demo.globals []) s
  ∧ baton_at (runners s) 1 = Some (mkCall 2 1 0 "b")
  ∧ one_inside s ∧ one_baton s ∧ baton_discipline Demo.plain s.
Proof.
  split; [apply after_schedule_reachable|]. split; [reflexivity|].
  apply (one_runner_at_a_time Demo.plain Demo.two_threads (Demo.globals [])).
  apply after_schedule_reachable.
Defined.

(** ** The counters over one trace file and over several *)

Section Files.

Context {X : External} (cfg : Config X).

Implicit Types (s : State X) (g : Globals X).

Lemma iter_bump n :
  Z.of_nat n <= UINT_MAX → Nat.iter n (λ z, wrap (z + 1)) 0 = Z.of_nat n.
Proof.
  unfold UINT_MAX. induction n as [|n IH]; intros Hn; [done|].
  simpl Nat.iter. rewrite IH by lia. unfold wrap.
  rewrite Z.mod_small by lia. lia.
Qed.

Lemma contract_frames d ks :
  dispatcher_counts_frames X →
  Forall2 (λ c k, ∃ w, k = handler_frames X c w) d ks →
  sum_list ks = length (filter (endFrame X) d).
Proof.
  intros Hc. induction 1 as [|c k d ks [w ->] _ IH]; [done|].
  simpl. rewrite IH, Hc, filter_cons.
  destruct (endFrame X c) eqn:E.
  - by rewrite decide_True by exact I.
  - by rewrite decide_False by (intros []).
Qed.

Lemma mainLoop_end_callNo g : callNo (mainLoop_end cfg g) = callNo g.
Proof.
  unfold mainLoop_end.
  by destruct ((-1 <=? verbosity cfg) || profiling cfg), (waitOnFinish cfg).
Qed.

(** When [run] has returned, the globals are those of the sequence. *)
Lemma returned_replay trace g0 s :
  reachable cfg trace g0 s → run_returned s →
  replay cfg trace g0 = Running (glob s).
Proof.
  intros HI%reachable_invariant (He & r & Hr & Hpc).
  assert (tokens (runners s) = 0%nat) as H0.
  { eapply (inv_ended HI 0%nat r); [done|]. right. by rewrite Hpc. }
  pose proof (inv_over HI H0) as Hover. unfold over in Hover.
  rewrite He in Hover. apply Hover.
Qed.

(** When the process has stopped, the globals are those of the sequence
    at its stop. *)
Lemma exited_replay trace g0 s why :
  reachable cfg trace g0 s → exited s = Some why →
  replay cfg trace g0 = Stopped why (glob s).
Proof.
  intros HI%reachable_invariant He.
  destruct (inv_live HI) as [H0 | ?]; [|congruence].
  pose proof (inv_over HI H0) as Hover. unfold over in Hover.
  rewrite He in Hover. destruct Hover as (d & c & g1 & -> & Hrep & Hstop).
  unfold replay in *. rewrite replay_from_app, Hrep. cbn [and_then].
  destruct (last d); cbn [from_option replay_from]; by rewrite Hstop.
Qed.

(** C7: while a trace file is replayed, [frameNo] is the number of calls
    with [END_FRAME] dispatched so far in that file, the handlers calling
    [frameComplete] as the spec has them do and the file holding no more
    such calls than an [unsigned] counts; for an empty trace the replay
    returns with [frameNo] at 0 and nothing done, so no snapshot
    written. *)
Theorem frames_counted trace g s :
  dispatcher_counts_frames X →
  Z.of_nat (length (filter (endFrame X) trace)) <= UINT_MAX →
  reachable cfg trace (mainLoop_begin g) s →
  (∃ d rest,
      trace = d ++ rest
      ∧ retraced (out (glob s)) = retraced (out g) ++ d
      ∧ frameNo (glob s) = Z.of_nat (length (filter (endFrame X) d)))
  ∧ (trace = [] →
     frameNo (glob s) = 0 ∧ out (glob s) = out g
     ∧ mainLoop cfg [] g (mainLoop_end cfg (mainLoop_begin g))).
Proof.
  intros Hc Hmax Hreach. pose proof (reachable_invariant _ _ _ _ Hreach) as HI.
  pose proof (invariant_phase _ _ _ _ HI) as Hph. split.
  - destruct (phase_advance _ _ _ _ _ Hph)
      as (d & rest & Htr & evs & ks & Ho & Hr & Hk & Hf).
    exists d, rest. split_and!; [done | |].
    + rewrite Ho, retraced_app, Hr. done.
    + rewrite Hf. simpl. rewrite (contract_frames _ _ Hc Hk).
      apply iter_bump. rewrite Htr, filter_app, length_app in Hmax. lia.
  - intros ->. split_and!.
    + destruct Hph as [d rest Htr Hrep _ | n d c rest g1 _ Htr _ _ _
                      | d c rest g1 why Htr _ _ _].
      * symmetry in Htr. apply app_eq_nil in Htr as [-> _].
        by injection Hrep as <-.
      * by destruct d.
      * by destruct d.
    + destruct Hph as [d rest Htr Hrep _ | n d c rest g1 _ Htr _ _ _
                      | d c rest g1 why Htr _ _ _].
      * symmetry in Htr. apply app_eq_nil in Htr as [-> _].
        by injection Hrep as <-.
      * by destruct d.
      * by destruct d.
    + exists (after_schedule cfg [] (mainLoop_begin g) [0%nat; 0%nat]).
      split_and!; [apply after_schedule_reachable | | done].
      split; [done|]. by eexists.
Qed.

(** C10: [mainLoop] sets [frameNo] to 0 before the race of each file and
    leaves [callNo] alone: when the file before has returned from a last
    call [c1], [callNo] is the number of [c1] for as long as no call of
    the next file is retraced or being dispatched. *)
Theorem callNo_survives_files t1 c1 g g1 t2 s2 :
  mainLoop cfg (t1 ++ [c1]) g g1 →
  reachable cfg t2 (mainLoop_begin g1) s2 →
  frameNo (mainLoop_begin g1) = 0
  ∧ callNo (mainLoop_begin g1) = no c1
  ∧ (retraced (out (glob s2)) = retraced (out g1) →
     (∀ i r c, runner_at (runners s2) i = Some r → pc r ≠ Leg_retrace c) →
     callNo (glob s2) = no c1).
Proof.
  intros (s1 & Hreach1 & Hret & ->) Hreach2.
  assert (callNo (mainLoop_end cfg (glob s1)) = no c1) as Hc1.
  { rewrite mainLoop_end_callNo.
    apply returned_replay in Hreach1; [|done].
    apply replay_advance in Hreach1 as [_ ->]. by rewrite last_snoc. }
  split_and!; [done..|].
  intros Hsame Hnone.
  destruct (invariant_callNo _ _ _ _ (reachable_invariant _ _ _ _ Hreach2))
    as [(i & r & c & Hr & Hpc & _) | (d & rest & _ & Ha & ->)].
  - by destruct (Hnone i r c Hr).
  - apply advance_retraced in Ha. simpl in Ha. rewrite Hsame in Ha.
    rewrite <- (app_nil_r (retraced _)) in Ha at 1.
    apply app_inv_head in Ha as <-. done.
Qed.

(** What [mainLoop] leaves does not depend on the schedule. *)
Theorem mainLoop_deterministic trace g g1 g2 :
  mainLoop cfg trace g g1 → mainLoop cfg trace g g2 → g1 = g2.
Proof.
  intros (s1 & Hr1 & Hret1 & ->) (s2 & Hr2 & Hret2 & ->).
  pose proof (returned_replay _ _ _ Hr1 Hret1) as H1.
  pose proof (returned_replay _ _ _ Hr2 Hret2) as H2.
  rewrite H1 in H2. by injection H2 as ->.
Qed.

End Files.

(** ** Every trace has a run *)

Section Progress.

Context {X : External} (cfg : Config X).

Implicit Types (s : State X) (rs : list (option Runner)) (r : Runner).

Local Abbreviation finishes := (finishes cfg).

Lemma finishes_now s : run_returned s ∨ is_Some (exited s) → finishes s.
Proof. intros H. by exists [], s. Qed.

Lemma finishes_step t s s' :
  step cfg t s = Some s' → finishes s' → finishes s.
Proof.
  intros Hstep (l & s'' & Hrun & Hend). exists (t :: l), s''.
  split; [|done]. simpl. by rewrite Hstep.
Qed.

Section Shapes.

Context {P : Runner → Prop}.

Lemma solo_update rs t rt f :
  solo P rs t rt → solo P (update_runner t f rs) t (f rt).
Proof.
  intros (Ht & H0 & Hp). split_and!.
  - by apply runner_at_update_eq.
  - rewrite runner_at_update. case_decide; [subst; by rewrite Ht | done].
  - intros i r Hi. rewrite runner_at_update_ne by done. by apply Hp.
Qed.

Lemma duo_update_l rs t rt j rj f :
  duo P rs t rt j rj → duo P (update_runner t f rs) t (f rt) j rj.
Proof.
  intros (Hne & Ht & Hj & H0 & Hp). split_and!; [done | | | |].
  - by apply runner_at_update_eq.
  - by rewrite runner_at_update_ne.
  - rewrite runner_at_update. case_decide; [subst; by rewrite Ht | done].
  - intros i r Hi Hi'. rewrite runner_at_update_ne by done. by apply Hp.
Qed.

Lemma duo_swap {rs t rt j rj} : duo P rs t rt j rj → duo P rs j rj t rt.
Proof. intros (Hne & Ht & Hj & H0 & Hp). split_and!; eauto. Qed.

Lemma duo_update_r rs t rt j rj f :
  duo P rs t rt j rj → duo P (update_runner j f rs) t rt j (f rj).
Proof. intros H. by apply duo_swap, duo_update_l, duo_swap. Qed.

Lemma duo_solo {rs t rt j rj} : duo P rs t rt j rj → P rj → solo P rs t rt.
Proof.
  intros (Hne & Ht & Hj & H0 & Hp) Hpark. split_and!; [done..|].
  intros i r Hi Hr. destruct (decide (i = j)) as [->|]; [congruence | eauto].
Qed.

Lemma solo_duo {rs t rt} j rj :
  solo P rs t rt → t ≠ j → runner_at rs j = Some rj →
  duo P rs t rt j rj ∧ P rj.
Proof. intros (Ht & H0 & Hp) Hne Hj. split; [split_and! |]; eauto. Qed.

Lemma solo_at {rs t rt} : solo P rs t rt → runner_at rs t = Some rt.
Proof. by intros [? _]. Qed.

Lemma duo_at_l {rs t rt j rj} : duo P rs t rt j rj → runner_at rs t = Some rt.
Proof. by intros (_ & ? & _). Qed.

Lemma duo_at_r {rs t rt j rj} : duo P rs t rt j rj → runner_at rs j = Some rj.
Proof. by intros (_ & _ & ? & _). Qed.

End Shapes.

Lemma solo_weaken {P Q : Runner → Prop} {rs t rt} :
  (∀ r, P r → Q r) → solo P rs t rt → solo Q rs t rt.
Proof. intros HPQ (Ht & H0 & Hp). split_and!; eauto. Qed.

Lemma parked_new leg : parked (new_runner (S leg)).
Proof. unfold parked. simpl. eauto. Qed.

Lemma solo_getRunner rs t rt j :
  solo parked rs t rt → t ≠ j → Z.of_nat j < UINT_MAX →
  ∃ rs' rj, getRunner j rs = Some rs' ∧ parked rj ∧ duo parked rs' t rt j rj.
Proof.
  intros (Ht & H0 & Hp) Hne Hj.
  destruct (getRunner_defined rs j) as [rs' Hg]; [by left|].
  exists rs', (default (new_runner j) (runner_at rs j)).
  split; [done|]. split.
  - destruct (runner_at rs j) as [rj|] eqn:Hrj; simpl; [eauto|].
    destruct j; [rewrite Hrj in H0; by destruct H0 | apply parked_new].
  - split_and!; [done | | | |].
    + by rewrite (runner_at_getRunner _ _ _ _ Hg), decide_False.
    + by rewrite (runner_at_getRunner _ _ _ _ Hg), decide_True.
    + rewrite (runner_at_getRunner _ _ _ _ Hg). case_decide; [done|done].
    + intros i r Hi Hi'.
      rewrite (runner_at_getRunner _ _ _ _ Hg), decide_False by done. eauto.
Qed.

(** The process alive, its runners [rs], the stream at [p]. *)
Local Abbreviation St rs p g :=
  {| runners := rs; parser := p; glob := g; exited := None |}.

(** The tactics below walk a schedule statement by statement: [run] takes
    the step of a thread, [settle] brings the shape [H] of the runner
    vector up to the writes of that step. *)
Local Ltac tidy H :=
  cbv [set_pc set_mutex set_baton set_finished compose] in H;
  cbn [finished baton mutex pc] in H.

Local Ltac moved :=
  cbv [jump resume with_runners with_glob with_parser with_exited];
  cbn [runners parser glob exited].

Local Ltac reshape H E :=
  lazymatch type of H with
  | solo _ E _ _ => idtac
  | duo _ E _ _ _ _ => idtac
  | _ =>
      lazymatch E with
      | update_runner ?i ?f ?E' =>
          reshape H E';
          first [ apply (solo_update _ i _ f) in H
                | apply (duo_update_l _ i _ _ _ f) in H
                | apply (duo_update_r _ _ _ i _ f) in H ]
      end
  end.

Local Ltac settle H :=
  moved;
  lazymatch goal with
  | |- finishes {| runners := ?E; parser := _; glob := _; exited := _ |} =>
      reshape H E; tidy H;
      cbv [set_pc set_mutex set_baton set_finished compose];
      cbn [finished baton mutex pc]
  end.

Local Ltac run_with t Hlook tac :=
  eapply (finishes_step t);
  [ unfold step; cbn [exited runners parser glob]; rewrite Hlook; simpl;
    tac; reflexivity | ].

Local Ltac run t Hlook := run_with t Hlook idtac.

Local Ltac halted := apply finishes_now; right; by eexists.

Local Ltac returned H :=
  apply finishes_now; left; split; [done|];
  eexists; split; [apply (solo_at H) | done].

Lemma parked_unlocked r : parked r → unlocked r.
Proof. by intros [? _]. Qed.

(** The loop of [stopRunners] and the return of thread 0. *)
Lemma stop_loop_finishes n : ∀ it rs p (g : Globals X) fin b,
  (length rs - S it = n)%nat →
  solo unlocked rs 0 (Build_Runner fin b (Some 0%nat) (Stop_loop (S it))) →
  finishes (St rs p g).
Proof.
  induction n as [n IH] using lt_wf_ind. intros it rs p g fin b Hn Hs.
  destruct (decide (length rs ≤ S it)%nat) as [Hle|Hgt].
  - run_with 0%nat (solo_at Hs) ltac:(rewrite decide_True by done).
    settle Hs.
    run 0%nat (solo_at Hs). settle Hs.
    returned Hs.
  - destruct (runner_at rs (S it)) as [r|] eqn:Hr.
    + run_with 0%nat (solo_at Hs) ltac:(rewrite decide_False, Hr by done).
      apply (solo_duo (S it) r) in Hs as [Hd Hu]; [|done..].
      settle Hd. unfold unlocked in Hu.
      run_with 0%nat (duo_at_l Hd)
        ltac:(rewrite (duo_at_r Hd); simpl; rewrite Hu).
      settle Hd.
      run 0%nat (duo_at_l Hd). settle Hd.
      run 0%nat (duo_at_l Hd). settle Hd.
      run 0%nat (duo_at_l Hd). settle Hd.
      pose proof (duo_solo Hd eq_refl) as Hs.
      refine (IH _ _ (S it) _ _ _ _ _ eq_refl Hs).
      rewrite !length_update. lia.
    + run_with 0%nat (solo_at Hs) ltac:(rewrite decide_False, Hr by done).
      settle Hs.
      refine (IH _ _ (S it) _ _ _ _ _ eq_refl Hs).
      rewrite !length_update. lia.
Qed.

(** Thread 0 finds [finished] set: it leaves the loop of [runRace], stops
    the other runners and returns. *)
Lemma finish_line_finishes rs p (g : Globals X) :
  solo parked rs 0 (Build_Runner true None (Some 0%nat) Race_check) →
  finishes (St rs p g).
Proof.
  intros Hs.
  run 0%nat (solo_at Hs). settle Hs.
  run 0%nat (solo_at Hs). settle Hs.
  apply (solo_weaken parked_unlocked) in Hs.
  exact (stop_loop_finishes _ 0 _ _ _ _ _ eq_refl Hs).
Qed.

Local Ltac concrete r H l :=
  destruct r as [? ? ? l]; destruct H as (? & ? & ? & H);
  cbn [finished baton mutex pc] in *; subst.

(** The stream has ended in the leg of thread [t]. *)
Lemma last_leg_finishes t rs p (g : Globals X) :
  solo parked rs t (Build_Runner false None (Some t) (Leg_route None)) →
  finishes (St rs p g).
Proof.
  intros Hs. destruct t as [|t].
  { run 0%nat (solo_at Hs). settle Hs. by apply finish_line_finishes. }
  destruct Hs as (Ht & [r0 H0] & Hp).
  assert (solo parked rs (S t)
            (Build_Runner false None (Some (S t)) (Leg_route None)))
    as Hs by (split_and!; eauto).
  apply (solo_duo 0%nat r0) in Hs as [Hd Hpark]; [|done..].
  concrete r0 Hpark l0.
  run_with (S t) (duo_at_l Hd)
    ltac:(unfold getForeRunner; rewrite (getRunner_present _ _ _ H0); simpl).
  settle Hd.
  run_with (S t) (duo_at_l Hd) ltac:(rewrite (duo_at_r Hd); simpl).
  settle Hd.
  run (S t) (duo_at_l Hd). settle Hd.
  run (S t) (duo_at_l Hd). settle Hd.
  run (S t) (duo_at_l Hd). settle Hd.
  run (S t) (duo_at_l Hd). settle Hd.
  destruct Hpark as [-> | ->].
  all: run 0%nat (duo_at_r Hd); settle Hd.
  all: apply duo_swap in Hd.
  all: apply finish_line_finishes; apply (duo_solo Hd).
  all: unfold parked; simpl; eauto.
Qed.

(** [passBaton]: the runner of [t] hands [c] to the runner of its thread
    and goes to wait; that runner takes it up. *)
Lemma handoff_finishes k c t rs p (g : Globals X) :
  thread_id c ≠ t → Z.of_nat (thread_id c) < UINT_MAX →
  solo parked rs t
    (Build_Runner false None
       (match k with FromRun => None | FromLeg => Some t end)
       (Pass_getRunner k c)) →
  (∀ rs' g',
     solo parked rs' (thread_id c)
       (Build_Runner false None (Some (thread_id c)) (Leg_before c)) →
     finishes (St rs' p g')) →
  finishes (St rs p g).
Proof.
  intros Hne Hin Hs Hleg.
  destruct (solo_getRunner _ _ _ (thread_id c) Hs)
    as (rsj & rj & Hg & Hpark & Hd); [done..|].
  run_with t (solo_at Hs) ltac:(rewrite Hg; simpl).
  concrete rj Hpark l. settle Hd.
  run_with t (duo_at_l Hd) ltac:(rewrite (duo_at_r Hd); simpl).
  settle Hd.
  run_with t (duo_at_l Hd) ltac:(rewrite (duo_at_r Hd); simpl).
  settle Hd.
  run t (duo_at_l Hd). settle Hd.
  run t (duo_at_l Hd). settle Hd.
  assert (∀ rs1,
            duo parked rs1 t (Build_Runner false None (Some t) Race_check)
              (thread_id c) (Build_Runner false (Some c) None l) →
            finishes (St rs1 p g)) as Hwait.
  { clear Hd. intros rs1 Hd.
    run t (duo_at_l Hd). settle Hd.
    destruct Hpark as [-> | ->].
    all: run (thread_id c) (duo_at_r Hd); settle Hd.
    all: run (thread_id c) (duo_at_r Hd); settle Hd.
    all: apply duo_swap in Hd.
    all: apply Hleg; apply (duo_solo Hd).
    all: unfold parked; simpl; eauto. }
  destruct k; cbn [after_passBaton] in *.
  - run t (duo_at_l Hd). settle Hd. by apply Hwait.
  - by apply Hwait.
Qed.

(** [retraceCall] in the leg of thread [t]: the process ends, or the
    runner comes to parse the next call. *)
Lemma leg_body t c rs p (g : Globals X) :
  solo parked rs t (Build_Runner false None (Some t) (Leg_before c)) →
  (∀ rs' g',
     solo parked rs' t (Build_Runner false None (Some t) Leg_parse) →
     finishes (St rs' p g')) →
  finishes (St rs p g).
Proof.
  intros Hs Hnext.
  destruct (decide (thread_id c = t)) as [Hc|Hc].
  - run_with t (solo_at Hs) ltac:(rewrite decide_True by done).
    destruct (snapshot_before cfg c g) as [g1|why g1]; [|moved; halted].
    settle Hs.
    run t (solo_at Hs). settle Hs.
    run t (solo_at Hs). settle Hs.
    run t (solo_at Hs).
    destruct (snapshot_after cfg c _) as [g2|why g2]; [|moved; halted].
    settle Hs.
    run t (solo_at Hs).
    destruct (dump_gate cfg c _) as [g3|why g3]; [|moved; halted].
    settle Hs. by apply Hnext.
  - run_with t (solo_at Hs) ltac:(rewrite decide_False by done).
    moved. halted.
Qed.

Lemma leg_finishes p : ∀ rs (g : Globals X) t c,
  legs_in_range p →
  solo parked rs t (Build_Runner false None (Some t) (Leg_before c)) →
  finishes (St rs p g).
Proof.
  induction p as [|c' rest IH]; intros rs g t c Hin Hs.
  - apply (leg_body _ _ _ _ _ Hs). clear. intros rs g Hs.
    run t (solo_at Hs). settle Hs. exact (last_leg_finishes _ _ _ _ Hs).
  - assert (legs_in_range rest) as Hrest.
    { intros call Hcall. apply Hin. by right. }
    assert (Z.of_nat (thread_id c') < UINT_MAX) as Hc' by (apply Hin; by left).
    apply (leg_body _ _ _ _ _ Hs). clear -IH Hrest Hc'. intros rs g Hs.
    run t (solo_at Hs). settle Hs.
    destruct (decide (thread_id c' = t)) as [Hc|Hc].
    + run_with t (solo_at Hs) ltac:(rewrite decide_True by done).
      settle Hs. by apply (IH _ _ t c').
    + run_with t (solo_at Hs) ltac:(rewrite decide_False by done).
      settle Hs. apply (handoff_finishes FromLeg c' t); [done | done | done |].
      intros rs' g'. by apply IH.
Qed.

Lemma race_finishes trace (g : Globals X) :
  legs_in_range trace → finishes (race_start trace g).
Proof.
  intros Hin.
  assert (solo parked [Some (Build_Runner false None None Run_parse)] 0
            (Build_Runner false None None Run_parse)) as Hs.
  { split_and!; [done | by eexists |]. by intros [|[|i]] r Hi Hr. }
  unfold race_start.
  change (set_pc Run_parse (new_runner 0))
    with (Build_Runner false None None Run_parse).
  destruct trace as [|c rest].
  - run 0%nat (solo_at Hs). settle Hs.
    run 0%nat (solo_at Hs). settle Hs.
    returned Hs.
  - assert (legs_in_range rest) as Hrest.
    { intros call Hcall. apply Hin. by right. }
    assert (Z.of_nat (thread_id c) < UINT_MAX) as Hc' by (apply Hin; by left).
    run 0%nat (solo_at Hs). settle Hs.
    destruct (decide (thread_id c = 0%nat)) as [Hc|Hc].
    + run_with 0%nat (solo_at Hs)
        ltac:(unfold getForeRunner;
              rewrite ?(getRunner_present _ _ _ (solo_at Hs)); simpl;
              rewrite decide_True by done).
      settle Hs.
      run 0%nat (solo_at Hs). settle Hs.
      run 0%nat (solo_at Hs). settle Hs.
      apply (leg_finishes _ _ _ _ _ Hrest Hs).
    + run_with 0%nat (solo_at Hs)
        ltac:(unfold getForeRunner;
              rewrite ?(getRunner_present _ _ _ (solo_at Hs)); simpl;
              rewrite decide_False by done).
      settle Hs.
      apply (handoff_finishes FromRun c 0%nat); [done | done | done |].
      intros rs' g'. by apply leg_finishes.
Qed.

(** The sequence is one of the runs of the race: when every thread of the
    trace has a number below the largest [unsigned], so that [getRunner]
    has a place for its runner, some schedule of the threads takes the
    race to the return of [run], or to the stop of the process, with the
    globals of the calls retraced one after the other. *)
Theorem replay_is_a_run trace (g : Globals X) :
  legs_in_range trace →
  ∃ schedule s,
    run_schedule cfg schedule (race_start trace g) = Some s
    ∧ match replay cfg trace g with
      | Running g' => run_returned s ∧ glob s = g'
      | Stopped why g' => exited s = Some why ∧ glob s = g'
      end.
Proof.
  intros Hin.
  destruct (race_finishes trace g Hin) as (l & s & Hrun & Hend).
  exists l, s. split; [done|].
  assert (reachable cfg trace g s) as Hreach.
  { eapply run_schedule_reachable; [constructor | done]. }
  destruct Hend as [Hret | [why He]].
  - by rewrite (returned_replay _ _ _ _ Hreach Hret).
  - by rewrite (exited_replay _ _ _ _ _ Hreach He).
Qed.

(** [mainLoop] is the sequence, for a trace whose threads have numbers
    below the largest [unsigned]: it takes [g] to [g1] exactly when the
    calls of the file, retraced one after the other from the globals
    [mainLoop] starts with, run through and leave [g1] at its end. *)
Theorem mainLoop_is_replay trace (g g1 : Globals X) :
  legs_in_range trace →
  mainLoop cfg trace g g1
  ↔ ∃ g', replay cfg trace (mainLoop_begin g) = Running g'
          ∧ g1 = mainLoop_end cfg g'.
Proof.
  intros Hin. split.
  - intros (s & Hreach & Hret & ->). exists (glob s).
    split; [by apply returned_replay | done].
  - intros (g' & Hrep & ->).
    destruct (race_finishes trace (mainLoop_begin g) Hin)
      as (l & s & Hrun & Hend).
    assert (reachable cfg trace (mainLoop_begin g) s) as Hreach.
    { eapply run_schedule_reachable; [constructor | done]. }
    exists s. split; [done|]. destruct Hend as [Hret | [why He]].
    + split; [done|]. rewrite (returned_replay _ _ _ _ Hreach Hret) in Hrep.
      by injection Hrep as ->.
    + rewrite (exited_replay _ _ _ _ _ Hreach He) in Hrep. done.
Qed.

End Progress.

(** ** The option loop *)

Section OptionLoop.

Context {X : External}.

Implicit Types (c : Config X) (arg : string).

(** An argument that is no listed option and has no [p] after its dash
    ends [main] with the error message, the usage and status 1, wherever
    the option loop meets it. *)
Lemma unknown_option_rejected argv0 arg rest c :
  is_option arg → arg ∉ documented → String.get 1 arg ≠ Some "p"%char →
  parse_options argv0 (arg :: rest) c
  = Return 1 [EvStderr ("error: unknown option " +:+ arg +:+ newline);
              EvStdout (usage argv0)].
Proof.
  intros Hopt Hdoc Hp. unfold documented in Hdoc.
  repeat (apply not_elem_of_cons in Hdoc as [?%String.eqb_neq Hdoc]).
  simpl. rewrite bool_decide_eq_true_2 by done. simpl.
  repeat match goal with H : (_ =? _)%string = false |- _ => rewrite H; clear H end.
  by rewrite bool_decide_eq_false_2.
Qed.

Lemma opt_p_dumpStateCallNo arg c :
  dumpStateCallNo (opt_p arg c) = dumpStateCallNo c.
Proof.
  unfold opt_p.
  by destruct (String.eqb arg "-pcpu"), (String.eqb arg "-pgpu"),
    (String.eqb arg "-ppd").
Qed.

(** Without [-D] among the arguments the option loop leaves
    [dumpStateCallNo] as it was. *)
Lemma parse_options_dumpStateCallNo argv0 args c c' files :
  "-D" ∉ args → parse_options argv0 args c = Proceed c' files →
  dumpStateCallNo c' = dumpStateCallNo c.
Proof.
  remember (length args) as n eqn:Hn. revert args c Hn.
  induction n as [n IH] using lt_wf_ind. intros args c Hn HD H.
  destruct args as [|arg rest]; simpl in H; [by injection H as <- _|].
  apply not_elem_of_cons in HD as [HD Hrest].
  assert (∀ c1, parse_options argv0 rest c1 = Proceed c' files →
            dumpStateCallNo c' = dumpStateCallNo c1) as IH1.
  { intros c1. apply (IH (length rest)); [simpl in Hn; lia | done | done]. }
  assert (∀ v rest' c1, rest = v :: rest' →
            parse_options argv0 rest' c1 = Proceed c' files →
            dumpStateCallNo c' = dumpStateCallNo c1) as IH2.
  { intros v rest' c1 -> Hc1. apply not_elem_of_cons in Hrest as [_ Hrest].
    apply (IH (length rest')) in Hc1; [done | simpl in Hn; lia | done | done]. }
  destruct (negb _); [by injection H as <- _|].
  destruct (String.eqb arg "--"); [by injection H as <- _|].
  destruct (String.eqb arg "-b"); [by rewrite (IH1 _ H)|].
  destruct (String.eqb arg "-c").
  { destruct rest as [|v rest'].
    - injection H as <- _. unfold opt_c. simpl. by destruct (CallSet_empty X _).
    - rewrite (IH2 _ _ _ eq_refl H). unfold opt_c. simpl.
      by destruct (CallSet_empty X _). }
  destruct (String.eqb arg "-C").
  { destruct rest as [|v rest']; [done|]. rewrite (IH2 _ _ _ eq_refl H).
    unfold opt_C. simpl. by destruct (comparePrefix c). }
  destruct (String.eqb arg "-D") eqn:ED; [by apply String.eqb_eq in ED|].
  destruct (String.eqb arg "-core"); [by rewrite (IH1 _ H)|].
  destruct (String.eqb arg "-db"); [by rewrite (IH1 _ H)|].
  destruct (String.eqb arg "-sb"); [by rewrite (IH1 _ H)|].
  destruct (String.eqb arg "--help"); [done|].
  destruct (String.eqb arg "-s").
  { destruct rest as [|v rest']; [done|]. rewrite (IH2 _ _ _ eq_refl H).
    unfold opt_s. simpl.
    by destruct (CallSet_empty X _), (String.eqb v "-"). }
  destruct (String.eqb arg "-S").
  { destruct rest as [|v rest']; [done|]. rewrite (IH2 _ _ _ eq_refl H).
    unfold opt_S. simpl. by destruct (snapshotPrefix c). }
  destruct (String.eqb arg "-v"); [by rewrite (IH1 _ H)|].
  destruct (String.eqb arg "-w"); [by rewrite (IH1 _ H)|].
  destruct (bool_decide _); [|done].
  rewrite (IH1 _ H). apply opt_p_dumpStateCallNo.
Qed.

(** Without [-D] the gate does nothing at a call whose number is below
    the largest [unsigned]. *)
Lemma default_gate_below_max argv0 args c files call g :
  "-D" ∉ args →
  parse_options argv0 args (default_config X) = Proceed c files →
  no call < UINT_MAX → dump_gate c call g = Running g.
Proof.
  intros HD Hc Hno. unfold dump_gate.
  rewrite (parse_options_dumpStateCallNo _ _ _ _ _ HD Hc).
  change (dumpStateCallNo (default_config X)) with UINT_MAX.
  by rewrite (proj2 (Z.leb_gt _ _) Hno).
Qed.

End OptionLoop.

(** C8 fails on the code: [-pfoo] is no listed option, begins with a
    dash, and is taken for a profiling option; [main] goes on to the
    trace files. *)
Lemma undocumented_p_option_accepted :
  is_option "-pfoo" ∧ ("-pfoo" ∉ documented)
  ∧ parse_options "glretrace" ["-pfoo"; "app.trace"] Demo.plain
    = Proceed (set_verbosity (-1) (set_profiling true (set_debug false Demo.plain)))
        ["app.trace"].
Proof.
  split; [reflexivity|]. split; [|reflexivity].
  unfold documented. repeat (apply not_elem_of_cons; split; [done|]).
  apply not_elem_of_nil.
Qed.

(** C9 fails on the code: without [-D] the threshold is the largest
    [unsigned], and at a call of that number the gate calls [dumpState]
    and exits. *)
Lemma default_gate_fires_at_max :
  parse_options "glretrace" ["app.trace"] Demo.plain
  = Proceed Demo.plain ["app.trace"]
  ∧ dumpStateCallNo Demo.plain = 4294967295
  ∧ dump_gate Demo.plain (mkCall 4294967295 0 0 "glFlush") (Demo.globals [])
    = Stopped (Exit 0) (emit (EvDumpState true) (Demo.globals [])).
Proof. split_and!; reflexivity. Qed.

(** ** The claims on the demo traces *)

Lemma run_schedule_app {X : External} (cfg : Config X) l1 l2 (s : State X) :
  run_schedule cfg (l1 ++ l2) s = run_schedule cfg l1 s ≫= run_schedule cfg l2.
Proof.
  revert s. induction l1 as [|t l1 IH]; intros s; [done|]. cbn.
  destruct (step cfg t s) as [s1|]; [apply IH | done].
Qed.

(** One more move after a schedule. *)
Lemma after_schedule_snoc {X : External} (cfg : Config X) trace (g : Globals X) l t :
  is_Some (run_schedule cfg (l ++ [t]) (race_start trace g)) →
  step cfg t (after_schedule cfg trace g l)
  = Some (after_schedule cfg trace g (l ++ [t])).
Proof.
  unfold after_schedule. rewrite run_schedule_app. intros [s' Hs'].
  destruct (run_schedule cfg l (race_start trace g)) as [s|]; [|done]. cbn in *.
  destruct (step cfg t s); by simplify_eq.
Qed.

Lemma demo_counts_frames : dispatcher_counts_frames Demo.X.
Proof.
  intros c w. unfold endFrame, has_flag. simpl.
  by destruct (Z.land (flags c) Demo.END_FRAME =? 0).
Qed.

(** Thread 0 is dispatching call 1 of the two-thread trace. *)
Lemma dispatch_in_stream_order_witness :
  let s := after_schedule Demo.plain Demo.two_threads (Demo.globals [])
             (replicate 6 0%nat) in
  reachable Demo.plain Demo.two_threads (Demo.globals []) s
  ∧ pc_at (runners s) 0 = Some (Leg_retrace (mkCall 1 0 0 "a"))
  ∧ in_stream_order Demo.two_threads (Demo.globals []) s
  ∧ eager_handoff Demo.plain s ∧ record_grows Demo.plain s.
Proof.
  split; [apply after_schedule_reachable|]. split; [reflexivity|].
  apply (dispatch_in_stream_order Demo.plain Demo.two_threads (Demo.globals [])).
  apply after_schedule_reachable.
Defined.

(** Thread 0 has just dispatched call 1. *)
Lemma callNo_after_dispatch_witness :
  let s := after_schedule Demo.plain Demo.two_threads (Demo.globals [])
             (replicate 7 0%nat) in
  reachable Demo.plain Demo.two_threads (Demo.globals []) s
  ∧ runner_at (runners s) 0 = Some (Demo.running (Leg_after (mkCall 1 0 0 "a")))
  ∧ callNo (glob s) = 1
  ∧ last (retraced (out (glob s))) = Some (mkCall 1 0 0 "a").
Proof.
  split; [apply after_schedule_reachable|]. split; [reflexivity|].
  apply (callNo_after_dispatch Demo.plain Demo.two_threads (Demo.globals []) _
           0%nat (Demo.running (Leg_after (mkCall 1 0 0 "a"))) (mkCall 1 0 0 "a"));
    [apply after_schedule_reachable | reflexivity | reflexivity].
Defined.

(** With [-D 5] and the calls 3 and 7: thread 0 is at the gate after
    call 7; its next statement ends the process. *)
Lemma dump_gate_exits_witness :
  let s := after_schedule Demo.dump_at_5 Demo.sparse (Demo.globals [])
             (replicate 15 0%nat) in
  reachable Demo.dump_at_5 Demo.sparse (Demo.globals []) s
  ∧ runner_at (runners s) 0 = Some (Demo.running (Leg_gate (mkCall 7 0 0 "b")))
  ∧ retraced (out (glob s)) = Demo.sparse
  ∧ exited (after_schedule Demo.dump_at_5 Demo.sparse (Demo.globals [])
              (replicate 16 0%nat)) = Some (Exit 0)
  ∧ last (retraced (out (glob s))) = Some (mkCall 7 0 0 "b")
  ∧ (dumpStateCallNo Demo.dump_at_5 <= no (mkCall 7 0 0 "b") →
     dumpState Demo.X (world (glob s)) = true →
     ∃ s', step Demo.dump_at_5 0 s = Some s' ∧ exited s' = Some (Exit 0)
           ∧ (∀ t', step Demo.dump_at_5 t' s' = None)
           ∧ retraced (out (glob s')) = retraced (out (glob s)))
  ∧ (no (mkCall 7 0 0 "b") < dumpStateCallNo Demo.dump_at_5 →
     ∃ s', step Demo.dump_at_5 0 s = Some s' ∧ exited s' = None
           ∧ glob s' = glob s ∧ pc_at (runners s') 0 = Some Leg_parse).
Proof.
  split; [apply after_schedule_reachable|]. do 3 (split; [reflexivity|]).
  apply (dump_gate_exits Demo.dump_at_5 Demo.sparse (Demo.globals []) _
           0%nat (Demo.running (Leg_gate (mkCall 7 0 0 "b"))) (mkCall 7 0 0 "b"));
    [apply after_schedule_reachable | reflexivity | reflexivity].
Defined.

(** Two frames on two threads, replayed from [mainLoop], the threads
    taking turns: after forty statements three calls are retraced and
    one frame is counted, at the end four calls and two frames. *)
Lemma frames_counted_witness :
  let g := Demo.globals [] in
  let mid := after_schedule Demo.plain Demo.two_frames (mainLoop_begin g)
               (take 40 Demo.two_frames_turns) in
  let s := after_schedule Demo.plain Demo.two_frames (mainLoop_begin g)
             Demo.two_frames_turns in
  dispatcher_counts_frames Demo.X
  ∧ Z.of_nat (length (filter (endFrame Demo.X) Demo.two_frames)) <= UINT_MAX
  ∧ reachable Demo.plain Demo.two_frames (mainLoop_begin g) mid
  ∧ reachable Demo.plain Demo.two_frames (mainLoop_begin g) s
  ∧ (retraced (out (glob mid)) = take 3 Demo.two_frames ∧ frameNo (glob mid) = 1)
  ∧ (retraced (out (glob s)) = Demo.two_frames ∧ frameNo (glob s) = 2)
  ∧ ((∃ d rest,
         Demo.two_frames = d ++ rest
         ∧ retraced (out (glob mid)) = retraced (out g) ++ d
         ∧ frameNo (glob mid) = Z.of_nat (length (filter (endFrame Demo.X) d)))
     ∧ (Demo.two_frames = [] →
        frameNo (glob mid) = 0 ∧ out (glob mid) = out g
        ∧ mainLoop Demo.plain [] g (mainLoop_end Demo.plain (mainLoop_begin g))))
  ∧ ((∃ d rest,
         Demo.two_frames = d ++ rest
         ∧ retraced (out (glob s)) = retraced (out g) ++ d
         ∧ frameNo (glob s) = Z.of_nat (length (filter (endFrame Demo.X) d)))
     ∧ (Demo.two_frames = [] →
        frameNo (glob s) = 0 ∧ out (glob s) = out g
        ∧ mainLoop Demo.plain [] g (mainLoop_end Demo.plain (mainLoop_begin g)))).
Proof.
  intros g mid s.
  split; [apply demo_counts_frames|]. split; [by vm_compute|].
  split; [apply after_schedule_reachable|].
  split; [apply after_schedule_reachable|].
  split; [by vm_compute|]. split; [by vm_compute|]. split.
  - apply (frames_counted Demo.plain Demo.two_frames g mid);
      [apply demo_counts_frames | by vm_compute | apply after_schedule_reachable].
  - apply (frames_counted Demo.plain Demo.two_frames g s);
      [apply demo_counts_frames | by vm_compute | apply after_schedule_reachable].
Defined.

(** The file [one.trace] (its one call has the number 7) and then the
    file [two.trace]: at the start of the second race [callNo] is 7. *)
Lemma callNo_survives_files_witness :
  let s1 := after_schedule Demo.plain [mkCall 7 0 0 "glClear"]
              (mainLoop_begin (Demo.globals [])) (replicate 15 0%nat) in
  let g1 := mainLoop_end Demo.plain (glob s1) in
  let t2 := [mkCall 0 0 0 "glClear"; mkCall 1 0 Demo.END_FRAME "glXSwapBuffers"] in
  let s2 := after_schedule Demo.plain t2 (mainLoop_begin g1) (replicate 5 0%nat) in
  mainLoop Demo.plain ([] ++ [mkCall 7 0 0 "glClear"]) (Demo.globals []) g1
  ∧ reachable Demo.plain t2 (mainLoop_begin g1) s2
  ∧ pc_at (runners s2) 0 = Some (Leg_callNo (mkCall 0 0 0 "glClear"))
  ∧ frameNo (mainLoop_begin g1) = 0
  ∧ callNo (mainLoop_begin g1) = no (mkCall 7 0 0 "glClear")
  ∧ (retraced (out (glob s2)) = retraced (out g1) →
     (∀ i r c, runner_at (runners s2) i = Some r → pc r ≠ Leg_retrace c) →
     callNo (glob s2) = no (mkCall 7 0 0 "glClear")).
Proof.
  intros s1 g1 t2 s2.
  assert (mainLoop Demo.plain ([] ++ [mkCall 7 0 0 "glClear"]) (Demo.globals []) g1)
    as Hfirst.
  { exists s1. split; [apply after_schedule_reachable|]. split; [|reflexivity].
    split; [reflexivity|]. eexists. split; reflexivity. }
  split; [exact Hfirst|]. split; [apply after_schedule_reachable|].
  split; [reflexivity|].
  apply (callNo_survives_files Demo.plain [] (mkCall 7 0 0 "glClear")
           (Demo.globals []) g1 t2 s2 Hfirst).
  apply after_schedule_reachable.
Defined.

(** Not every option is taken: [-x] ends [main] with the error. *)
Lemma unknown_option_rejected_witness :
  is_option "-x" ∧ ("-x" ∉ documented) ∧ String.get 1 "-x" ≠ Some "p"%char
  ∧ parse_options "glretrace" ["-x"; "app.trace"] Demo.plain
    = Return 1 [EvStderr ("error: unknown option " +:+ "-x" +:+ newline);
                EvStdout (usage "glretrace")].
Proof.
  assert ("-x" ∉ documented) as Hdoc.
  { unfold documented. repeat (apply not_elem_of_cons; split; [done|]).
    apply not_elem_of_nil. }
  split; [reflexivity|]. split; [exact Hdoc|]. split; [done|].
  apply (unknown_option_rejected "glretrace" "-x" ["app.trace"] Demo.plain);
    [reflexivity | exact Hdoc | done].
Defined.

(** No option given, a call of number 7: the gate lets it pass. *)
Lemma default_gate_below_max_witness :
  ("-D" ∉ ["app.trace"])
  ∧ parse_options "glretrace" ["app.trace"] (default_config Demo.X)
    = Proceed Demo.plain ["app.trace"]
  ∧ no (mkCall 7 0 0 "glClear") < UINT_MAX
  ∧ dump_gate Demo.plain (mkCall 7 0 0 "glClear") (Demo.globals [])
    = Running (Demo.globals []).
Proof.
  assert ("-D" ∉ ["app.trace"]) as HD.
  { apply not_elem_of_cons. split; [done | apply not_elem_of_nil]. }
  split; [exact HD|]. split; [reflexivity|]. split; [reflexivity|].
  apply (default_gate_below_max "glretrace" ["app.trace"] Demo.plain
           ["app.trace"] (mkCall 7 0 0 "glClear") (Demo.globals []));
    [exact HD | reflexivity | reflexivity].
Defined.

(** The two-thread trace run to its end, the threads taking turns: [run]
    has returned, with the globals of the three calls in sequence. *)
Lemma race_refines_replay_witness :
  let g := mainLoop_begin (Demo.globals []) in
  let s := after_schedule Demo.plain Demo.two_threads g (Demo.turns [0; 1]%nat) in
  reachable Demo.plain Demo.two_threads g s
  ∧ run_returned s
  ∧ retraced (out (glob s)) = Demo.two_threads
  ∧ (run_returned s → replay Demo.plain Demo.two_threads g = Running (glob s))
  ∧ (∀ why, exited s = Some why →
       replay Demo.plain Demo.two_threads g = Stopped why (glob s)).
Proof.
  intros g s. split; [apply after_schedule_reachable|].
  split; [apply run_returned_at; by vm_compute|].
  split; [by vm_compute|].
  apply (race_refines_replay Demo.plain Demo.two_threads g s).
  apply after_schedule_reachable.
Defined.


(** Two schedules of the two-thread trace, the threads taking turns one
    for one or three for one: they differ, and [mainLoop] leaves the same
    globals. *)
Lemma mainLoop_deterministic_witness :
  let g := Demo.globals [] in
  let s1 := after_schedule Demo.plain Demo.two_threads (mainLoop_begin g)
              (Demo.turns [0; 1]%nat) in
  let s2 := after_schedule Demo.plain Demo.two_threads (mainLoop_begin g)
              (Demo.turns [0; 0; 0; 1]%nat) in
  Demo.turns [0; 1]%nat ≠ Demo.turns [0; 0; 0; 1]%nat
  ∧ mainLoop Demo.plain Demo.two_threads g (mainLoop_end Demo.plain (glob s1))
  ∧ mainLoop Demo.plain Demo.two_threads g (mainLoop_end Demo.plain (glob s2))
  ∧ mainLoop_end Demo.plain (glob s1) = mainLoop_end Demo.plain (glob s2).
Proof.
  intros g s1 s2.
  assert (mainLoop Demo.plain Demo.two_threads g (mainLoop_end Demo.plain (glob s1)))
    as H1.
  { exists s1. split; [apply after_schedule_reachable|]. split; [|reflexivity].
    apply run_returned_at; by vm_compute. }
  assert (mainLoop Demo.plain Demo.two_threads g (mainLoop_end Demo.plain (glob s2)))
    as H2.
  { exists s2. split; [apply after_schedule_reachable|]. split; [|reflexivity].
    apply run_returned_at; by vm_compute. }
  split; [by vm_compute|]. split; [exact H1|]. split; [exact H2|].
  apply (mainLoop_deterministic Demo.plain Demo.two_threads g _ _ H1 H2).
Defined.

Lemma demo_legs_in_range :
  legs_in_range Demo.two_threads ∧ legs_in_range Demo.sparse.
Proof.
  split; intros call Hin;
    repeat (apply elem_of_cons in Hin as [->|Hin]; [by vm_compute|]);
    by apply elem_of_nil in Hin.
Qed.

(** The result of [mainLoop] on the two-thread trace, had by evaluating
    the sequence: one frame, and [callNo] at the last call. *)
Lemma mainLoop_is_replay_witness :
  let g' := final (replay Demo.plain Demo.two_threads
                     (mainLoop_begin (Demo.globals []))) in
  legs_in_range Demo.two_threads
  ∧ mainLoop Demo.plain Demo.two_threads (Demo.globals [])
      (mainLoop_end Demo.plain g')
  ∧ frameNo g' = 1 ∧ callNo g' = 3 ∧ retraced (out g') = Demo.two_threads.
Proof.
  intros g'. split; [apply demo_legs_in_range|].
  split; [|split_and!; reflexivity].
  apply (mainLoop_is_replay Demo.plain Demo.two_threads (Demo.globals []) _
           (proj1 demo_legs_in_range)).
  exists g'. split; reflexivity.
Defined.

(** With [-D 5] the calls 3 and 7 have a run that ends at the gate of
    call 7, with status 0. *)
Lemma replay_is_a_run_witness :
  legs_in_range Demo.sparse
  ∧ replay Demo.dump_at_5 Demo.sparse (Demo.globals [])
    = Stopped (Exit 0)
        (final (replay Demo.dump_at_5 Demo.sparse (Demo.globals [])))
  ∧ ∃ schedule s,
      run_schedule Demo.dump_at_5 schedule
        (race_start Demo.sparse (Demo.globals [])) = Some s
      ∧ match replay Demo.dump_at_5 Demo.sparse (Demo.globals []) with
        | Running g' => run_returned s ∧ glob s = g'
        | Stopped why g' => exited s = Some why ∧ glob s = g'
        end.
Proof.
  split; [apply demo_legs_in_range|]. split; [reflexivity|].
  apply (replay_is_a_run Demo.dump_at_5 Demo.sparse (Demo.globals [])).
  apply demo_legs_in_range.
Defined.

(** ** The record of a run *)

Section Record.

Context {X : External} (cfg : Config X).

Implicit Types (g : Globals X) (c call : Call) (e : Event).

Lemma adds_refl P g : adds P g g.
Proof. exists []. by rewrite app_nil_r. Qed.

Lemma adds_trans P g1 g2 g3 : adds P g1 g2 → adds P g2 g3 → adds P g1 g3.
Proof.
  intros (e1 & H1 & F1) (e2 & H2 & F2). exists (e1 ++ e2).
  rewrite H2, H1, app_assoc. split; [done|]. by apply Forall_app.
Qed.

Lemma adds_emit (P : Event → Prop) e g : P e → adds P g (emit e g).
Proof. intros H. exists [e]. split; [done|]. by constructor. Qed.

Lemma adds_mono (P Q : Event → Prop) g g' :
  (∀ e, P e → Q e) → adds P g g' → adds Q g g'.
Proof.
  intros HPQ (evs & H & F). exists evs. split; [done|].
  by eapply Forall_impl.
Qed.

Lemma takeSnapshot_capture_adds call ref g :
  doSnapshot cfg call = true →
  (is_Some ref → is_Some (comparePrefix cfg)) →
  adds (call_event cfg call) g
    (takeSnapshot_capture cfg (snapshot_index X call) ref g).
Proof.
  intros Hdo Href. unfold takeSnapshot_capture.
  destruct (getSnapshot X (world g)) as [src|]; [|apply adds_refl].
  set (g1 := match snapshotPrefix cfg with Some _ => _ | None => g end).
  assert (adds (call_event cfg call) g g1) as H1.
  { unfold g1. destruct (snapshotPrefix cfg) as [prefix|] eqn:Hp; [|apply adds_refl].
    destruct (String.eqb prefix "-") eqn:Hdash.
    - apply String.eqb_eq in Hdash as ->. apply adds_emit. by constructor.
    - apply String.eqb_neq in Hdash.
      destruct (writePNG X src _ (world g)) as [ok w].
      assert (adds (call_event cfg call) g
                (emit (EvWritePNG (png_name prefix (snapshot_index X call)) ok)
                   (set_world w g))) as H1.
      { exists [EvWritePNG (png_name prefix (snapshot_index X call)) ok].
        split; [done|]. constructor; [|done]. by eapply ce_png. }
      destruct (ok && (0 <=? verbosity cfg)) eqn:Hv; [|done].
      eapply adds_trans; [exact H1|]. apply adds_emit.
      apply andb_true_iff in Hv as [_ Hv%Z.leb_le]. by eapply ce_wrote. }
  destruct ref as [r|]; [|done].
  destruct Href as [prefix Hc]; [done|].
  eapply adds_trans; [exact H1|]. apply adds_emit. by eapply ce_compare.
Qed.

Lemma takeSnapshot_adds call g :
  doSnapshot cfg call = true →
  adds (call_event cfg call) g (final (takeSnapshot cfg (snapshot_index X call) g)).
Proof.
  intros Hdo. unfold takeSnapshot.
  assert (adds (call_event cfg call) g (emit (EvTakeSnapshot (snapshot_index X call)) g))
    as H0 by (apply adds_emit; by constructor).
  destruct (snapshotPrefix cfg) as [sp|] eqn:Hsp,
           (comparePrefix cfg) as [cp|] eqn:Hcp; cbn [final].
  all: try done.
  all: try (destruct (readPNG X _ _) as [ref|]; cbn [final]; [|done]).
  all: eapply adds_trans; [exact H0|].
  all: try (eapply adds_trans;
    [|apply takeSnapshot_capture_adds; [done | intros _; by rewrite ?Hcp]]).
  all: try (destruct (0 <=? verbosity cfg) eqn:Hv; [|apply adds_refl];
            apply adds_emit; apply Z.leb_le in Hv; by eapply ce_read).
  all: apply takeSnapshot_capture_adds; [done | by intros []].
Qed.

Lemma stage_adds k call g :
  adds (call_event cfg call) g (final (stage cfg k call g)).
Proof.
  destruct k as [|[|[|[|k]]]]; cbn [stage final].
  - unfold snapshot_before.
    destruct (doSnapshot cfg call) eqn:Hdo; [|apply adds_refl].
    destruct (swapRenderTarget X call) eqn:Hsw; [|apply adds_refl].
    cbn [andb].
    pose proof (takeSnapshot_adds call g Hdo) as H.
    unfold snapshot_index in H. rewrite Hsw in H.
    by destruct (endFrame X call).
  - exists []. by rewrite app_nil_r.
  - exists [EvRetrace call].
    destruct (retrace_observed call g) as (_ & _ & Ho).
    split; [done|]. constructor; [constructor | done].
  - unfold snapshot_after.
    destruct (doSnapshot cfg call) eqn:Hdo; [|apply adds_refl].
    destruct (swapRenderTarget X call) eqn:Hsw; [apply adds_refl|].
    cbn [andb negb].
    pose proof (takeSnapshot_adds call g Hdo) as H.
    unfold snapshot_index in H. by rewrite Hsw in H.
  - unfold dump_gate.
    destruct (dumpStateCallNo cfg <=? no call) eqn:Hno; [|apply adds_refl].
    apply Z.leb_le in Hno.
    destruct (dumpState X (world g)); cbn [final]; apply adds_emit; by constructor.
Qed.

Lemma stages_adds n call g :
  adds (call_event cfg call) g (final (stages cfg n call g)).
Proof.
  induction n as [|n IH]; [apply adds_refl|].
  rewrite stages_S. destruct (stages cfg n call g) as [g1|why g1]; [|done].
  cbn [and_then final] in *. eapply adds_trans; [exact IH | apply stage_adds].
Qed.

Lemma retraceCall_adds call g :
  adds (call_event cfg call) g (final (retraceCall cfg call g)).
Proof. rewrite retraceCall_stages. apply stages_adds. Qed.

Lemma replay_event_mono l1 l l2 e :
  replay_event cfg l e → replay_event cfg (l1 ++ l ++ l2) e.
Proof.
  intros [call e' Hin He | k1 a b k2 -> Hne].
  - apply (re_call _ _ call); [|done]. rewrite !elem_of_app. auto.
  - apply (re_flush _ _ (l1 ++ k1) a b (k2 ++ l2)); [|done].
    by rewrite <- !app_assoc.
Qed.

Lemma relay_adds prev call g :
  adds (replay_event cfg (option_list prev ++ [call])) g (relay prev call g).
Proof.
  unfold relay. destruct prev as [p|]; [|apply adds_refl].
  case_decide as Hne; [apply adds_refl|].
  exists [EvFlushRendering]. split; [done|]. constructor; [|done].
  apply (re_flush _ _ [] p call []); [done | congruence].
Qed.

Lemma replay_from_adds prev d g :
  adds (replay_event cfg (option_list prev ++ d)) g (final (replay_from cfg prev d g)).
Proof.
  revert prev g. induction d as [|c d IH]; intros prev g; [apply adds_refl|].
  cbn [replay_from].
  eapply adds_trans.
  { eapply adds_mono; [|apply (relay_adds prev c g)]. intros e He.
    apply (replay_event_mono [] _ d) in He.
    by rewrite <- app_assoc in He. }
  pose proof (retraceCall_adds c (relay prev c g)) as Hc.
  assert (∀ e, call_event cfg c e → replay_event cfg (option_list prev ++ c :: d) e) as Hin.
  { intros e He. apply (re_call _ _ c); [|done]. rewrite elem_of_app. right. by left. }
  destruct (retraceCall cfg c (relay prev c g)) as [g1|why g1]; cbn [and_then final] in *.
  - eapply adds_trans; [by eapply adds_mono|].
    eapply adds_mono; [|apply (IH (Some c) g1)]. intros e He.
    apply (replay_event_mono (option_list prev) _ []) in He.
    by rewrite app_nil_r in He.
  - by eapply adds_mono.
Qed.

Lemma relay_in_trace d c rest e :
  replay_event cfg (option_list (last d) ++ [c]) e → replay_event cfg (d ++ c :: rest) e.
Proof.
  intros He. destruct d as [|p d _] using rev_ind.
  - by apply (replay_event_mono [] _ rest) in He.
  - rewrite last_snoc in He. apply (replay_event_mono d _ rest) in He.
    by rewrite <- !app_assoc in *.
Qed.

Lemma phase_adds trace g0 g (how : option Stop) :
  phase cfg trace g0 g how → adds (replay_event cfg trace) g0 g.
Proof.
  assert (∀ d c rest g1, trace = d ++ c :: rest →
            replay cfg d g0 = Running g1 →
            adds (replay_event cfg trace) g0 (relay (last d) c g1)) as Hrelay.
  { intros d c rest g1 Htr Hrep.
    pose proof (replay_from_adds None d g0) as H. unfold replay in Hrep.
    rewrite Hrep in H. cbn [final option_list app] in H.
    eapply adds_trans.
    - eapply adds_mono; [|exact H]. intros ev Hev.
      apply (replay_event_mono [] _ (c :: rest)) in Hev. by rewrite Htr.
    - eapply adds_mono; [|apply (relay_adds (last d) c g1)]. intros ev Hev.
      rewrite Htr. by apply relay_in_trace. }
  assert (∀ d c rest ev, trace = d ++ c :: rest → call_event cfg c ev →
            replay_event cfg trace ev) as Hcall.
  { intros d c rest ev Htr Hev. apply (re_call _ _ c); [|done].
    rewrite Htr, elem_of_app. right. by left. }
  intros [d rest Htr Hrep _ | n d c rest g1 Hn Htr Hrep Hst _
         | d c rest g1 why Htr Hrep Hstop _].
  - pose proof (replay_from_adds None d g0) as H. unfold replay in Hrep.
    rewrite Hrep in H. eapply adds_mono; [|exact H]. intros ev Hev.
    apply (replay_event_mono [] _ rest) in Hev. by rewrite Htr.
  - eapply adds_trans; [by eapply Hrelay|].
    pose proof (stages_adds n c (relay (last d) c g1)) as Hs.
    rewrite Hst in Hs. eapply adds_mono; [|exact Hs]. eauto.
  - eapply adds_trans; [by eapply Hrelay|].
    pose proof (retraceCall_adds c (relay (last d) c g1)) as Hs.
    rewrite Hstop in Hs. eapply adds_mono; [|exact Hs]. eauto.
Qed.

Lemma steps_app l1 l2 : steps (l1 ++ l2) = steps l1 ++ steps l2.
Proof. apply filter_app. Qed.

Lemma call_event_steps call evs :
  Forall (call_event cfg call) evs → steps evs = marks evs.
Proof.
  induction 1 as [|e evs He _ IH]; [done|].
  unfold steps, marks in *. rewrite !filter_cons, IH.
  by destruct He.
Qed.

(** [retraceCall] runs through only if no snapshot is due or a prefix is
    set. *)
Lemma retraceCall_running_prefix call g g' :
  retraceCall cfg call g = Running g' → doSnapshot cfg call = true →
  has_prefix cfg = true.
Proof.
  intros Hrun Hdo. destruct (has_prefix cfg) eqn:Hp; [done|].
  assert (∀ n g1, ∃ g2, takeSnapshot cfg n g1 = Stopped AssertFail g2) as Hts.
  { intros n g1. destruct (takeSnapshot_out cfg n g1) as (_ & _ & _ & H).
    rewrite Hp in H. eauto. }
  unfold retraceCall, snapshot_before, snapshot_after in Hrun.
  rewrite Hdo in Hrun. destruct (swapRenderTarget X call); cbn [andb negb] in Hrun.
  - destruct (endFrame X call).
    + destruct (Hts (no call) g) as [g2 H2]. by rewrite H2 in Hrun.
    + destruct (Hts (wrap (no call - 1)) g) as [g2 H2]. by rewrite H2 in Hrun.
  - cbn [and_then] in Hrun.
    destruct (Hts (no call) (retrace call (assign_callNo call g))) as [g2 H2].
    by rewrite H2 in Hrun.
Qed.

Lemma retraceCall_steps call g g' :
  retraceCall cfg call g = Running g' →
  steps (out g') = steps (out g) ++ call_steps cfg call.
Proof.
  intros Hrun.
  destruct (retraceCall_marks cfg call g) as (evs & Ho & Hm & _).
  destruct (retraceCall_adds call g) as (evs' & Ho' & Hf).
  rewrite Hrun in Ho, Ho'. cbn [final] in Ho, Ho'.
  rewrite Ho in Ho'. apply app_inv_head in Ho' as <-.
  rewrite Ho, steps_app, (call_event_steps _ _ Hf), Hm. f_equal.
  unfold call_steps, snapshot_index.
  destruct (doSnapshot cfg call) eqn:Hdo; [|done].
  rewrite (retraceCall_running_prefix _ _ _ Hrun Hdo).
  by destruct (swapRenderTarget X call).
Qed.

Lemma replay_from_steps prev d g g' :
  replay_from cfg prev d g = Running g' →
  steps (out g') = steps (out g) ++ trace_steps cfg prev d.
Proof.
  revert prev g. induction d as [|c d IH]; intros prev g H; cbn in H.
  - injection H as <-. by rewrite app_nil_r.
  - apply and_then_running in H as (g1 & H1 & H2).
    apply retraceCall_steps in H1. apply IH in H2. rewrite H2, H1.
    cbn [trace_steps]. rewrite <- !app_assoc.
    assert (steps (out (relay prev c g)) = steps (out g) ++
              match prev with
              | Some p =>
                  if decide (thread_id c = thread_id p) then []
                  else [EvFlushRendering]
              | None => []
              end) as ->; [|by rewrite <- !app_assoc].
    unfold relay. destruct prev as [p|]; [|by rewrite app_nil_r].
    case_decide; [by rewrite app_nil_r|]. unfold flush. cbn.
    by rewrite steps_app.
Qed.

(** The steps of a replay that returns are those of the trace, whatever
    the schedule of the threads: after [mainLoop] the snapshots taken,
    the calls retraced and the flushes of the rendering are, in this
    order, those of the calls in the order of the stream, each call with
    its snapshot before it when it swaps the render target and after it
    otherwise, and a flush wherever the thread changes. *)
Theorem mainLoop_schedule trace g g1 :
  mainLoop cfg trace g g1 →
  steps (out g1) = steps (out g) ++ trace_steps cfg None trace.
Proof.
  intros (s & Hreach & Hret & ->).
  apply returned_replay in Hreach; [|done].
  apply replay_from_steps in Hreach. cbn in Hreach.
  unfold mainLoop_end.
  destruct ((-1 <=? verbosity cfg) || profiling cfg), (waitOnFinish cfg);
    cbn; rewrite ?steps_app, ?Hreach; cbn; by rewrite ?app_nil_r.
Qed.

(** Whatever the schedule, all that a race adds to the record is
    licensed by a call of the trace and by the options: a call retraced,
    the snapshot of a call for which one is due, at its index, a file
    read, written or compared under the prefix that asks for it, a state
    dump from the call of [-D] on, or a flush between two calls of
    different threads that follow each other in the stream. *)
Theorem output_policy trace g0 s :
  reachable cfg trace g0 s →
  ∃ evs, out (glob s) = out g0 ++ evs ∧ Forall (replay_event cfg trace) evs.
Proof.
  intros HI%reachable_invariant. apply invariant_phase in HI.
  by apply phase_adds in HI.
Qed.

(** With [-s -], no comparison, the verbosity that [-s -] sets and no
    profiling, on a trace that stays below the call of [-D], all that
    [mainLoop] writes to standard output is the PNM images: the stream
    can be piped. *)
Theorem pnm_stream_clean trace g g1 :
  snapshotPrefix cfg = Some "-" → comparePrefix cfg = None →
  verbosity cfg < -1 → profiling cfg = false →
  (∀ call, call ∈ trace → no call < dumpStateCallNo cfg) →
  mainLoop cfg trace g g1 →
  ∃ evs, out g1 = out g ++ evs
         ∧ Forall (λ e, on_stdout e = true → ∃ comment, e = EvWritePNM comment) evs.
Proof.
  intros Hs Hc Hv Hp Hno (s & Hreach & Hret & ->).
  apply reachable_invariant, invariant_phase, phase_adds in Hreach
    as (evs & Ho & Hf).
  exists (evs ++ if waitOnFinish cfg then [EvWaitForInput] else []). split.
  - unfold mainLoop_end. rewrite Hp.
    rewrite (proj2 (Z.leb_gt _ _)) by lia. cbn.
    destruct (waitOnFinish cfg); cbn; rewrite Ho, <- ?app_assoc; cbn;
      by rewrite ?app_nil_r.
  - apply Forall_app. split; [|by destruct (waitOnFinish cfg); repeat constructor].
    eapply Forall_impl; [exact Hf|]. cbn.
    intros e [call e' Hin He | ]; [|done].
    destruct He; cbn; try done; try (intros _; by eexists); try congruence; try lia.
    apply Hno in Hin. lia.
Qed.

End Record.

(** ** The exit status of the process *)

Section MainLevel.

Context {X : External}.

Implicit Types (g : Globals X) (c cfg : Config X) (call : Call).

Lemma prefixed_guarded cfg : empty_contains_nothing X → prefixed cfg → guarded cfg.
Proof.
  intros Hlaw [Hs Hc] call Hdo. unfold doSnapshot in Hdo. unfold has_prefix.
  apply orb_true_iff in Hdo as [Hdo|Hdo].
  - destruct Hs as [Hs|[p Hp]]; [by rewrite (Hlaw _ call Hs) in Hdo|].
    by rewrite Hp.
  - destruct Hc as [Hc|[p Hp]]; [by rewrite (Hlaw _ call Hc) in Hdo|].
    rewrite Hp. by destruct (snapshotPrefix cfg).
Qed.

Lemma parse_options_prefixed argv0 args c c' files :
  prefixed c → parse_options argv0 args c = Proceed c' files →
  prefixed c' ∨ files = [].
Proof.
  remember (length args) as n eqn:Hn. revert args c Hn.
  induction n as [n IH] using lt_wf_ind. intros args c Hn Hc H.
  destruct args as [|arg rest]; simpl in H; [injection H as <- <-; by right|].
  assert (∀ c1, prefixed c1 → parse_options argv0 rest c1 = Proceed c' files →
            prefixed c' ∨ files = []) as IH1.
  { intros c1 H1. apply (IH (length rest)); [simpl in Hn; lia | done | done]. }
  assert (∀ v rest' c1, rest = v :: rest' → prefixed c1 →
            parse_options argv0 rest' c1 = Proceed c' files →
            prefixed c' ∨ files = []) as IH2.
  { intros v rest' c1 -> H1 Hc1.
    apply (IH (length rest')) in Hc1; [done | simpl in Hn; lia | done | done]. }
  pose proof Hc as [Hs Hcmp].
  destruct (negb _); [injection H as <- _; by left|].
  destruct (String.eqb arg "--"); [injection H as <- _; by left|].
  destruct (String.eqb arg "-b"); [apply IH1 in H; [done | by split]|].
  destruct (String.eqb arg "-c").
  { destruct rest as [|v rest']; [injection H as _ <-; by right|].
    apply (IH2 _ _ _ eq_refl) in H; [done|]. unfold opt_c. cbn.
    destruct (CallSet_empty X (compareFrequency c)); split; cbn; eauto. }
  destruct (String.eqb arg "-C").
  { destruct rest as [|v rest']; [done|].
    apply (IH2 _ _ _ eq_refl) in H; [done|]. unfold opt_C. cbn.
    destruct (comparePrefix c) eqn:E; split; cbn; rewrite ?E; eauto. }
  destruct (String.eqb arg "-D").
  { destruct rest as [|v rest']; [done|].
    apply (IH2 _ _ _ eq_refl) in H; [done | by split]. }
  destruct (String.eqb arg "-core"); [apply IH1 in H; [done | by split]|].
  destruct (String.eqb arg "-db"); [apply IH1 in H; [done | by split]|].
  destruct (String.eqb arg "-sb"); [apply IH1 in H; [done | by split]|].
  destruct (String.eqb arg "--help"); [done|].
  destruct (String.eqb arg "-s").
  { destruct rest as [|v rest']; [done|].
    apply (IH2 _ _ _ eq_refl) in H; [done|]. unfold opt_s. cbn.
    destruct (CallSet_empty X (snapshotFrequency c)), (String.eqb v "-");
      split; cbn; eauto. }
  destruct (String.eqb arg "-S").
  { destruct rest as [|v rest']; [done|].
    apply (IH2 _ _ _ eq_refl) in H; [done|]. unfold opt_S. cbn.
    destruct (snapshotPrefix c) eqn:E; split; cbn; rewrite ?E; eauto. }
  destruct (String.eqb arg "-v"); [apply IH1 in H; [done | by split]|].
  destruct (String.eqb arg "-w"); [apply IH1 in H; [done | by split]|].
  destruct (bool_decide _); [|done].
  apply IH1 in H; [done|]. unfold opt_p.
  by destruct (String.eqb arg "-pcpu"), (String.eqb arg "-pgpu"),
    (String.eqb arg "-ppd"); split.
Qed.

Lemma parse_options_status argv0 args c status printed :
  parse_options argv0 args c = Return status printed → status = 0 ∨ status = 1.
Proof.
  remember (length args) as n eqn:Hn. revert args c Hn.
  induction n as [n IH] using lt_wf_ind. intros args c Hn H.
  destruct args as [|arg rest]; simpl in H; [done|].
  assert (∀ c1, parse_options argv0 rest c1 = Return status printed →
            status = 0 ∨ status = 1) as IH1.
  { intros c1. apply (IH (length rest)); [simpl in Hn; lia | done]. }
  assert (∀ v rest' c1, rest = v :: rest' →
            parse_options argv0 rest' c1 = Return status printed →
            status = 0 ∨ status = 1) as IH2.
  { intros v rest' c1 -> Hc1.
    apply (IH (length rest')) in Hc1; [done | simpl in Hn; lia | done]. }
  destruct (negb _); [done|].
  destruct (String.eqb arg "--"); [done|].
  destruct (String.eqb arg "-b"); [by eapply IH1|].
  destruct (String.eqb arg "-c").
  { destruct rest as [|v rest']; [done|]. by eapply IH2. }
  destruct (String.eqb arg "-C").
  { destruct rest as [|v rest']; [done|]. by eapply IH2. }
  destruct (String.eqb arg "-D").
  { destruct rest as [|v rest']; [done|]. by eapply IH2. }
  destruct (String.eqb arg "-core"); [by eapply IH1|].
  destruct (String.eqb arg "-db"); [by eapply IH1|].
  destruct (String.eqb arg "-sb"); [by eapply IH1|].
  destruct (String.eqb arg "--help"); [injection H as <- _; by left|].
  destruct (String.eqb arg "-s").
  { destruct rest as [|v rest']; [done|]. by eapply IH2. }
  destruct (String.eqb arg "-S").
  { destruct rest as [|v rest']; [done|]. by eapply IH2. }
  destruct (String.eqb arg "-v"); [by eapply IH1|].
  destruct (String.eqb arg "-w"); [by eapply IH1|].
  destruct (bool_decide _); [by eapply IH1|].
  injection H as <- _. by right.
Qed.

Section Exit.

Variable cfg : Config X.

Lemma retraceCall_stop_cases call g why g' :
  retraceCall cfg call g = Stopped why g' →
  why = Exit 0
  ∨ (why = AssertFail ∧ doSnapshot cfg call = true ∧ has_prefix cfg = false).
Proof.
  intros H. destruct (has_prefix cfg) eqn:Hp.
  { left. by eapply retraceCall_stop_status. }
  assert (∀ n g1, takeSnapshot cfg n g1
                  = Stopped AssertFail (emit (EvTakeSnapshot n) g1)) as Hts.
  { intros n g1. destruct (takeSnapshot_out cfg n g1) as (_ & _ & _ & Hs).
    by rewrite Hp in Hs. }
  assert (∀ g1, dump_gate cfg call g1 = Stopped why g' → why = Exit 0) as Hgate.
  { intros g1. unfold dump_gate. destruct (dumpStateCallNo cfg <=? no call); [|done].
    destruct (dumpState X (world g1)); [|done]. by intros [= <- _]. }
  unfold retraceCall, snapshot_before, snapshot_after in H.
  destruct (doSnapshot cfg call) eqn:Hdo; cbn [andb and_then] in H.
  - right. split; [|done].
    destruct (swapRenderTarget X call); cbn [negb and_then] in H.
    + destruct (endFrame X call); rewrite Hts in H; cbn in H; congruence.
    + rewrite Hts in H. cbn in H. congruence.
  - left. by eapply Hgate.
Qed.

Lemma replay_from_stop prev d g why g' :
  replay_from cfg prev d g = Stopped why g' →
  ∃ call g1, call ∈ d ∧ retraceCall cfg call g1 = Stopped why g'.
Proof.
  revert prev g. induction d as [|c d IH]; intros prev g H; cbn in H; [done|].
  destruct (retraceCall cfg c (relay prev c g)) as [g1|why1 g1] eqn:Hc; cbn in H.
  - apply IH in H as (call & g2 & Hin & Hstop). exists call, g2.
    split; [by right | done].
  - injection H as <- <-. exists c, (relay prev c g). split; [by left | done].
Qed.

Lemma guarded_stop trace g0 s why :
  guarded cfg → reachable cfg trace g0 s → exited s = Some why → why = Exit 0.
Proof.
  intros Hg Hreach He. apply (exited_replay _ _ _ _ _ Hreach) in He.
  apply replay_from_stop in He as (call & g1 & _ & Hstop).
  apply retraceCall_stop_cases in Hstop as [-> | (_ & Hdo & Hp)]; [done|].
  apply Hg in Hdo. congruence.
Qed.

Lemma main_files_status files g why g' :
  guarded cfg ∨ files = [] → main_files cfg files g why g' →
  why = Exit 0 ∨ why = Exit 1.
Proof.
  intros Hg H. induction H as [g | file rest g Hopen
                               | file rest trace g g1 why g' Hopen Hloop _ IH
                               | file rest trace g s why Hopen Hreach He].
  - by left.
  - by right.
  - destruct Hg as [Hg|?]; [|done]. apply IH. by left.
  - destruct Hg as [Hg|?]; [|done]. left. by eapply guarded_stop.
Qed.

(** The files of the command line give one outcome, whatever the
    schedules of their races. *)
Lemma main_files_deterministic files g why1 g1 why2 g2 :
  main_files cfg files g why1 g1 → main_files cfg files g why2 g2 →
  why1 = why2 ∧ g1 = g2.
Proof.
  intros H. revert why2 g2.
  induction H as [g | file rest g Hopen
                 | file rest trace g ga why g' Hopen Hloop _ IH
                 | file rest trace g s why Hopen Hreach He];
    intros why2 g2 H2; inversion H2; simplify_eq; try done.
  - destruct Hloop as (s1 & Hr1 & Hret1 & ->).
    match goal with
    | H : mainLoop cfg _ g _ |- _ => destruct H as (s2 & Hr2 & Hret2 & ->)
    end.
    apply (returned_replay _ _ _ _ Hr1) in Hret1.
    apply (returned_replay _ _ _ _ Hr2) in Hret2.
    rewrite Hret1 in Hret2. injection Hret2 as Heq. rewrite <- Heq in *. eauto.
  - destruct Hloop as (s1 & Hr1 & Hret1 & ->).
    apply (returned_replay _ _ _ _ Hr1) in Hret1.
    match goal with
    | Hr : reachable cfg _ _ ?s2, He : exited ?s2 = Some _ |- _ =>
        apply (exited_replay _ _ _ _ _ Hr) in He; congruence
    end.
  - match goal with
    | H : mainLoop cfg _ g _ |- _ => destruct H as (s1 & Hr1 & Hret1 & ->)
    end.
    apply (returned_replay _ _ _ _ Hr1) in Hret1.
    apply (exited_replay _ _ _ _ _ Hreach) in He. congruence.
  - apply (exited_replay _ _ _ _ _ Hreach) in He.
    match goal with
    | Hr : reachable cfg _ _ ?s2, He2 : exited ?s2 = Some _ |- _ =>
        apply (exited_replay _ _ _ _ _ Hr) in He2
    end.
    rewrite He in *. by simplify_eq.
Qed.

Lemma main_files_total files g :
  (∀ file trace, file ∈ files → parser_open X file = Some trace → legs_in_range trace) →
  ∃ why g', main_files cfg files g why g'.
Proof.
  revert g. induction files as [|file rest IH]; intros g Hlegs.
  - eexists _, _. constructor.
  - assert (∀ file trace, file ∈ rest → parser_open X file = Some trace →
              legs_in_range trace) as Hrest_legs.
    { intros f tr Hin. apply Hlegs. by right. }
    specialize (λ g, IH g Hrest_legs).
    destruct (parser_open X file) as [trace|] eqn:Hopen.
    + assert (legs_in_range trace) as Htr by (eapply Hlegs; [by left | done]).
      destruct (race_finishes cfg trace (mainLoop_begin g) Htr) as (l & s & Hrun & Hend).
      assert (reachable cfg trace (mainLoop_begin g) s) as Hreach.
      { eapply run_schedule_reachable; [constructor | done]. }
      destruct Hend as [Hret | [why He]].
      * destruct (IH (mainLoop_end cfg (glob s))) as (why & g' & Hrest).
        exists why, g'. eapply files_replayed; [done | | done].
        by exists s.
      * exists why, (glob s). by eapply files_stopped.
    + eexists _, _. by apply files_open_failed.
Qed.

End Exit.


(** When the option loop stays inside [argv] and the threads of the trace
    files are in the range of [getRunner], [main] ends, and how it ends
    and what it leaves in the record do not depend on the schedules of
    the races. *)
Theorem main_functional argv0 args g :
  parse_options argv0 args (default_config X) ≠ Undefined →
  (∀ file trace, parser_open X file = Some trace → legs_in_range trace) →
  ∃ why evs,
    main argv0 args g why evs
    ∧ ∀ why' evs', main argv0 args g why' evs' → why' = why ∧ evs' = evs.
Proof.
  intros Hdef Hlegs. unfold main.
  destruct (negb _); [by exists AssertFail, []; split; [|intros ?? [-> ->]]|].
  destruct (parse_options argv0 args (default_config X)) as [c files|status printed|];
    [| |done].
  - destruct (main_files_total c files g) as (why & g' & Hfiles); [by eauto|].
    exists why, (out g'). split; [by exists g'|].
    intros why' evs' (g2 & Hfiles2 & ->).
    by destruct (main_files_deterministic _ _ _ _ _ _ _ Hfiles2 Hfiles) as [-> ->].
  - exists (Exit status), printed. split; [done|]. by intros ?? [-> ->].
Qed.

(** [-s] and [-S], and [-c] and [-C], can be given in either order when
    the call set given is not empty. *)
Theorem prefix_and_callset_commute argv0 prefix callset rest c :
  CallSet_empty X (CallSet_parse X callset) = false →
  parse_options argv0 ("-s" :: prefix :: "-S" :: callset :: rest) c
  = parse_options argv0 ("-S" :: callset :: "-s" :: prefix :: rest) c
  ∧ parse_options argv0 ("-c" :: prefix :: "-C" :: callset :: rest) c
    = parse_options argv0 ("-C" :: callset :: "-c" :: prefix :: rest) c.
Proof.
  intros Hne. split.
  - cbn. f_equal. unfold opt_s, opt_S. destruct c as [w cp sp sf cf]. cbn.
    destruct (CallSet_empty X sf), (String.eqb prefix "-"), sp;
      cbn; rewrite ?Hne; reflexivity.
  - cbn. f_equal. unfold opt_c, opt_C. destruct c as [w cp sp sf cf]. cbn.
    destruct (CallSet_empty X cf), cp; cbn; rewrite ?Hne; reflexivity.
Qed.

(** [--] ends the options without being consumed: the loop over the
    files starts at it, and when no file has that name the process ends
    with [error: failed to open --] and status 1, whatever follows. *)
Theorem double_dash_is_a_file argv0 rest g why evs :
  CallSet_empty X (CallSet_default X) = true →
  parser_open X "--" = None →
  main argv0 ("--" :: rest) g why evs →
  why = Exit 1
  ∧ evs = out g ++ [EvStderr ("error: failed to open --" +:+ newline)].
Proof.
  intros Hdef Hopen. unfold main. cbn. rewrite Hdef. cbn.
  intros (g' & Hfiles & ->). inversion Hfiles; simplify_eq. done.
Qed.

End MainLevel.

(** ** The names of the snapshot files *)

Section Names.

Lemma digit_inj n m : digit n = digit m → n mod 10 = m mod 10.
Proof.
  unfold digit. intros H.
  assert (∀ k, (48 + Z.to_nat (k mod 10) < 256)%nat) as Hlt.
  { intros k. pose proof (Z.mod_pos_bound k 10). lia. }
  apply (f_equal nat_of_ascii) in H.
  rewrite !nat_ascii_embedding in H by apply Hlt.
  pose proof (Z.mod_pos_bound n 10). pose proof (Z.mod_pos_bound m 10). lia.
Qed.

Lemma zero_padded_length w n acc :
  String.length (zero_padded w n acc) = (w + String.length acc)%nat.
Proof.
  revert n acc. induction w as [|w IH]; intros n acc; [done|].
  cbn [zero_padded]. rewrite IH. cbn. lia.
Qed.

Lemma string_app_cons x (a b : string) : String x a +:+ b = String x (a +:+ b).
Proof. reflexivity. Qed.

Lemma string_app_length (a b : string) :
  String.length (a +:+ b) = (String.length a + String.length b)%nat.
Proof.
  induction a as [|x a IH]; [done|].
  rewrite string_app_cons. cbn. by rewrite IH.
Qed.

Lemma string_app_inv_tail (a b t : string) :
  String.length a = String.length b → a +:+ t = b +:+ t → a = b.
Proof.
  revert b. induction a as [|x a IH]; intros [|y b] Hlen H; try done.
  rewrite !string_app_cons in H. injection H as -> H. f_equal.
  apply IH; [cbn in Hlen; lia | done].
Qed.

Lemma zero_padded_inj w : ∀ n m acc acc',
  String.length acc = String.length acc' →
  zero_padded w n acc = zero_padded w m acc' →
  n mod 10 ^ Z.of_nat w = m mod 10 ^ Z.of_nat w ∧ acc = acc'.
Proof.
  induction w as [|w IH]; intros n m acc acc' Hlen H.
  - cbn in *. by rewrite !Z.mod_1_r.
  - cbn [zero_padded] in H. apply IH in H as [Hdiv Hacc]; [|cbn; lia].
    injection Hacc as Hd ->. split; [|done]. apply digit_inj in Hd.
    rewrite Nat2Z.inj_succ, Z.pow_succ_r by lia.
    rewrite !(Z.rem_mul_r _ 10) by lia. lia.
Qed.

(** The names [takeSnapshot] forms are as long as the prefix and fourteen
    characters, and two call numbers give the same name only if they are
    the same [unsigned]. *)
Theorem png_name_injective prefix n m :
  is_unsigned n → is_unsigned m →
  String.length (png_name prefix n) = (String.length prefix + 14)%nat
  ∧ (png_name prefix n = png_name prefix m → n = m).
Proof.
  unfold is_unsigned, UINT_MAX, png_name, format_010u. intros Hn Hm. split.
  - rewrite !string_app_length, zero_padded_length. cbn. lia.
  - intros H. apply String.app_inj in H.
    apply string_app_inv_tail in H; [|by rewrite !zero_padded_length].
    apply zero_padded_inj in H as [H _]; [|done].
    rewrite !Z.mod_small in H by lia. done.
Qed.

End Names.

(** ** The vector of runners *)

Section Vector.

Implicit Types (rs : list (option Runner)) (r : Runner).

(** [getRunner] is defined exactly when the leg is below the largest
    [unsigned] or already within the vector: at the largest [unsigned]
    the size [leg + 1] of line 377 wraps to 0 and the store of line 383
    is out of range. When it is defined it leaves a runner at [leg],
    keeps the vector as it is if a runner was there and makes a new
    runner if not, keeps every other entry, brings the length to
    [leg + 1] if it was less, and a second call changes nothing. *)
Theorem getRunner_spec rs leg :
  (is_Some (getRunner leg rs) ↔ Z.of_nat leg < UINT_MAX ∨ (leg < length rs)%nat)
  ∧ ∀ rs', getRunner leg rs = Some rs' →
      is_Some (runner_at rs' leg)
      ∧ (∀ r, runner_at rs leg = Some r → rs' = rs)
      ∧ (runner_at rs leg = None → runner_at rs' leg = Some (new_runner leg))
      ∧ (∀ j, j ≠ leg → runner_at rs' j = runner_at rs j)
      ∧ length rs' = (length rs `max` S leg)%nat
      ∧ getRunner leg rs' = Some rs'.
Proof.
  split.
  - split; [|apply getRunner_defined].
    intros [rs' Hg]. destruct (decide (leg < length rs)%nat) as [|Hlen]; [by right|].
    left. destruct (decide (Z.of_nat leg < UINT_MAX)) as [|Hbig]; [done|].
    exfalso. unfold getRunner in Hg. rewrite decide_True in Hg by lia.
    set (n := Z.to_nat (wrap (Z.of_nat leg + 1))) in Hg.
    assert (n ≤ leg)%nat as Hn.
    { unfold n, wrap, UINT_MAX in *.
      pose proof (Z.mod_pos_bound (Z.of_nat leg + 1) (2 ^ 32) ltac:(lia)). lia. }
    assert (runner_at (resize n None rs) leg = None) as Hnone.
    { unfold runner_at. rewrite lookup_ge_None_2; [done|]. by rewrite length_resize. }
    rewrite Hnone in Hg. rewrite decide_False in Hg; [done|].
    rewrite length_resize. lia.
  - intros rs' Hg.
    assert (is_Some (runner_at rs' leg)) as Hsome.
    { rewrite (runner_at_getRunner _ _ _ _ Hg), decide_True by done. by eexists. }
    split_and!.
    + done.
    + intros r Hr. rewrite (getRunner_present _ _ _ Hr) in Hg. by injection Hg.
    + intros Hn. by rewrite (runner_at_getRunner _ _ _ _ Hg), decide_True, Hn.
    + intros j Hj. by rewrite (runner_at_getRunner _ _ _ _ Hg), decide_False.
    + by apply length_getRunner.
    + destruct Hsome as [r Hr]. by eapply getRunner_present.
Qed.

End Vector.

(** ** The runners of a race *)

Section Presence.

Context {X : External} (cfg : Config X) (trace : list Call) (g0 : Globals X).

Implicit Types (s : State X) (rs : list (option Runner)) (r : Runner).

Lemma same_shape_refl rs : same_shape rs rs.
Proof. by split. Qed.

Lemma same_shape_trans rs1 rs2 rs3 :
  same_shape rs1 rs2 → same_shape rs2 rs3 → same_shape rs1 rs3.
Proof.
  intros [L1 P1] [L2 P2]. split; [congruence|]. intros i. by rewrite P2.
Qed.

Lemma same_shape_update rs i f : same_shape rs (update_runner i f rs).
Proof.
  split; [apply length_update|]. intros j. rewrite runner_at_update.
  case_decide; [subst|done]. by rewrite fmap_is_Some.
Qed.

Lemma same_shape_update_2 rs rs' i f :
  same_shape rs rs' → same_shape rs (update_runner i f rs').
Proof. intros H. eapply same_shape_trans; [exact H | apply same_shape_update]. Qed.

Lemma runners_resume t (o : Outcome X) l s :
  runners (resume t o l s)
  = update_runner t (set_pc (match o with Running _ => l | Stopped _ _ => Halted end))
      (runners s).
Proof. by destruct o. Qed.

Lemma step_shape s t s' r :
  Inv cfg trace g0 s → runner_at (runners s) t = Some r →
  step cfg t s = Some s' →
  match asks_for (pc r) with
  | Some leg => ∃ rs1, getRunner leg (runners s) = Some rs1 ∧ same_shape rs1 (runners s')
  | None => same_shape (runners s) (runners s')
  end.
Proof.
  intros HI Ht Hstep. destruct (inv_fore HI) as [r0 H0].
  unfold step in Hstep. destruct (exited s); [done|].
  rewrite Ht in Hstep. cbn [mbind option_bind] in Hstep.
  unfold asks_for.
  destruct (pc r) eqn:Hpc; unfold getForeRunner in *;
    rewrite ?(getRunner_present _ _ _ H0) in Hstep;
    simplify_option_eq; repeat case_match; simplify_eq;
    rewrite ?runners_resume; cbn [runners jump with_runners with_parser with_glob with_exited];
    try (eexists; split; [done|]);
    repeat apply same_shape_update_2; apply same_shape_refl.
Qed.

Lemma holder_not_ended s t r r0 :
  Inv cfg trace g0 s → runner_at (runners s) t = Some r →
  holds_pc (pc r) = true → runner_at (runners s) 0 = Some r0 →
  endgame (pc r0) = false.
Proof.
  intros HI Ht Hh H0. destruct (endgame (pc r0)) eqn:He; [|done].
  assert (tokens (runners s) = 0%nat) as Hz.
  { eapply (inv_ended HI 0%nat r0); [done | by right]. }
  pose proof (tokens_ge _ _ _ Ht) as Hge. unfold tokens_of in Hge.
  rewrite Hh in Hge. destruct (baton r); lia.
Qed.

(** While the fore runner goes through the vector in [stopRunners], no
    step of any thread changes the length of the vector or adds a
    runner: the iterator of line 445 stays valid. *)
Theorem vector_fixed_in_stopRunners s r0 t s' :
  reachable cfg trace g0 s →
  runner_at (runners s) 0 = Some r0 → in_stopRunners (pc r0) = true →
  step cfg t s = Some s' →
  length (runners s') = length (runners s)
  ∧ ∀ i, is_Some (runner_at (runners s') i) ↔ is_Some (runner_at (runners s) i).
Proof.
  intros HI%reachable_invariant H0 Hin Hstep.
  destruct (runner_at (runners s) t) as [r|] eqn:Ht.
  2:{ unfold step in Hstep. destruct (exited s); [done|]. by rewrite Ht in Hstep. }
  pose proof (step_shape _ _ _ _ HI Ht Hstep) as Hshape.
  destruct (asks_for (pc r)) as [leg|] eqn:Hask; [|done].
  assert (holds_pc (pc r) = true) as Hh by (by destruct (pc r)).
  pose proof (holder_not_ended _ _ _ _ HI Ht Hh H0).
  by destruct (pc r0).
Qed.

Lemma step_peopled s t s' :
  Inv cfg trace g0 s → Peopled trace s → step cfg t s = Some s' → Peopled trace s'.
Proof.
  intros HI [Hlegs Hlast] Hstep.
  destruct (runner_at (runners s) t) as [r|] eqn:Ht.
  2:{ unfold step in Hstep. destruct (exited s); [done|]. by rewrite Ht in Hstep. }
  pose proof (step_shape _ _ _ _ HI Ht Hstep) as Hshape.
  destruct (asks_for (pc r)) as [leg|] eqn:Hask.
  - destruct Hshape as (rs1 & Hg & Hlen & Hpres).
    destruct (pc r) eqn:Hpc; try done. injection Hask as <-.
    destruct (inv_position HI t r Ht) as [_ Hat]. rewrite Hpc in Hat.
    destruct Hat as (_ & d & g1 & Htr & _).
    split.
    + intros i. rewrite Hpres, (runner_at_getRunner _ _ _ _ Hg).
      case_decide as Hi; [|by apply Hlegs].
      intros _. right. exists call. split; [|done].
      rewrite Htr, elem_of_app. right. by left.
    + rewrite Hpres, Hlen, (length_getRunner _ _ _ Hg), (runner_at_getRunner _ _ _ _ Hg).
      case_decide; [by eexists|].
      replace (length (runners s) `max` S (thread_id call))%nat
        with (length (runners s)) by lia. done.
  - destruct Hshape as [Hlen Hpres]. split.
    + intros i. rewrite Hpres. apply Hlegs.
    + by rewrite Hpres, Hlen.
Qed.

Lemma reachable_peopled s : reachable cfg trace g0 s → Peopled trace s.
Proof.
  induction 1 as [|s t s' Hreach IH Hstep].
  - split; cbn; [|by eexists]. intros [|[|i]] [r Hr]; [by left | done..].
  - eapply step_peopled; [by apply reachable_invariant | done | done].
Qed.

(** The runners of a race are the fore runner and runners of threads
    that have a call in the trace, and the vector is never longer than
    the largest thread number of the trace plus one. *)
Theorem runners_of_trace s :
  reachable cfg trace g0 s →
  (∀ i, is_Some (runner_at (runners s) i) →
     i = 0%nat ∨ ∃ call, call ∈ trace ∧ thread_id call = i)
  ∧ (length (runners s) ≤ S (max_list (thread_id <$> trace)))%nat.
Proof.
  intros [Hlegs Hlast]%reachable_peopled. split; [done|].
  destruct (Hlegs _ Hlast) as [H0 | (call & Hin & Hid)]; [lia|].
  assert (thread_id call ≤ max_list (thread_id <$> trace))%nat.
  { apply max_list_elem_of_le. apply list_elem_of_fmap. eauto. }
  lia.
Qed.

End Presence.

(** ** Examples of the runs above *)

(** A schedule that ends with [run] returned gives [mainLoop]. *)
Lemma mainLoop_by_schedule {X : External} (cfg : Config X) trace (g : Globals X)
    schedule :
  exited (after_schedule cfg trace (mainLoop_begin g) schedule) = None →
  pc_at (runners (after_schedule cfg trace (mainLoop_begin g) schedule)) 0
  = Some Returned →
  mainLoop cfg trace g
    (mainLoop_end cfg (glob (after_schedule cfg trace (mainLoop_begin g) schedule))).
Proof.
  intros He Hpc. eexists. split; [apply after_schedule_reachable|].
  split; [by apply run_returned_at | done].
Qed.

(** The call sets of the example keep the promise of [trace_callset.hpp]. *)
Lemma demo_empty_contains_nothing : empty_contains_nothing Demo.X.
Proof. by intros [| |l] call. Qed.

(** The trace files of the example have the threads 0 only. *)
Lemma demo_files_in_range file trace :
  parser_open Demo.X file = Some trace → legs_in_range trace.
Proof.
  cbn. destruct (String.eqb file "two.trace"); [|destruct (String.eqb file "one.trace")];
    intros [= <-] call Hin; try done;
    repeat (apply elem_of_cons in Hin as [->|Hin]; [by vm_compute|]);
    by apply elem_of_nil in Hin.
Qed.

(** Two frames replayed with [-s out/ -c ref/], the reference of the
    first on disk: it is read, written and compared, the second only
    taken. *)
Lemma output_policy_witness :
  let g0 := mainLoop_begin Demo.one_reference in
  let s := after_schedule Demo.snap_compare Demo.two_frames g0
             (Demo.by_turns Demo.snap_compare Demo.two_frames Demo.one_reference) in
  reachable Demo.snap_compare Demo.two_frames g0 s
  ∧ filter is_output (out (glob s))
    = [EvStdout ("Read ref/0000000002.png" +:+ newline);
       EvWritePNG "out/0000000002.png" true;
       EvStdout ("Wrote out/0000000002.png" +:+ newline);
       EvCompare 2 "8"]
  ∧ ∃ evs, out (glob s) = out g0 ++ evs
           ∧ Forall (replay_event Demo.snap_compare Demo.two_frames) evs.
Proof.
  intros g0 s. split; [apply after_schedule_reachable|]. split; [by vm_compute|].
  apply (output_policy Demo.snap_compare Demo.two_frames g0 s).
  apply after_schedule_reachable.
Defined.

(** The same replay: its steps are the four calls, a snapshot after each
    end of frame and one flush where the thread changes. *)
Lemma mainLoop_schedule_witness :
  let g := Demo.one_reference in
  let s := after_schedule Demo.snap_compare Demo.two_frames (mainLoop_begin g)
             (Demo.by_turns Demo.snap_compare Demo.two_frames g) in
  let g1 := mainLoop_end Demo.snap_compare (glob s) in
  mainLoop Demo.snap_compare Demo.two_frames g g1
  ∧ trace_steps Demo.snap_compare None Demo.two_frames
    = [EvRetrace (mkCall 1 0 0 "glClear");
       EvRetrace (mkCall 2 0 Demo.END_FRAME "glXSwapBuffers");
       EvTakeSnapshot 2;
       EvFlushRendering;
       EvRetrace (mkCall 3 1 0 "glClear");
       EvRetrace (mkCall 4 1 Demo.END_FRAME "glXSwapBuffers");
       EvTakeSnapshot 4]
  ∧ steps (out g1) = steps (out g) ++ trace_steps Demo.snap_compare None Demo.two_frames.
Proof.
  intros g s g1.
  assert (mainLoop Demo.snap_compare Demo.two_frames g g1) as Hloop.
  { by apply mainLoop_by_schedule; vm_compute. }
  split; [exact Hloop|]. split; [by vm_compute|].
  apply (mainLoop_schedule Demo.snap_compare Demo.two_frames g g1 Hloop).
Defined.

(** [glretrace -s - two.trace] on the two frames: standard output holds
    the two images. *)
Lemma pnm_stream_clean_witness :
  let cfg := Demo.pnm_stdout in
  let g := Demo.globals [] in
  let s := after_schedule cfg Demo.two_frames (mainLoop_begin g)
             (Demo.by_turns cfg Demo.two_frames g) in
  let g1 := mainLoop_end cfg (glob s) in
  parse_options "glretrace" ["-s"; "-"; "two.trace"] Demo.plain
  = Proceed cfg ["two.trace"]
  ∧ snapshotPrefix cfg = Some "-" ∧ comparePrefix cfg = None
  ∧ verbosity cfg < -1 ∧ profiling cfg = false
  ∧ (∀ call, call ∈ Demo.two_frames → no call < dumpStateCallNo cfg)
  ∧ mainLoop cfg Demo.two_frames g g1
  ∧ filter on_stdout (out g1) = [EvWritePNM "2"; EvWritePNM "4"]
  ∧ ∃ evs, out g1 = out g ++ evs
           ∧ Forall (λ e, on_stdout e = true → ∃ comment, e = EvWritePNM comment) evs.
Proof.
  intros cfg g s g1.
  assert (∀ call, call ∈ Demo.two_frames → no call < dumpStateCallNo cfg) as Hno.
  { intros call Hin.
    repeat (apply elem_of_cons in Hin as [->|Hin]; [by vm_compute|]).
    by apply elem_of_nil in Hin. }
  assert (mainLoop cfg Demo.two_frames g g1) as Hloop.
  { by apply mainLoop_by_schedule; vm_compute. }
  split; [reflexivity|]. split; [reflexivity|]. split; [reflexivity|].
  split; [by vm_compute|]. split; [reflexivity|]. split; [exact Hno|].
  split; [exact Hloop|]. split; [by vm_compute|].
  apply (pnm_stream_clean cfg Demo.two_frames g g1);
    [reflexivity | reflexivity | by vm_compute | reflexivity | exact Hno
    | exact Hloop].
Defined.


(** [glretrace -s out/ two.trace one.trace]. *)
Lemma main_functional_witness :
  let args := ["-s"; "out/"; "two.trace"; "one.trace"] in
  let g := Demo.globals [] in
  parse_options "glretrace" args (default_config Demo.X) ≠ Undefined
  ∧ (∀ file trace, parser_open Demo.X file = Some trace → legs_in_range trace)
  ∧ ∃ why evs,
      main "glretrace" args g why evs
      ∧ ∀ why' evs', main "glretrace" args g why' evs' → why' = why ∧ evs' = evs.
Proof.
  intros args g.
  assert (parse_options "glretrace" args (default_config Demo.X) ≠ Undefined) as Hopt.
  { intros H. discriminate H. }
  split; [exact Hopt|]. split; [apply demo_files_in_range|].
  apply (main_functional "glretrace" args g Hopt demo_files_in_range).
Defined.

(** [-s out/ -S 5] and [-S 5 -s out/]. *)
Lemma prefix_and_callset_commute_witness :
  let rest := ["one.trace"] in
  let cfg := opt_S "5" (opt_s "out/" Demo.plain) in
  CallSet_empty Demo.X (CallSet_parse Demo.X "5") = false
  ∧ parse_options "glretrace" ("-s" :: "out/" :: "-S" :: "5" :: rest) Demo.plain
    = Proceed cfg rest
  ∧ snapshotFrequency cfg = Demo.Listed [5]
  ∧ parse_options "glretrace" ("-s" :: "out/" :: "-S" :: "5" :: rest) Demo.plain
    = parse_options "glretrace" ("-S" :: "5" :: "-s" :: "out/" :: rest) Demo.plain
  ∧ parse_options "glretrace" ("-c" :: "out/" :: "-C" :: "5" :: rest) Demo.plain
    = parse_options "glretrace" ("-C" :: "5" :: "-c" :: "out/" :: rest) Demo.plain.
Proof.
  intros rest cfg. split; [reflexivity|]. split; [reflexivity|].
  split; [reflexivity|].
  apply (prefix_and_callset_commute "glretrace" "out/" "5" rest Demo.plain).
  reflexivity.
Defined.

(** [glretrace -- one.trace]: [one.trace] can be opened, but the process
    ends at [--]. *)
Lemma double_dash_is_a_file_witness :
  let g := Demo.globals [] in
  let evs := [EvStderr ("error: failed to open --" +:+ newline)] in
  CallSet_empty Demo.X (CallSet_default Demo.X) = true
  ∧ parser_open Demo.X "--" = None
  ∧ is_Some (parser_open Demo.X "one.trace")
  ∧ main "glretrace" ["--"; "one.trace"] g (Exit 1) evs
  ∧ Exit 1 = Exit 1
  ∧ evs = out g ++ [EvStderr ("error: failed to open --" +:+ newline)].
Proof.
  intros g evs.
  assert (main "glretrace" ["--"; "one.trace"] g (Exit 1) evs) as Hmain.
  { assert (parse_options "glretrace" ["--"; "one.trace"] (default_config Demo.X)
            = Proceed (default_config Demo.X) ["--"; "one.trace"]) as Hopt
      by reflexivity.
    unfold main. rewrite Hopt.
    replace (negb _) with false by reflexivity.
    eexists. split; [apply files_open_failed; reflexivity | reflexivity]. }
  split; [reflexivity|]. split; [reflexivity|]. split; [by eexists|].
  split; [exact Hmain|].
  apply (double_dash_is_a_file "glretrace" ["one.trace"] g (Exit 1) evs);
    [reflexivity | reflexivity | exact Hmain].
Defined.

(** The names of the snapshots of call 7 and of the last call number. *)
Lemma png_name_injective_witness :
  is_unsigned 7 ∧ is_unsigned UINT_MAX
  ∧ png_name "out/" 7 = "out/0000000007.png"
  ∧ png_name "out/" UINT_MAX = "out/4294967295.png"
  ∧ String.length (png_name "out/" 7) = (String.length "out/" + 14)%nat
  ∧ (png_name "out/" 7 = png_name "out/" UINT_MAX → 7 = UINT_MAX).
Proof.
  assert (is_unsigned 7 ∧ is_unsigned UINT_MAX) as [H7 Hmax].
  { unfold is_unsigned, UINT_MAX. lia. }
  split; [exact H7|]. split; [exact Hmax|].
  split; [by vm_compute|]. split; [by vm_compute|].
  apply (png_name_injective "out/" 7 UINT_MAX H7 Hmax).
Defined.

(** The two-thread trace after 61 moves: the fore runner is in
    [stopRunners], thread 1 wakes up in [wait]. *)
Lemma vector_fixed_in_stopRunners_witness :
  let g0 := mainLoop_begin (Demo.globals []) in
  let s := after_schedule Demo.plain Demo.two_threads g0
             (take 61 (Demo.turns [0; 1]%nat)) in
  let s' := after_schedule Demo.plain Demo.two_threads g0
              (take 61 (Demo.turns [0; 1]%nat) ++ [1%nat]) in
  let r0 :=
    {| finished := true; baton := None; mutex := Some 0%nat; pc := Stop_loop 1 |} in
  reachable Demo.plain Demo.two_threads g0 s
  ∧ runner_at (runners s) 0 = Some r0
  ∧ in_stopRunners (pc r0) = true
  ∧ step Demo.plain 1 s = Some s'
  ∧ length (runners s) = 2%nat
  ∧ length (runners s') = length (runners s)
  ∧ ∀ i, is_Some (runner_at (runners s') i) ↔ is_Some (runner_at (runners s) i).
Proof.
  intros g0 s s' r0.
  assert (step Demo.plain 1 s = Some s') as Hstep.
  { apply after_schedule_snoc, is_Some_alt. by vm_compute. }
  split; [apply after_schedule_reachable|].
  split; [by vm_compute|]. split; [reflexivity|]. split; [exact Hstep|].
  split; [by vm_compute|].
  apply (vector_fixed_in_stopRunners Demo.plain Demo.two_threads g0 s r0 1%nat s');
    [apply after_schedule_reachable | by vm_compute | reflexivity | exact Hstep].
Defined.

(** The two-thread trace at the end of its race: two runners. *)
Lemma runners_of_trace_witness :
  let g0 := mainLoop_begin (Demo.globals []) in
  let s := after_schedule Demo.plain Demo.two_threads g0 (Demo.turns [0; 1]%nat) in
  reachable Demo.plain Demo.two_threads g0 s
  ∧ length (runners s) = 2%nat
  ∧ max_list (thread_id <$> Demo.two_threads) = 1%nat
  ∧ (∀ i, is_Some (runner_at (runners s) i) →
       i = 0%nat ∨ ∃ call, call ∈ Demo.two_threads ∧ thread_id call = i)
  ∧ (length (runners s) ≤ S (max_list (thread_id <$> Demo.two_threads)))%nat.
Proof.
  intros g0 s. split; [apply after_schedule_reachable|].
  split; [by vm_compute|]. split; [by vm_compute|].
  apply (runners_of_trace Demo.plain Demo.two_threads g0 s).
  apply after_schedule_reachable.
Defined.
